(** * Losverteilung: the draw server, embedded and verified

    A shallow embedding of the two deployments of the gift-draw server:
    the full one (sessions, e-mail, constraints) and the reduced one
    (live connections only).

    Modelling conventions

    - A JavaScript string is a [string]: one [ascii] per UTF-16 code unit,
      for code units below 256 (the Latin-1 block).  [toLowerCase], [trim]
      and the regular-expression class [\s] are the JavaScript ones
      restricted to that block; [String.length] is [.length].
    - [null] and [undefined] are [None]; truthiness of a string-or-null
      value is [truthy].
    - A JavaScript [Map] is an association list in insertion order
      ([Map_set] overwrites in place or appends), a [Set] that is only
      queried with [has] is a [gset].
    - [Math.random] is an oracle [rnd : nat -> nat]: the [k]-th call, used as
      [Math.floor(Math.random() * b)], yields [rnd k mod b].
    - [localeCompare(_, 'de')] comes from the runtime's collation tables and
      is a parameter ([Collator]).
    - A handler returns the new state and the list of its effects: the
      frames it writes to sockets that are open, its calls of [sendEmail]
      and of [writeDistributionFile].  Whether a mail or the file gets
      through is not part of the model, nor is the heartbeat timer: a
      socket it terminates shows up as [Unready] and [Closed] events. *)

From Stdlib Require Import Ascii String List NArith ZArith Permutation Lia.
From stdpp Require Import base decidable option list strings gmap.
Import ListNotations.

Local Open Scope string_scope.
Local Open Scope nat_scope.
Local Open Scope list_scope.

(** ** Strings *)

Definition unit_code (c : ascii) : N := N_of_ascii c.

(** [String.prototype.toLowerCase] on one code unit below 256: A-Z and the
    Latin-1 capitals U+00C0..U+00DE (without the multiplication sign
    U+00D7) move up by 32. *)
Definition lower_unit (c : ascii) : ascii :=
  let n := unit_code c in
  if ((65 <=? n) && (n <=? 90) ||
      (192 <=? n) && (n <=? 222) && negb (n =? 215))%N
  then ascii_of_N (n + 32) else c.

Fixpoint toLowerCase (s : string) : string :=
  match s with
  | EmptyString => EmptyString
  | String c s' => String (lower_unit c) (toLowerCase s')
  end.

(** WhiteSpace and LineTerminator code units below 256: TAB, LF, VT, FF, CR,
    SP and NBSP.  The same set is the regular-expression class [\s]. *)
Definition is_space (c : ascii) : bool :=
  let n := unit_code c in
  ((9 <=? n) && (n <=? 13) || (n =? 32) || (n =? 160))%N.

Fixpoint trimStart (s : string) : string :=
  match s with
  | EmptyString => EmptyString
  | String c s' => if is_space c then trimStart s' else s
  end.

(** Drops trailing white space: a unit is kept when it is not white space
    or when something is kept after it. *)
Fixpoint trimEnd (s : string) : string :=
  match s with
  | EmptyString => EmptyString
  | String c s' =>
      match trimEnd s' with
      | EmptyString => if is_space c then EmptyString else String c EmptyString
      | t => String c t
      end
  end.

Definition trim (s : string) : string := trimEnd (trimStart s).

(** Truthiness of a string: the empty string is falsy. *)
Definition nonempty (s : string) : bool :=
  match s with EmptyString => false | _ => true end.

(** Truthiness of a string-or-null value. *)
Definition truthy (o : option string) : bool :=
  match o with Some s => nonempty s | None => false end.

Definition startsWith (s : string) (c : ascii) : bool :=
  match s with
  | String c' _ => bool_decide (c' = c)
  | EmptyString => false
  end.

(** ** JavaScript [Map] as an insertion-ordered association list *)

Section JSMap.
Context {K V : Type} `{EqDecision K}.

Fixpoint Map_get (k : K) (m : list (K * V)) : option V :=
  match m with
  | [] => None
  | (k', v) :: m' => if decide (k = k') then Some v else Map_get k m'
  end.

Definition Map_has (k : K) (m : list (K * V)) : bool :=
  match Map_get k m with Some _ => true | None => false end.

(** [set] keeps the position of an existing key and appends a new one. *)
Fixpoint Map_set (k : K) (v : V) (m : list (K * V)) : list (K * V) :=
  match m with
  | [] => [(k, v)]
  | (k', v') :: m' =>
      if decide (k = k') then (k, v) :: m' else (k', v') :: Map_set k v m'
  end.

Fixpoint Map_delete (k : K) (m : list (K * V)) : list (K * V) :=
  match m with
  | [] => []
  | (k', v') :: m' =>
      if decide (k = k') then m' else (k', v') :: Map_delete k m'
  end.
End JSMap.

(** ** The derangement solver *)

(** The oracle behind [Math.random]. *)
Definition oracle := nat -> nat.

(** [Math.floor(Math.random() * bound)] at call number [k]. *)
Definition random_index (rnd : oracle) (k bound : nat) : nat := rnd k mod bound.

(** [[a[i], a[j]] = [a[j], a[i]]] for indices inside the array. *)
Definition swap {A} (a : list A) (i j : nat) : list A :=
  match a !! i, a !! j with
  | Some x, Some y => <[j:=x]> (<[i:=y]> a)
  | _, _ => a
  end.

(** The loop of [shuffle]: [i] runs from its start value down to 1; [k]
    counts the calls of [Math.random] made so far. *)
Fixpoint shuffle_loop {A} (rnd : oracle) (i k : nat) (a : list A) : list A * nat :=
  match i with
  | 0 => (a, k)
  | S i' =>
      let j := random_index rnd k (i + 1) in
      shuffle_loop rnd i' (S k) (swap a i j)
  end.

Definition shuffle {A} (rnd : oracle) (k : nat) (array : list A) : list A * nat :=
  shuffle_loop rnd (length array - 1) k array.

(** The key under which a pair is stored in the banned set. *)
Definition pair_key (g r : string) : string := (g ++ "|" ++ r)%string.

(** One position passes when it is no self-assignment and, if a banned set
    was passed at all, its lowercased key is not in it. *)
Definition position_ok (bannedSet : option (gset string)) (p : string * string) : bool :=
  let '(n, q) := p in
  if bool_decide (q = n) then false
  else match bannedSet with
       | Some s =>
           if bool_decide (pair_key (toLowerCase n) (toLowerCase q) ∈ s)
           then false else true
       | None => true
       end.

Definition valid_perm (bannedSet : option (gset string))
    (names perm : list string) : bool :=
  forallb (position_ok bannedSet) (combine names perm).

Definition build_map (names perm : list string) : list (string * string) :=
  fold_left (fun m p => Map_set (fst p) (snd p) m) (combine names perm) [].

Fixpoint attempts (rnd : oracle) (bannedSet : option (gset string))
    (names : list string) (fuel k : nat) : option (list (string * string)) :=
  match fuel with
  | 0 => None
  | S fuel' =>
      let '(perm, k') := shuffle rnd k names in
      if valid_perm bannedSet names perm then Some (build_map names perm)
      else attempts rnd bannedSet names fuel' k'
  end.

Definition createDerangement (rnd : oracle) (names : list string)
    (bannedSet : option (gset string)) : option (list (string * string)) :=
  if length names <? 2 then None else attempts rnd bannedSet names 1000 0.

(** The reduced deployment: no banned set at all. *)
Module Reduced.

Definition position_ok (p : string * string) : bool :=
  let '(n, q) := p in if bool_decide (q = n) then false else true.

Definition valid_perm (names perm : list string) : bool :=
  forallb position_ok (combine names perm).

Fixpoint attempts (rnd : oracle) (names : list string) (fuel k : nat)
    : option (list (string * string)) :=
  match fuel with
  | 0 => None
  | S fuel' =>
      let '(perm, k') := shuffle rnd k names in
      if valid_perm names perm then Some (build_map names perm)
      else attempts rnd names fuel' k'
  end.

Definition createDerangement (rnd : oracle) (names : list string)
    : option (list (string * string)) :=
  if length names <? 2 then None else attempts rnd names 1000 0.

End Reduced.

(** ** The constraint file *)

Definition LF : ascii := ascii_of_N 10.
Definition CR : ascii := ascii_of_N 13.

(** Puts a code unit in front of the first piece. *)
Definition prepend (c : ascii) (pieces : list string) : list string :=
  match pieces with
  | piece :: rest => String c piece :: rest
  | [] => [String c EmptyString]
  end.

(** [raw.split(/\r?\n/)]: a separator is a line feed together with the
    carriage return right before it, if there is one. *)
Fixpoint split_lines (s : string) : list string :=
  match s with
  | EmptyString => [EmptyString]
  | String c s' =>
      if bool_decide (c = LF) then EmptyString :: split_lines s'
      else
        match s' with
        | String c' s'' =>
            if bool_decide (c = CR) && bool_decide (c' = LF)
            then EmptyString :: split_lines s''
            else prepend c (split_lines s')
        | EmptyString => prepend c (split_lines s')
        end
  end.

(** [s.split(sep)] for a separator of one code unit. *)
Fixpoint split_on (sep : ascii) (s : string) : list string :=
  match s with
  | EmptyString => [EmptyString]
  | String c s' =>
      if bool_decide (c = sep) then EmptyString :: split_on sep s'
      else prepend c (split_on sep s')
  end.

(** The body of the loop over the lines: [pairs] after one more line. *)
Definition constraint_line (pairs : list (string * string)) (line : string)
    : list (string * string) :=
  let trimmed := trim line in
  if negb (nonempty trimmed) || startsWith trimmed "#" then pairs
  else
    let parts := split_on "," trimmed in
    if negb (bool_decide (length parts = 2)) then pairs
    else
      let giver := trim (nth 0 parts EmptyString) in
      let receiver := trim (nth 1 parts EmptyString) in
      if negb (nonempty giver) || negb (nonempty receiver) then pairs
      else pairs ++ [(toLowerCase giver, toLowerCase receiver)].

(** [file] is what [fs.readFileSync] returns, [None] when it throws. *)
Definition readConstraintsFile (file : option string) : list (string * string) :=
  match file with
  | Some raw => fold_left constraint_line (split_lines raw) []
  | None => []
  end.

Definition buildBannedSet (file : option string) : gset string :=
  fold_left (fun set p => {[ pair_key (fst p) (snd p) ]} ∪ set)
            (readConstraintsFile file) ∅.

(** ** The collation of the runtime *)

Class Collator := { localeCompare : string -> string -> Z }.

Section Sorting.
Context `{Collator} {A : Type} (key : A -> string).

Fixpoint sort_insert (x : A) (l : list A) : list A :=
  match l with
  | [] => [x]
  | y :: l' =>
      if (localeCompare (key x) (key y) <=? 0)%Z then x :: l
      else y :: sort_insert x l'
  end.

(** [Array.prototype.sort] is stable; on a comparator that is a total
    preorder every stable sort returns the same array. *)
Definition sort_by (l : list A) : list A := fold_right sort_insert [] l.
End Sorting.

(** ** Regular expressions, matched by derivatives *)

Inductive regex :=
| re_none
| re_eps
| re_class (p : ascii -> bool)
| re_cat (r1 r2 : regex)
| re_alt (r1 r2 : regex)
| re_star (r : regex).

Definition re_plus (r : regex) : regex := re_cat r (re_star r).

Fixpoint nullable (r : regex) : bool :=
  match r with
  | re_none => false
  | re_eps => true
  | re_class _ => false
  | re_cat r1 r2 => nullable r1 && nullable r2
  | re_alt r1 r2 => nullable r1 || nullable r2
  | re_star _ => true
  end.

Fixpoint deriv (c : ascii) (r : regex) : regex :=
  match r with
  | re_none => re_none
  | re_eps => re_none
  | re_class p => if p c then re_eps else re_none
  | re_cat r1 r2 =>
      if nullable r1 then re_alt (re_cat (deriv c r1) r2) (deriv c r2)
      else re_cat (deriv c r1) r2
  | re_alt r1 r2 => re_alt (deriv c r1) (deriv c r2)
  | re_star r' => re_cat (deriv c r') (re_star r')
  end.

(** [/^r$/.test(s)] *)
Fixpoint re_test (r : regex) (s : string) : bool :=
  match s with
  | EmptyString => nullable r
  | String c s' => re_test (deriv c r) s'
  end.

(** The class [[^\s@]]. *)
Definition no_space_no_at (c : ascii) : bool :=
  negb (is_space c) && negb (bool_decide (c = "@"%char)).

Definition is_unit (d c : ascii) : bool := bool_decide (c = d).

(** [/^[^\s@]+@[^\s@]+\.[^\s@]+$/] *)
Definition email_re : regex :=
  re_cat (re_plus (re_class no_space_no_at))
    (re_cat (re_class (is_unit "@"))
       (re_cat (re_plus (re_class no_space_no_at))
          (re_cat (re_class (is_unit "."))
             (re_plus (re_class no_space_no_at))))).

Definition isValidEmail (email : string) : bool := re_test email_re email.

(** ** The registry *)

Definition socket := nat.

(** The role of a connection: [role === 'master'] or anything else. *)
Inductive Role := master | participant.

Module Participant.
Record t := mk { name : option string; email : option string; sessionId : string }.
End Participant.

Module Session.
Record t := mk { name : string; email : string; target : option string }.
End Session.

Module Entry.
Record t := mk { name : string; email : string; online : bool }.
End Entry.

(** The fixed texts of the [error] messages:
    - [NameEmpty]: 'Name darf nicht leer sein.'
    - [NameTooLong]: 'Name ist zu lang (max. 40).'
    - [EmailEmpty]: 'E-Mail-Adresse darf nicht leer sein.'
    - [EmailInvalid]: 'Ungültige E-Mail-Adresse.'
    - [NameTaken]: 'Name bereits vergeben. Bitte anderen wählen.'
    - [InvalidAction]: 'Ungültige Aktion.'
    - [TooFewParticipants]: 'Mindestens 2 Teilnehmer nötig.'
    - [NoDistribution]: 'Konnte keine gültige Verteilung finden. Bitte
      erneut versuchen.' *)
Inductive error_text :=
| NameEmpty | NameTooLong | EmailEmpty | EmailInvalid | NameTaken
| InvalidAction | TooFewParticipants | NoDistribution.

(** What the server sends, by the [type] of the message. *)
Inductive message :=
| participants_list (names : list string) (participantsWithEmail : list Entry.t)
| your_target (target : string)
| name_ok (name : string) (sessionId : option string)
| error (text : error_text)
| reset
| draw_complete.

(** What a handler does to the outside: a frame written to a socket, a call
    of [sendEmail], the pairs handed to [writeDistributionFile] in the order
    they are written. *)
Inductive effect :=
| Sent (ws : socket) (data : message)
| Mail (to name target : string)
| Written (pairs : list (string * string)).

(** The three global containers, and the sockets whose [readyState] is
    [OPEN]. *)
Record state := mkState {
  participants : list (socket * Participant.t);
  masters : list socket;
  sessions : list (string * Session.t);
  opened : list socket
}.

Definition initial : state := mkState [] [] [] [].

Definition with_participants (st : state) ps : state :=
  mkState ps (masters st) (sessions st) (opened st).
Definition with_masters (st : state) ms : state :=
  mkState (participants st) ms (sessions st) (opened st).
Definition with_sessions (st : state) ss : state :=
  mkState (participants st) (masters st) ss (opened st).
Definition with_opened (st : state) os : state :=
  mkState (participants st) (masters st) (sessions st) os.

Definition send (st : state) (ws : socket) (data : message) : list effect :=
  if bool_decide (ws ∈ opened st) then [Sent ws data] else [].

Definition broadcastToMasters (st : state) (data : message) : list effect :=
  flat_map (fun ws => send st ws data) (masters st).

(** Case-insensitive equality as the code writes it. *)
Definition same_name (a b : string) : bool :=
  bool_decide (toLowerCase a = toLowerCase b).

(** A session record that counts as an offline participant. *)
Definition undrawn (s : Session.t) : bool :=
  nonempty (Session.name s) && nonempty (Session.email s)
  && negb (truthy (Session.target s)).

Section Registry.
Context `{Collator}.

Definition getParticipantNames (st : state) : list string :=
  let online :=
    fold_left
      (fun names p =>
         match Participant.name (snd p) with
         | Some n => if nonempty n then names ++ [n] else names
         | None => names
         end)
      (participants st) [] in
  let all :=
    fold_left
      (fun names p =>
         let session := snd p in
         if undrawn session then
           if negb (existsb (fun n => same_name n (Session.name session)) names)
           then names ++ [Session.name session] else names
         else names)
      (sessions st) online in
  sort_by id all.

Definition getAllParticipants (st : state) : list Entry.t :=
  let online :=
    fold_left
      (fun participantMap p =>
         match Participant.name (snd p), Participant.email (snd p) with
         | Some n, Some e =>
             if nonempty n && nonempty e
             then Map_set (toLowerCase n) (Entry.mk n e true) participantMap
             else participantMap
         | _, _ => participantMap
         end)
      (participants st) [] in
  let all :=
    fold_left
      (fun participantMap p =>
         let session := snd p in
         if undrawn session then
           let key := toLowerCase (Session.name session) in
           match Map_get key participantMap with
           | None =>
               Map_set key
                 (Entry.mk (Session.name session) (Session.email session) false)
                 participantMap
           | Some e =>
               Map_set key (Entry.mk (Entry.name e) (Entry.email e) true)
                 participantMap
           end
         else participantMap)
      (sessions st) online in
  sort_by Entry.name (map snd all).

Definition broadcastParticipantsUpdate (st : state) : list effect :=
  let allParticipants := getAllParticipants st in
  broadcastToMasters st
    (participants_list (map Entry.name allParticipants) allParticipants).
End Registry.

Definition isNameTaken (name : string) (st : state) : bool :=
  let nameLower := toLowerCase name in
  existsb
    (fun p =>
       match Participant.name (snd p) with
       | Some n => nonempty n && bool_decide (toLowerCase n = nameLower)
       | None => false
       end)
    (participants st)
  || existsb
       (fun p =>
          let session := snd p in
          nonempty (Session.name session)
          && bool_decide (toLowerCase (Session.name session) = nameLower)
          && negb (truthy (Session.target session)))
       (sessions st).

(** ** The handlers *)

(** A parsed frame: [type], and [name] and [email] when they are strings. *)
Module Data.
Record t := mk { type : option string; name : option string; email : option string }.
End Data.

Definition has_type (data : Data.t) (ty : string) : bool :=
  bool_decide (Data.type data = Some ty).

(** [x || null] on a string. *)
Definition or_null (s : string) : option string :=
  if nonempty s then Some s else None.

(** The answer of [GET /api/session/:sessionId]. *)
Inductive response :=
| session_json (name email : string) (target : option string)
| not_found.

Definition get_session (sessionId : string) (st : state) : response :=
  match Map_get sessionId (sessions st) with
  | Some session =>
      session_json (Session.name session) (Session.email session)
        (Session.target session)
  | None => not_found
  end.

Section Handlers.
Context `{Collator}.

(** [wss.on('connection')]; [cookie] is the session id found in the cookie
    header, [freshId] what [generateSessionId] would return. *)
Definition on_connection (ws : socket) (role : Role) (cookie : option string)
    (freshId : string) (st : state) : state * list effect :=
  match role with
  | master =>
      let st' :=
        with_masters st
          (if bool_decide (ws ∈ masters st) then masters st
           else masters st ++ [ws]) in
      let allParticipants := getAllParticipants st' in
      (st', send st' ws
              (participants_list (map Entry.name allParticipants) allParticipants))
  | participant =>
      let sessionData :=
        match cookie with
        | Some sessionId =>
            if nonempty sessionId then Map_get sessionId (sessions st) else None
        | None => None
        end in
      let participantData :=
        Participant.mk
          (match sessionData with
           | Some d => or_null (Session.name d) | None => None end)
          (match sessionData with
           | Some d => or_null (Session.email d) | None => None end)
          (match cookie with
           | Some sessionId => if nonempty sessionId then sessionId else freshId
           | None => freshId
           end) in
      let st' := with_participants st (Map_set ws participantData (participants st)) in
      (st',
       match sessionData with
       | Some d =>
           match Session.target d with
           | Some target =>
               if nonempty target then send st' ws (your_target target)
               else if nonempty (Session.name d) && nonempty (Session.email d)
               then send st' ws (name_ok (Session.name d) None) else []
           | None =>
               if nonempty (Session.name d) && nonempty (Session.email d)
               then send st' ws (name_ok (Session.name d) None) else []
           end
       | None => []
       end)
  end.

(** The [set_name] block; the third component tells whether it returned
    from the handler. *)
Definition handle_set_name (ws : socket) (data : Data.t) (st : state)
    : state * list effect * bool :=
  match Data.name data, Data.email data with
  | Some name, Some email =>
      if has_type data "set_name" then
        let trimmed := trim name in
        let trimmedEmail := trim email in
        if negb (nonempty trimmed) then (st, send st ws (error NameEmpty), true)
        else if 40 <? String.length trimmed
        then (st, send st ws (error NameTooLong), true)
        else if negb (nonempty trimmedEmail)
        then (st, send st ws (error EmailEmpty), true)
        else if negb (isValidEmail trimmedEmail)
        then (st, send st ws (error EmailInvalid), true)
        else if isNameTaken trimmed st
        then (st, send st ws (error NameTaken), true)
        else
          match Map_get ws (participants st) with
          | None => (st, send st ws (error InvalidAction), true)
          | Some info =>
              let sessionId := Participant.sessionId info in
              let info' :=
                Participant.mk (Some trimmed) (Some trimmedEmail) sessionId in
              let record :=
                match Map_get sessionId (sessions st) with
                | None => Session.mk trimmed trimmedEmail None
                | Some session =>
                    Session.mk trimmed trimmedEmail (Session.target session)
                end in
              let st' :=
                with_sessions
                  (with_participants st (Map_set ws info' (participants st)))
                  (Map_set sessionId record (sessions st)) in
              (st',
               send st' ws (name_ok trimmed (Some sessionId))
               ++ broadcastParticipantsUpdate st',
               false)
          end
      else (st, [], false)
  | _, _ => (st, [], false)
  end.

(** Does a live identity hold the name whose lowercase form is given? *)
Definition bound_to (targetLower : string) (info : Participant.t) : bool :=
  match Participant.name info with
  | Some n => nonempty n && bool_decide (toLowerCase n = targetLower)
  | None => false
  end.

Definition session_named (targetLower : string) (session : Session.t) : bool :=
  nonempty (Session.name session)
  && bool_decide (toLowerCase (Session.name session) = targetLower).

(** The [remove_name] block. *)
Definition handle_remove_name (role : Role) (data : Data.t) (st : state)
    : state * list effect :=
  match role, Data.name data with
  | master, Some name =>
      if has_type data "remove_name" then
        let target := trim name in
        let targetLower := toLowerCase target in
        let participants' :=
          map (fun p =>
                 if bound_to targetLower (snd p)
                 then (fst p,
                       Participant.mk None None (Participant.sessionId (snd p)))
                 else p)
              (participants st) in
        let resets :=
          flat_map (fun p =>
                      if bound_to targetLower (snd p)
                      then send st (fst p) reset else [])
                   (participants st) in
        let sessions' :=
          List.filter (fun p => negb (session_named targetLower (snd p))) (sessions st) in
        let st' := with_sessions (with_participants st participants') sessions' in
        (st', resets ++ broadcastParticipantsUpdate st')
      else (st, [])
  | _, _ => (st, [])
  end.

(** The first loop of the draw, over the live identities: one step. *)
Definition draw_online (st : state) (mapping : list (string * string))
    (acc : list (string * Session.t) * list effect)
    (p : socket * Participant.t) : list (string * Session.t) * list effect :=
  let '(ss, out) := acc in
  let '(sock, info) := p in
  match Participant.name info with
  | Some n =>
      if nonempty n then
        match Map_get n mapping with
        | Some target =>
            let ss' :=
              if nonempty (Participant.sessionId info) then
                match Map_get (Participant.sessionId info) ss with
                | Some session =>
                    Map_set (Participant.sessionId info)
                      (Session.mk (Session.name session) (Session.email session)
                         (Some target)) ss
                | None => ss
                end
              else ss in
            let mail :=
              match Participant.email info with
              | Some e => if nonempty e then [Mail e n target] else []
              | None => []
              end in
            (ss', out ++ send st sock (your_target target) ++ mail)
        | None => acc
        end
      else acc
  | None => acc
  end.

(** The second loop of the draw, over the session records: one step. *)
Definition draw_offline (mapping : list (string * string))
    (acc : list (string * Session.t) * list effect)
    (p : string * Session.t) : list (string * Session.t) * list effect :=
  let '(ss, out) := acc in
  let '(sessionId, session) := p in
  if undrawn session then
    match Map_get (Session.name session) mapping with
    | Some target =>
        (ss ++ [(sessionId,
                 Session.mk (Session.name session) (Session.email session)
                   (Some target))],
         out ++ [Mail (Session.email session) (Session.name session) target])
    | None => (ss ++ [p], out)
    end
  else (ss ++ [p], out).

(** The [start_draw] block; [file] is the content of [constraints.txt]
    at that moment and [rnd] the random generator from there on. *)
Definition handle_start_draw (role : Role) (ws : socket) (data : Data.t)
    (file : option string) (rnd : oracle) (st : state) : state * list effect :=
  match role with
  | master =>
      if has_type data "start_draw" then
        let names := getParticipantNames st in
        if length names <? 2 then (st, send st ws (error TooFewParticipants))
        else
          let bannedSet := buildBannedSet file in
          match createDerangement rnd names (Some bannedSet) with
          | None => (st, send st ws (error NoDistribution))
          | Some mapping =>
              let '(ss1, out1) :=
                fold_left (draw_online st mapping) (participants st)
                          (sessions st, []) in
              let '(ss2, out2) :=
                fold_left (draw_offline mapping) ss1 ([], out1) in
              let st' := with_sessions st ss2 in
              (st',
               out2 ++ [Written (sort_by fst mapping)]
               ++ broadcastToMasters st' draw_complete)
          end
      else (st, [])
  | participant => (st, [])
  end.

(** [ws.on('message')]; [raw] is the parsed frame, [None] when
    [JSON.parse] throws. *)
Definition on_message (role : Role) (ws : socket) (raw : option Data.t)
    (file : option string) (rnd : oracle) (st : state) : state * list effect :=
  match raw with
  | None => (st, [])
  | Some data =>
      let '(st1, out1, returned) := handle_set_name ws data st in
      if returned then (st1, out1)
      else
        let '(st2, out2) := handle_remove_name role data st1 in
        let '(st3, out3) := handle_start_draw role ws data file rnd st2 in
        (st3, out1 ++ out2 ++ out3)
  end.

(** [ws.on('close')] *)
Definition on_close (ws : socket) (st : state) : state * list effect :=
  if bool_decide (ws ∈ masters st)
  then (with_masters st (List.filter (fun m => negb (bool_decide (m = ws))) (masters st)), [])
  else
    match Map_get ws (participants st) with
    | Some info =>
        let st' := with_participants st (Map_delete ws (participants st)) in
        (st', if truthy (Participant.name info)
              then broadcastParticipantsUpdate st' else [])
    | None => (st, [])
    end.
End Handlers.

(** ** Runs of the server *)

(** What can happen to the server: a socket connects, a frame arrives, a
    socket leaves the [OPEN] state (it is closing or was terminated), the
    [close] event of a socket fires. *)
Inductive event :=
| Connect (ws : socket) (role : Role) (cookie : option string) (freshId : string)
| Receive (ws : socket) (raw : option Data.t) (file : option string) (rnd : oracle)
| Unready (ws : socket)
| Closed (ws : socket).

(** The role the handlers of a connected socket were registered with. *)
Definition role_of (st : state) (ws : socket) : option Role :=
  if bool_decide (ws ∈ masters st) then Some master
  else if Map_has ws (participants st) then Some participant
  else None.

Definition mark_open (ws : socket) (st : state) : state :=
  with_opened st (ws :: opened st).

Definition mark_unready (ws : socket) (st : state) : state :=
  with_opened st (List.filter (fun o => negb (bool_decide (o = ws))) (opened st)).

Section Runs.
Context `{Collator}.

Definition handle (st : state) (ev : event) : state * list effect :=
  match ev with
  | Connect ws role cookie freshId =>
      on_connection ws role cookie freshId (mark_open ws st)
  | Receive ws raw file rnd =>
      match role_of st ws with
      | Some role => on_message role ws raw file rnd st
      | None => (st, [])
      end
  | Unready ws => (mark_unready ws st, [])
  | Closed ws => on_close ws (mark_unready ws st)
  end.

(** A connecting socket is a new one, and [generateSessionId] returns 32
    hexadecimal digits, so never the empty string. *)
Definition enabled (st : state) (ev : event) : Prop :=
  match ev with
  | Connect ws _ _ freshId => role_of st ws = None /\ nonempty freshId = true
  | _ => True
  end.

Inductive reachable : state -> Prop :=
| reachable_initial : reachable initial
| reachable_step st ev :
    reachable st -> enabled st ev -> reachable (fst (handle st ev)).

(** The state after a list of events, with everything done on the way. *)
Fixpoint run (st : state) (evs : list event) : state * list effect :=
  match evs with
  | [] => (st, [])
  | ev :: evs' =>
      let '(st1, out1) := handle st ev in
      let '(st2, out2) := run st1 evs' in
      (st2, out1 ++ out2)
  end.
End Runs.

(** Code-unit order, a collation for the examples: on capitalised
    unaccented names with different first letters it orders as the German
    collation does. *)
Definition codeunit_compare (a b : string) : Z :=
  match String.compare a b with
  | Lt => (-1)%Z
  | Eq => 0%Z
  | Gt => 1%Z
  end.

Definition codeunit_collator : Collator := {| localeCompare := codeunit_compare |}.

Definition set_name_frame (name email : string) : option Data.t :=
  Some (Data.mk (Some "set_name") (Some name) (Some email)).
Definition remove_name_frame (name : string) : option Data.t :=
  Some (Data.mk (Some "remove_name") (Some name) None).
Definition start_draw_frame : option Data.t :=
  Some (Data.mk (Some "start_draw") None None).

(** The permutation tried by attempt number [a], counted from 0, when the
    first attempt starts at call [k] of the generator. *)
Definition attempt_perm (rnd : oracle) (names : list string) (k a : nat) : list string :=
  fst (shuffle rnd (k + a * (length names - 1)) names).


(** ** Vocabulary of the properties *)

(** [m], read through [Map.get], is a bijection of the set [names]. *)
Definition bijection_on (names : list string) (m : list (string * string)) : Prop :=
  (forall g, In g names <-> exists r, Map_get g m = Some r)
  /\ (forall g r, Map_get g m = Some r -> In r names)
  /\ (forall g1 g2 r, Map_get g1 m = Some r -> Map_get g2 m = Some r -> g1 = g2)
  /\ (forall r, In r names -> exists g, Map_get g m = Some r).

Definition fixed_point_free (m : list (string * string)) : Prop :=
  forall g r, Map_get g m = Some r -> g <> r.

(** The ordered pair (giver, receiver) is forbidden when, both names
    lowercased, it is one of the pairs of the banned set. *)
Definition forbidden (bannedSet : gset string) (g r : string) : Prop :=
  pair_key (toLowerCase g) (toLowerCase r) ∈ bannedSet.

(** The pieces put together again, the separator between two neighbours. *)
Fixpoint join (sep : ascii) (pieces : list string) : string :=
  match pieces with
  | [] => EmptyString
  | piece :: rest =>
      match rest with
      | [] => piece
      | _ :: _ => (piece ++ String sep (join sep rest))%string
      end
  end.

(** The code unit occurs in the string. *)
Fixpoint has_unit (c : ascii) (s : string) : bool :=
  match s with
  | EmptyString => false
  | String c' s' => bool_decide (c' = c) || has_unit c s'
  end.

(** The string without the carriage return at its end, if it ends in one. *)
Fixpoint drop_cr (s : string) : string :=
  match s with
  | EmptyString => EmptyString
  | String c s' =>
      match s' with
      | EmptyString => if bool_decide (c = CR) then EmptyString else s
      | String _ _ => String c (drop_cr s')
      end
  end.

(** Every piece but the last loses the carriage return at its end: the
    pieces between line feeds, turned into lines. *)
Fixpoint drop_crs (pieces : list string) : list string :=
  match pieces with
  | [] => []
  | piece :: rest =>
      match rest with
      | [] => [piece]
      | _ :: _ => drop_cr piece :: drop_crs rest
      end
  end.

(** A constraint file of three lines, the first ended by a carriage return
    and a line feed, the second by a line feed. *)
Definition three_lines : string :=
  ("# nobody" ++ String CR (String LF " Alice , BOB ") ++ String LF "a,b,c")%string.

(** The line is neither blank nor a comment, has exactly two fields around
    one comma, both not blank, and they give the pair [(g, r)]. *)
Definition line_gives (line g r : string) : Prop :=
  exists a b,
    trim line <> EmptyString
    /\ startsWith (trim line) "#" = false
    /\ split_on "," (trim line) = [a; b]
    /\ trim a <> EmptyString /\ trim b <> EmptyString
    /\ g = toLowerCase (trim a) /\ r = toLowerCase (trim b).

(** A live connection holds the name, compared in lower case. *)
Definition held_live (st : state) (name : string) : Prop :=
  exists sock info n,
    In (sock, info) (participants st)
    /\ Participant.name info = Some n /\ n <> EmptyString
    /\ toLowerCase n = toLowerCase name.

(** A session record without target holds the name, compared in lower case. *)
Definition held_undrawn (st : state) (name : string) : Prop :=
  exists sessionId session,
    In (sessionId, session) (sessions st)
    /\ Session.name session <> EmptyString
    /\ truthy (Session.target session) = false
    /\ toLowerCase (Session.name session) = toLowerCase name.

(** The errors that answer a name claim that fails validation. *)
Definition validation_error (e : error_text) : Prop :=
  e = NameEmpty \/ e = NameTooLong \/ e = EmailEmpty \/ e = EmailInvalid
  \/ e = NameTaken.

(** Everything written is one frame, the given one, to the given socket. *)
Definition only_to (ws : socket) (data : message) (out : list effect) : Prop :=
  forall eff, In eff out -> eff = Sent ws data.

(** ** Well-formed states *)

(** A live identity carries a session id that is not empty. *)
Definition identity_ok (p : socket * Participant.t) : Prop :=
  nonempty (Participant.sessionId (snd p)) = true.

(** A session record has a key, a name and an address that are not empty,
    and a target, if any, that is not empty either. *)
Definition record_ok (p : string * Session.t) : Prop :=
  nonempty (fst p) = true
  /\ nonempty (Session.name (snd p)) = true
  /\ nonempty (Session.email (snd p)) = true
  /\ forall t, Session.target (snd p) = Some t -> nonempty t = true.

Definition well_formed (st : state) : Prop :=
  Forall identity_ok (participants st) /\ Forall record_ok (sessions st).

(** An event that is no frame: a socket connects, leaves the open state or
    closes. *)
Definition quiet (ev : event) : Prop :=
  match ev with
  | Receive _ _ _ _ => False
  | _ => True
  end.

(** Every event of the list is enabled in the state it meets. *)
Fixpoint enabled_all `{Collator} (st : state) (evs : list event) : Prop :=
  match evs with
  | [] => True
  | ev :: evs' => enabled st ev /\ enabled_all (fst (handle st ev)) evs'
  end.

(** ** A concrete evening *)

(** Alice, Bob and Carol connect without cookie and claim their names; a
    master connects. *)
Definition three_claims : list event :=
  [ Connect 1 participant None "s1";
    Receive 1 (set_name_frame "Alice" "alice@example.org") None (fun _ => 0);
    Connect 2 participant None "s2";
    Receive 2 (set_name_frame "Bob" "bob@example.org") None (fun _ => 0);
    Connect 3 participant None "s3";
    Receive 3 (set_name_frame "Carol" "carol@example.org") None (fun _ => 0);
    Connect 0 master None "s0" ].

(** The master draws, there is no constraint file, and every call of
    [Math.random] picks index 0: the shuffle of Alice, Bob, Carol is Bob,
    Carol, Alice. *)
Definition first_draw : event :=
  Receive 0 start_draw_frame None (fun _ => 0).

(** The master draws again; the random indices are now 1, then 0: the
    shuffle is Carol, Alice, Bob. *)
Definition second_draw : event :=
  Receive 0 start_draw_frame None (fun k => 1 - k).

Definition claimed_state : state :=
  fst (@run codeunit_collator initial three_claims).

Definition drawn_state : state :=
  fst (@handle codeunit_collator claimed_state first_draw).

Definition targets (st : state) : list (string * option string) :=
  map (fun p => (fst p, Session.target (snd p))) (sessions st).

(** Alice has claimed her name and closed her connection. *)
Definition alice_away : state :=
  fst (@handle codeunit_collator claimed_state (Closed 1)).

Definition name_of_40 : string := "Maximiliane-Alexandra von Hohenzollern-S".
Definition name_of_41 : string := "Maximiliane-Alexandra von Hohenzollern-Si".

(** Bob has his target and has closed his connection. *)
Definition bob_away_drawn : state :=
  fst (@handle codeunit_collator drawn_state (Closed 2)).

(** What identifies a session record: its key, its name and its address. *)
Definition record_identity (p : string * Session.t) : string * string * string :=
  (fst p, Session.name (snd p), Session.email (snd p)).

(** The mapping of the first draw of the evening. *)
Definition first_mapping : list (string * string) :=
  [("Alice", "Bob"); ("Bob", "Carol"); ("Carol", "Alice")].

(** An entry of the observers' list under its key: the key is the name in
    lower case, name and address are not empty, and somebody, live or in
    an undrawn record, holds the name. *)
Definition entry_ok (st : state) (p : string * Entry.t) : Prop :=
  fst p = toLowerCase (Entry.name (snd p))
  /\ Entry.name (snd p) <> EmptyString /\ Entry.email (snd p) <> EmptyString
  /\ (held_live st (Entry.name (snd p)) \/ held_undrawn st (Entry.name (snd p))).

(** ** What is stored has passed the checks *)

(** A name as a claim stores it: trimmed, not empty, at most 40 units. *)
Definition name_valid (n : string) : Prop :=
  trim n = n /\ n <> EmptyString /\ String.length n <= 40.

Definition record_valid (p : string * Session.t) : Prop :=
  name_valid (Session.name (snd p)) /\ isValidEmail (Session.email (snd p)) = true.

(** A live identity has no name and no address, or a valid name and a
    valid address. *)
Definition identity_valid (p : socket * Participant.t) : Prop :=
  match Participant.name (snd p), Participant.email (snd p) with
  | Some n, Some e => name_valid n /\ isValidEmail e = true
  | None, None => True
  | _, _ => False
  end.

Definition all_valid (st : state) : Prop :=
  Forall identity_valid (participants st) /\ Forall record_valid (sessions st).

(** ** The containers *)

(** No socket is registered twice, and none is both master and
    participant. *)
Definition containers_ok (st : state) : Prop :=
  NoDup (masters st) /\ NoDup (map fst (participants st))
  /\ forall ws, In ws (masters st) -> ~ In ws (map fst (participants st)).

(** * The reduced deployment

    [server.js]: live connections only, no sessions, no addresses, no
    constraints.  Its [shuffle] and [createDerangement] are above
    ([Reduced]); its error texts are among those of [error_text]. *)

Module ReducedServer.

(** What this server sends; the participant list carries names only. *)
Inductive message :=
| participants_list (names : list string)
| your_target (target : string)
| name_ok (name : string)
| error (text : error_text)
| reset
| draw_complete.

(** A frame written to a socket. *)
Inductive effect :=
| Sent (ws : socket) (data : message).

(** [participants] maps a socket to its [name], [masters] is the set of
    observers; [opened] are the sockets whose [readyState] is [OPEN]. *)
Record state := mkState {
  participants : list (socket * option string);
  masters : list socket;
  opened : list socket
}.

Definition initial : state := mkState [] [] [].

Definition with_participants (st : state) ps : state :=
  mkState ps (masters st) (opened st).
Definition with_masters (st : state) ms : state :=
  mkState (participants st) ms (opened st).
Definition with_opened (st : state) os : state :=
  mkState (participants st) (masters st) os.

Definition send (st : state) (ws : socket) (data : message) : list effect :=
  if bool_decide (ws ∈ opened st) then [Sent ws data] else [].

Definition broadcastToMasters (st : state) (data : message) : list effect :=
  flat_map (fun ws => send st ws data) (masters st).

Definition isNameTaken (name : string) (st : state) : bool :=
  existsb
    (fun p =>
       match snd p with
       | Some n => nonempty n && bool_decide (toLowerCase n = toLowerCase name)
       | None => false
       end)
    (participants st).

Section Handlers.
Context `{Collator}.

Definition getParticipantNames (st : state) : list string :=
  sort_by id
    (fold_left
       (fun names p =>
          match snd p with
          | Some n => if nonempty n then names ++ [n] else names
          | None => names
          end)
       (participants st) []).

Definition broadcastParticipantsUpdate (st : state) : list effect :=
  broadcastToMasters st (participants_list (getParticipantNames st)).

Definition on_connection (ws : socket) (role : Role) (st : state)
    : state * list effect :=
  match role with
  | master =>
      let st' :=
        with_masters st
          (if bool_decide (ws ∈ masters st) then masters st else masters st ++ [ws]) in
      (st', send st' ws (participants_list (getParticipantNames st')))
  | participant =>
      (with_participants st (Map_set ws None (participants st)), [])
  end.

(** The [set_name] block; the third component tells whether it returned
    from the handler. *)
Definition handle_set_name (ws : socket) (data : Data.t) (st : state)
    : state * list effect * bool :=
  match Data.name data with
  | Some name =>
      if has_type data "set_name" then
        let trimmed := trim name in
        if negb (nonempty trimmed) then (st, send st ws (error NameEmpty), true)
        else if 40 <? String.length trimmed
        then (st, send st ws (error NameTooLong), true)
        else if isNameTaken trimmed st
        then (st, send st ws (error NameTaken), true)
        else
          match Map_get ws (participants st) with
          | None => (st, send st ws (error InvalidAction), true)
          | Some _ =>
              let st' :=
                with_participants st (Map_set ws (Some trimmed) (participants st)) in
              (st', send st' ws (name_ok trimmed) ++ broadcastParticipantsUpdate st',
               false)
          end
      else (st, [], false)
  | None => (st, [], false)
  end.

Definition bound_to (targetLower : string) (name : option string) : bool :=
  match name with
  | Some n => nonempty n && bool_decide (toLowerCase n = targetLower)
  | None => false
  end.

(** The [remove_name] block. *)
Definition handle_remove_name (role : Role) (data : Data.t) (st : state)
    : state * list effect :=
  match role, Data.name data with
  | master, Some name =>
      if has_type data "remove_name" then
        let target := trim name in
        let participants' :=
          map (fun p => if bound_to (toLowerCase target) (snd p) then (fst p, None) else p)
              (participants st) in
        let resets :=
          flat_map (fun p =>
                      if bound_to (toLowerCase target) (snd p)
                      then send st (fst p) reset else [])
                   (participants st) in
        let st' := with_participants st participants' in
        (st', resets ++ broadcastParticipantsUpdate st')
      else (st, [])
  | _, _ => (st, [])
  end.

(** The [start_draw] block. *)
Definition handle_start_draw (role : Role) (ws : socket) (data : Data.t)
    (rnd : oracle) (st : state) : state * list effect :=
  match role with
  | master =>
      if has_type data "start_draw" then
        let names := getParticipantNames st in
        if length names <? 2 then (st, send st ws (error TooFewParticipants))
        else
          match Reduced.createDerangement rnd names with
          | None => (st, send st ws (error NoDistribution))
          | Some mapping =>
              (st,
               flat_map
                 (fun p =>
                    match snd p with
                    | Some n =>
                        if nonempty n then
                          match Map_get n mapping with
                          | Some target => send st (fst p) (your_target target)
                          | None => []
                          end
                        else []
                    | None => []
                    end)
                 (participants st)
               ++ broadcastToMasters st draw_complete)
          end
      else (st, [])
  | participant => (st, [])
  end.

Definition on_message (role : Role) (ws : socket) (raw : option Data.t)
    (rnd : oracle) (st : state) : state * list effect :=
  match raw with
  | None => (st, [])
  | Some data =>
      let '(st1, out1, returned) := handle_set_name ws data st in
      if returned then (st1, out1)
      else
        let '(st2, out2) := handle_remove_name role data st1 in
        let '(st3, out3) := handle_start_draw role ws data rnd st2 in
        (st3, out1 ++ out2 ++ out3)
  end.

Definition on_close (ws : socket) (st : state) : state * list effect :=
  if bool_decide (ws ∈ masters st)
  then (with_masters st (List.filter (fun m => negb (bool_decide (m = ws))) (masters st)), [])
  else
    match Map_get ws (participants st) with
    | Some hadName =>
        let st' := with_participants st (Map_delete ws (participants st)) in
        (st', if truthy hadName then broadcastParticipantsUpdate st' else [])
    | None => (st, [])
    end.

Inductive event :=
| Connect (ws : socket) (role : Role)
| Receive (ws : socket) (raw : option Data.t) (rnd : oracle)
| Unready (ws : socket)
| Closed (ws : socket).

Definition role_of (st : state) (ws : socket) : option Role :=
  if bool_decide (ws ∈ masters st) then Some master
  else if Map_has ws (participants st) then Some participant
  else None.

Definition mark_open (ws : socket) (st : state) : state :=
  with_opened st (ws :: opened st).

Definition mark_unready (ws : socket) (st : state) : state :=
  with_opened st (List.filter (fun o => negb (bool_decide (o = ws))) (opened st)).

Definition handle (st : state) (ev : event) : state * list effect :=
  match ev with
  | Connect ws role => on_connection ws role (mark_open ws st)
  | Receive ws raw rnd =>
      match role_of st ws with
      | Some role => on_message role ws raw rnd st
      | None => (st, [])
      end
  | Unready ws => (mark_unready ws st, [])
  | Closed ws => on_close ws (mark_unready ws st)
  end.

Inductive reachable : state -> Prop :=
| reachable_initial : reachable initial
| reachable_step st ev : reachable st -> reachable (fst (handle st ev)).

Fixpoint run (st : state) (evs : list event) : state * list effect :=
  match evs with
  | [] => (st, [])
  | ev :: evs' =>
      let '(st1, out1) := handle st ev in
      let '(st2, out2) := run st1 evs' in
      (st2, out1 ++ out2)
  end.
End Handlers.

(** The name of one live connection, if it has one. *)
Definition name_list (name : option string) : list string :=
  match name with
  | Some n => if nonempty n then [n] else []
  | None => []
  end.

(** The names the live connections hold, in the order of the map. *)
Definition live_names (ps : list (socket * option string)) : list string :=
  flat_map (fun p => name_list (snd p)) ps.

End ReducedServer.

(** A reduced evening: three participants claim names, a master connects. *)
Definition reduced_claims : list ReducedServer.event :=
  [ ReducedServer.Connect 1 participant;
    ReducedServer.Receive 1 (Some (Data.mk (Some "set_name") (Some "Alice") None)) (fun _ => 0);
    ReducedServer.Connect 2 participant;
    ReducedServer.Receive 2 (Some (Data.mk (Some "set_name") (Some " Bob") None)) (fun _ => 0);
    ReducedServer.Connect 3 participant;
    ReducedServer.Receive 3 (Some (Data.mk (Some "set_name") (Some "Carol") None)) (fun _ => 0);
    ReducedServer.Connect 0 master ].

Definition reduced_claimed : ReducedServer.state :=
  fst (@ReducedServer.run codeunit_collator ReducedServer.initial reduced_claims).

(** The frames meant for observers: the participant list and the signal
    that a draw is complete. *)
Definition observer_frame (data : message) : Prop :=
  data = draw_complete \/ exists names entries, data = participants_list names entries.

(** ** What a regular expression matches *)

(** The strings a regular expression matches as a whole. *)
Inductive matches : regex -> string -> Prop :=
| matches_eps : matches re_eps EmptyString
| matches_class p c : p c = true -> matches (re_class p) (String c EmptyString)
| matches_cat r1 r2 s1 s2 :
    matches r1 s1 -> matches r2 s2 -> matches (re_cat r1 r2) (s1 ++ s2)%string
| matches_alt_l r1 r2 s : matches r1 s -> matches (re_alt r1 r2) s
| matches_alt_r r1 r2 s : matches r2 s -> matches (re_alt r1 r2) s
| matches_star_nil r : matches (re_star r) EmptyString
| matches_star_cons r s1 s2 :
    matches r s1 -> matches (re_star r) s2 -> matches (re_star r) (s1 ++ s2)%string.

Fixpoint all_units (p : ascii -> bool) (s : string) : bool :=
  match s with
  | EmptyString => true
  | String c s' => p c && all_units p s'
  end.

(** A part of an address: not empty, without white space and without
    at sign. *)
Definition address_part (s : string) : Prop :=
  s <> EmptyString /\ all_units no_space_no_at s = true.
(** * Verification *)

(** ** Strings *)

Lemma nonempty_true (s : string) : nonempty s = true <-> s <> EmptyString.
Proof. destruct s; simpl; split; intros; congruence. Qed.

Lemma nonempty_false (s : string) : nonempty s = false <-> s = EmptyString.
Proof. destruct s; simpl; split; intros; congruence. Qed.

Lemma lower_unit_idem (c : ascii) : lower_unit (lower_unit c) = lower_unit c.
Proof. destruct c as [[] [] [] [] [] [] [] []]; reflexivity. Qed.

Lemma toLowerCase_idem (s : string) : toLowerCase (toLowerCase s) = toLowerCase s.
Proof. induction s as [|c s IH]; simpl; [reflexivity|]. by rewrite lower_unit_idem, IH. Qed.

Lemma toLowerCase_nonempty (s : string) : nonempty (toLowerCase s) = nonempty s.
Proof. by destruct s. Qed.

Example toLowerCase_mixed : toLowerCase "Alice MEYER-42" = "alice meyer-42".
Proof. reflexivity. Qed.

Example toLowerCase_latin1 :
  toLowerCase (String (ascii_of_N 214) (String (ascii_of_N 215) (String (ascii_of_N 223) "")))
  = String (ascii_of_N 246) (String (ascii_of_N 215) (String (ascii_of_N 223) "")).
Proof. reflexivity. Qed.

Example trim_both_ends :
  trim (String (ascii_of_N 9) "  Bob  " ++ String (ascii_of_N 160) (String CR (String LF "")))%string
  = "Bob".
Proof. reflexivity. Qed.

Example trim_inner_space : trim " Anna  Lena " = "Anna  Lena".
Proof. reflexivity. Qed.

Example split_lines_crlf :
  split_lines ("a" ++ String CR (String LF "b") ++ String LF (String CR "c")
               ++ String CR (String CR (String LF "")))%string
  = ["a"; "b"; String CR (String "c" (String CR "")); ""].
Proof. reflexivity. Qed.

Example split_on_comma : split_on "," "a,,b" = ["a"; ""; "b"].
Proof. reflexivity. Qed.

Example isValidEmail_samples :
  map isValidEmail
      ["alice@example.org"; "a@b.c"; "a.b@c.d.e"; "a@b"; "@b.c"; "a@.c"; "a@b.";
       "a b@c.d"; "a@@b.c"; "a@b@c.d"; ""]
  = [true; true; true; false; false; false; false; false; false; false; false].
Proof. vm_compute. reflexivity. Qed.

Example shuffle_all_zero :
  shuffle (fun _ => 0) 0 ["Alice"; "Bob"; "Carol"] = (["Bob"; "Carol"; "Alice"], 2).
Proof. reflexivity. Qed.

Example shuffle_one_zero :
  shuffle (fun k => 1 - k) 0 ["Alice"; "Bob"; "Carol"] = (["Carol"; "Alice"; "Bob"], 2).
Proof. reflexivity. Qed.

Example shuffle_short : shuffle (fun _ => 0) 5 ["Alice"] = (["Alice"], 5).
Proof. reflexivity. Qed.

(** ** The association lists *)

Section JSMapFacts.
Context {K V : Type} `{EqDecision K}.
Implicit Types (m : list (K * V)).

Lemma Map_get_In k v m : Map_get k m = Some v -> In (k, v) m.
Proof.
  induction m as [|[k' v'] m IH]; simpl; [discriminate|].
  destruct (decide (k = k')) as [->|]; [intros [= ->]; by left | auto].
Qed.

Lemma Map_get_None k m : Map_get k m = None <-> ~ In k (map fst m).
Proof.
  induction m as [|[k' v'] m IH]; simpl; [tauto|].
  destruct (decide (k = k')) as [->|]; [split; [discriminate|tauto]|].
  rewrite IH. split; [intros ? [?|?]; congruence | tauto].
Qed.

Lemma Map_set_fresh k v m : ~ In k (map fst m) -> Map_set k v m = m ++ [(k, v)].
Proof.
  induction m as [|[k' v'] m IH]; simpl; [reflexivity|]. intros Hk.
  destruct (decide (k = k')) as [->|]; [tauto|]. rewrite IH; [reflexivity | tauto].
Qed.

Lemma Map_set_In k v m k0 v0 :
  In (k0, v0) (Map_set k v m) -> (k0, v0) = (k, v) \/ In (k0, v0) m.
Proof.
  induction m as [|[k' v'] m IH]; simpl; [intuition congruence|].
  destruct (decide (k = k')) as [->|]; simpl; [intuition congruence|].
  intros [Hin|Hin]; [tauto|]. destruct (IH Hin); tauto.
Qed.

Lemma Map_get_NoDup k v m : NoDup (map fst m) -> In (k, v) m -> Map_get k m = Some v.
Proof.
  induction m as [|[k' v'] m IH]; simpl; [tauto|]. intros Hnd Hin.
  apply NoDup_cons in Hnd as [Hk Hnd].
  destruct (decide (k = k')) as [->|Hne].
  - destruct Hin as [[= ->]|Hin]; [reflexivity|].
    exfalso. apply Hk, list_elem_of_In, (in_map fst _ _ Hin).
  - destruct Hin as [[=]|Hin]; [congruence | auto].
Qed.
End JSMapFacts.

(** ** The shuffle *)

Lemma swap_Permutation {A} (a : list A) i j : Permutation (swap a i j) a.
Proof.
  unfold swap. destruct (a !! i) as [x|] eqn:Hi; [|reflexivity].
  destruct (a !! j) as [y|] eqn:Hj; [|reflexivity].
  by apply Permutation_insert_swap.
Qed.

Lemma shuffle_loop_Permutation {A} rnd i k (a : list A) :
  Permutation (fst (shuffle_loop rnd i k a)) a.
Proof.
  revert k a. induction i as [|i IH]; intros k a; simpl; [reflexivity|].
  rewrite IH. apply swap_Permutation.
Qed.

Lemma shuffle_loop_counter {A} rnd i k (a : list A) :
  snd (shuffle_loop rnd i k a) = k + i.
Proof.
  revert k a. induction i as [|i IH]; intros k a; simpl; [lia|]. rewrite IH. lia.
Qed.

Lemma shuffle_Permutation {A} rnd k (array : list A) :
  Permutation (fst (shuffle rnd k array)) array.
Proof. apply shuffle_loop_Permutation. Qed.

Lemma shuffle_counter {A} rnd k (array : list A) :
  snd (shuffle rnd k array) = k + (length array - 1).
Proof. apply shuffle_loop_counter. Qed.

(** ** The mapping that is built *)

Lemma build_map_from (names perm : list string) (acc : list (string * string)) :
  NoDup (map fst acc ++ names) ->
  fold_left (fun m p => Map_set (fst p) (snd p) m) (combine names perm) acc
  = acc ++ combine names perm.
Proof.
  revert perm acc. induction names as [|n names IH]; intros perm acc Hnd; simpl.
  { by rewrite app_nil_r. }
  destruct perm as [|q perm]; simpl; [by rewrite app_nil_r|].
  rewrite Map_set_fresh.
  - rewrite IH; [by rewrite <- app_assoc|].
    rewrite map_app; simpl. by rewrite <- app_assoc.
  - apply NoDup_app in Hnd as (_ & Hdisj & _). intros Hin.
    apply (Hdisj n); [by apply list_elem_of_In | left].
Qed.

Lemma build_map_NoDup (names perm : list string) :
  NoDup names -> build_map names perm = combine names perm.
Proof. intros Hnd. unfold build_map. by rewrite build_map_from. Qed.

Lemma build_map_values names perm g r :
  In (g, r) (build_map names perm) -> In (g, r) (combine names perm).
Proof.
  unfold build_map.
  assert (forall l acc, In (g, r) (fold_left (fun m p => Map_set (fst p) (snd p) m) l acc)
                        -> In (g, r) acc \/ In (g, r) l) as Hgen.
  { induction l as [|[n q] l IH]; intros acc; simpl; [tauto|]. intros Hin.
    destruct (IH _ Hin) as [Hin'|Hin']; [|tauto].
    apply Map_set_In in Hin' as [Heq|?]; simpl in *; [|tauto]. right; left; congruence. }
  intros Hin. destruct (Hgen _ _ Hin) as [[]|]; done.
Qed.

(** ** The attempts *)

Lemma attempts_Some rnd bannedSet names fuel k m :
  attempts rnd bannedSet names fuel k = Some m ->
  exists a, a < fuel
    /\ valid_perm bannedSet names (attempt_perm rnd names k a) = true
    /\ m = build_map names (attempt_perm rnd names k a).
Proof.
  revert k. induction fuel as [|fuel IH]; intros k; simpl; [discriminate|].
  destruct (shuffle rnd k names) as [perm k'] eqn:Hs.
  assert (perm = attempt_perm rnd names k 0) as Hperm.
  { unfold attempt_perm. by rewrite Nat.add_0_r, Hs. }
  assert (k' = k + (length names - 1)) as Hk'.
  { by rewrite <- (shuffle_counter rnd k names), Hs. }
  destruct (valid_perm bannedSet names perm) eqn:Hv.
  - intros [= <-]. exists 0. rewrite <- Hperm. repeat split; [lia | done].
  - intros Hm. destruct (IH _ Hm) as (a & Ha & Hva & ->). exists (S a).
    assert (attempt_perm rnd names k (S a) = attempt_perm rnd names k' a) as ->.
    { unfold attempt_perm. f_equal. f_equal. lia. }
    repeat split; [lia | done].
Qed.

Lemma attempts_None rnd bannedSet names fuel k :
  attempts rnd bannedSet names fuel k = None ->
  forall a, a < fuel -> valid_perm bannedSet names (attempt_perm rnd names k a) = false.
Proof.
  revert k. induction fuel as [|fuel IH]; intros k; simpl; [lia|].
  destruct (shuffle rnd k names) as [perm k'] eqn:Hs.
  assert (perm = attempt_perm rnd names k 0) as Hperm.
  { unfold attempt_perm. by rewrite Nat.add_0_r, Hs. }
  assert (k' = k + (length names - 1)) as Hk'.
  { by rewrite <- (shuffle_counter rnd k names), Hs. }
  destruct (valid_perm bannedSet names perm) eqn:Hv; [discriminate|].
  intros Hn [|a] Ha; [by rewrite <- Hperm|].
  assert (attempt_perm rnd names k (S a) = attempt_perm rnd names k' a) as ->.
  { unfold attempt_perm. f_equal. f_equal. lia. }
  apply IH; [done | lia].
Qed.

(** ** The solver *)

Lemma combine_fst {A B} (l : list A) (k : list B) :
  length l = length k -> map fst (combine l k) = l.
Proof.
  revert k. induction l as [|x l IH]; intros [|y k]; simpl; try done.
  intros [= Hlen]. by rewrite IH.
Qed.

Lemma combine_snd {A B} (l : list A) (k : list B) :
  length l = length k -> map snd (combine l k) = k.
Proof.
  revert k. induction l as [|x l IH]; intros [|y k]; simpl; try done.
  intros [= Hlen]. by rewrite IH.
Qed.

Lemma NoDup_snd_inj {A B} (l : list (A * B)) a b r :
  NoDup (map snd l) -> In (a, r) l -> In (b, r) l -> a = b.
Proof.
  induction l as [|[x y] l IH]; simpl; [tauto|]. intros Hnd Ha Hb.
  apply NoDup_cons in Hnd as [Hy Hnd].
  assert (forall c, In (c, y) l -> False) as Hfresh.
  { intros c Hc. apply Hy, list_elem_of_In. apply (in_map snd _ _ Hc). }
  destruct Ha as [Ha|Ha], Hb as [Hb|Hb].
  - congruence.
  - exfalso. apply (Hfresh b). congruence.
  - exfalso. apply (Hfresh a). congruence.
  - eauto.
Qed.

Lemma valid_perm_position bannedSet names perm g r :
  valid_perm bannedSet names perm = true ->
  In (g, r) (combine names perm) -> position_ok bannedSet (g, r) = true.
Proof. unfold valid_perm. rewrite forallb_forall. auto. Qed.

Lemma position_ok_spec bannedSet g r :
  position_ok (Some bannedSet) (g, r) = true <-> g <> r /\ ~ forbidden bannedSet g r.
Proof.
  unfold position_ok, forbidden.
  destruct (bool_decide_reflect (r = g)) as [->|Hne].
  { split; [done | intros [? _]; done]. }
  destruct (bool_decide_reflect
              (pair_key (toLowerCase g) (toLowerCase r) ∈ bannedSet)) as [Hin|Hin].
  - split; [done | tauto].
  - split; [|done]. intros _. split; [congruence | done].
Qed.

(** Said with a comparison that ignores case: the pair equals, up to case,
    a pair whose lowercased key the banned set holds. *)
Lemma forbidden_iff bannedSet g r :
  forbidden bannedSet g r
  <-> exists fg fr,
        pair_key (toLowerCase fg) (toLowerCase fr) ∈ bannedSet
        /\ toLowerCase g = toLowerCase fg /\ toLowerCase r = toLowerCase fr.
Proof.
  unfold forbidden. split.
  - intros Hin. by exists g, r.
  - intros (fg & fr & Hin & -> & ->). done.
Qed.

(** A permutation of pairwise distinct names, zipped with them, is a
    bijection of the names. *)
Lemma combine_bijection names perm :
  NoDup names -> Permutation perm names -> bijection_on names (combine names perm).
Proof.
  intros Hnd Hperm.
  assert (length names = length perm) as Hlen by (by rewrite Hperm).
  assert (NoDup perm) as Hndp by (by rewrite Hperm).
  assert (forall g r, Map_get g (combine names perm) = Some r
                      <-> In (g, r) (combine names perm)) as Hget.
  { intros g r. split; [apply Map_get_In|].
    apply Map_get_NoDup. by rewrite combine_fst. }
  repeat split.
  - intros Hg. rewrite <- (combine_fst names perm Hlen) in Hg.
    apply in_map_iff in Hg as ([g' r] & <- & Hin). exists r. by apply Hget.
  - intros [r Hr]. apply Hget in Hr. by apply in_combine_l in Hr.
  - intros g r Hr. apply Hget, in_combine_r in Hr.
    apply list_elem_of_In. rewrite <- Hperm. by apply list_elem_of_In.
  - intros g1 g2 r H1 H2. apply Hget in H1, H2.
    eapply NoDup_snd_inj; [|done..]. by rewrite combine_snd.
  - intros r Hr. apply list_elem_of_In in Hr. rewrite <- Hperm in Hr.
    apply list_elem_of_In in Hr. rewrite <- (combine_snd names perm Hlen) in Hr.
    apply in_map_iff in Hr as ([g r'] & <- & Hin). exists g. by apply Hget.
Qed.

(** C2. For pairwise distinct names and any banned set: fewer than two
    names give no solution; a returned mapping is a bijection of the names
    without fixed point and without forbidden pair (names compared in
    lower case); and no solution for two or more names means that each of
    the 1000 shuffles was rejected. *)
Theorem createDerangement_sound rnd (names : list string) (bannedSet : gset string) :
  NoDup names ->
  (length names < 2 -> createDerangement rnd names (Some bannedSet) = None)
  /\ (forall m, createDerangement rnd names (Some bannedSet) = Some m ->
        2 <= length names
        /\ bijection_on names m
        /\ fixed_point_free m
        /\ (forall g r, Map_get g m = Some r -> ~ forbidden bannedSet g r))
  /\ (2 <= length names -> createDerangement rnd names (Some bannedSet) = None ->
        forall a, a < 1000 ->
          Permutation (attempt_perm rnd names 0 a) names
          /\ valid_perm (Some bannedSet) names (attempt_perm rnd names 0 a) = false).
Proof.
  intros Hnd. unfold createDerangement.
  destruct (length names <? 2) eqn:Hlen.
  - apply Nat.ltb_lt in Hlen. repeat split; try done; lia.
  - apply Nat.ltb_ge in Hlen. split; [lia|]. split.
    + intros m Hm. apply attempts_Some in Hm as (a & _ & Hv & ->).
      rewrite build_map_NoDup by done.
      split; [done|].
      split; [apply combine_bijection; [done | apply shuffle_Permutation]|].
      split; intros g r Hget%Map_get_In;
        eapply valid_perm_position, position_ok_spec in Hv; [|done| |done]; tauto.
    + intros _ Hn a Ha.
      split; [apply shuffle_Permutation | by eapply attempts_None].
Qed.

Lemma createDerangement_sound_witness :
  let names := ["Alice"; "Bob"; "Carol"] in
  let bannedSet : gset string := {[ "alice|carol" ]} in
  createDerangement (fun _ => 0) names (Some bannedSet)
    = Some [("Alice", "Bob"); ("Bob", "Carol"); ("Carol", "Alice")]
  /\ bijection_on names [("Alice", "Bob"); ("Bob", "Carol"); ("Carol", "Alice")].
Proof.
  intros names bannedSet.
  assert (NoDup names) as Hnd by (apply (bool_decide_unpack _); vm_compute; exact I).
  assert (createDerangement (fun _ => 0) names (Some bannedSet)
          = Some [("Alice", "Bob"); ("Bob", "Carol"); ("Carol", "Alice")]) as Hrun
    by (vm_compute; reflexivity).
  split; [exact Hrun|].
  exact (proj1 (proj2 (proj1 (proj2 (createDerangement_sound (fun _ => 0) names bannedSet Hnd)) _ Hrun))).
Defined.

(** C8. For the two names Alice and Bob and an empty banned set, a mapping
    that is returned is the mutual swap. *)
Theorem two_names_swap rnd m :
  createDerangement rnd ["Alice"; "Bob"] (Some ∅) = Some m ->
  m = [("Alice", "Bob"); ("Bob", "Alice")].
Proof.
  unfold createDerangement. cbn [length Nat.ltb Nat.leb].
  intros Hm. apply attempts_Some in Hm as (a & _ & Hv & ->).
  unfold attempt_perm, shuffle in *. cbn [length Nat.sub shuffle_loop fst] in *.
  remember (random_index rnd (0 + a * 1) (1 + 1)) as j eqn:Hj.
  assert (j < 2) as Hlt.
  { subst j. unfold random_index. apply Nat.mod_upper_bound. lia. }
  destruct j as [|[|j]]; [reflexivity | | lia].
  vm_compute in Hv. discriminate.
Qed.

Lemma two_names_swap_witness :
  createDerangement (fun _ => 0) ["Alice"; "Bob"] (Some ∅)
    = Some [("Alice", "Bob"); ("Bob", "Alice")]
  /\ [("Alice", "Bob"); ("Bob", "Alice")] = [("Alice", "Bob"); ("Bob", "Alice")].
Proof.
  assert (createDerangement (fun _ => 0) ["Alice"; "Bob"] (Some ∅)
          = Some [("Alice", "Bob"); ("Bob", "Alice")]) as Hrun
    by (vm_compute; reflexivity).
  split; [exact Hrun | exact (two_names_swap _ _ Hrun)].
Defined.

Lemma position_ok_empty p : position_ok (Some ∅) p = Reduced.position_ok p.
Proof.
  destruct p as [n q]. unfold position_ok, Reduced.position_ok.
  destruct (bool_decide (q = n)); [reflexivity|].
  destruct (bool_decide_reflect
              (pair_key (toLowerCase n) (toLowerCase q) ∈ (∅ : gset string)))
    as [Hin|_]; [|reflexivity].
  by apply not_elem_of_empty in Hin.
Qed.

Lemma valid_perm_empty names perm :
  valid_perm (Some ∅) names perm = Reduced.valid_perm names perm.
Proof.
  unfold valid_perm, Reduced.valid_perm.
  induction (combine names perm) as [|p l IH]; simpl; [reflexivity|].
  by rewrite position_ok_empty, IH.
Qed.

Lemma valid_perm_undefined names perm :
  valid_perm None names perm = Reduced.valid_perm names perm.
Proof.
  unfold valid_perm, Reduced.valid_perm.
  induction (combine names perm) as [|[n q] l IH]; simpl; [reflexivity|].
  by rewrite IH.
Qed.

Lemma attempts_reduced rnd bannedSet names fuel k :
  (forall perm, valid_perm bannedSet names perm = Reduced.valid_perm names perm) ->
  attempts rnd bannedSet names fuel k = Reduced.attempts rnd names fuel k.
Proof.
  intros Hv. revert k. induction fuel as [|fuel IH]; intros k; simpl; [reflexivity|].
  destruct (shuffle rnd k names) as [perm k']. rewrite Hv.
  destruct (Reduced.valid_perm names perm); [reflexivity | apply IH].
Qed.

(** C10. On the same names and the same random choices the solver of the
    reduced deployment accepts the same permutations and returns the same
    result as the solver of the full deployment run with an empty banned
    set (or with none at all). *)
Theorem reduced_solver_equivalent rnd names :
  (forall perm, Reduced.valid_perm names perm = valid_perm (Some ∅) names perm)
  /\ Reduced.createDerangement rnd names = createDerangement rnd names (Some ∅)
  /\ Reduced.createDerangement rnd names = createDerangement rnd names None.
Proof.
  split; [intros perm; symmetry; apply valid_perm_empty|].
  unfold Reduced.createDerangement, createDerangement.
  destruct (length names <? 2); [done|].
  split; symmetry; apply attempts_reduced; intros perm;
    [apply valid_perm_empty | apply valid_perm_undefined].
Qed.

(** ** The constraint file *)

Lemma trim_keeps_first c s : is_space c = false -> startsWith (trim (String c s)) c = true.
Proof.
  intros Hc. unfold trim. simpl. rewrite Hc. simpl.
  destruct (trimEnd s); [rewrite Hc|]; simpl; by apply bool_decide_eq_true.
Qed.

Lemma constraint_line_blank pairs line :
  trim line = EmptyString -> constraint_line pairs line = pairs.
Proof. intros Hb. unfold constraint_line. by rewrite Hb. Qed.

Lemma constraint_line_comment pairs line :
  startsWith (trim line) "#" = true -> constraint_line pairs line = pairs.
Proof. intros Hc. unfold constraint_line. rewrite Hc. by rewrite orb_true_r. Qed.

Lemma constraint_line_fields pairs line :
  trim line <> EmptyString -> startsWith (trim line) "#" = false ->
  constraint_line pairs line =
    match split_on "," (trim line) with
    | [a; b] =>
        if nonempty (trim a) && nonempty (trim b)
        then pairs ++ [(toLowerCase (trim a), toLowerCase (trim b))] else pairs
    | _ => pairs
    end.
Proof.
  intros Hb%nonempty_true Hc. unfold constraint_line. rewrite Hb, Hc. simpl.
  destruct (split_on "," (trim line)) as [|a [|b [|c l]]]; simpl; try reflexivity.
  by destruct (nonempty (trim a)), (nonempty (trim b)).
Qed.

Lemma constraint_line_In pairs line g r :
  In (g, r) (constraint_line pairs line) <-> In (g, r) pairs \/ line_gives line g r.
Proof.
  destruct (trim line) as [|c t] eqn:Ht.
  { rewrite constraint_line_blank by done. split; [tauto|].
    intros [?|(a & b & Hne & _)]; [done | congruence]. }
  destruct (startsWith (trim line) "#") eqn:Hc.
  { rewrite constraint_line_comment by done. split; [tauto|].
    intros [?|(a & b & _ & Hc' & _)]; [done | congruence]. }
  rewrite constraint_line_fields by (done || congruence).
  unfold line_gives. rewrite Ht in *.
  destruct (split_on "," (String c t)) as [|a [|b [|c' l]]] eqn:Hs;
    try (split; [tauto | intros [?|(a' & b' & _ & _ & [=] & _)]; done]).
  destruct (nonempty (trim a)) eqn:Ha, (nonempty (trim b)) eqn:Hb; simpl.
  - rewrite in_app_iff. simpl. split.
    + intros [?|[[= <- <-]|[]]]; [tauto|]. right. exists a, b.
      apply nonempty_true in Ha, Hb. done.
    + intros [?|(a' & b' & _ & _ & [= <- <-] & _ & _ & -> & ->)]; tauto.
  - apply nonempty_false in Hb. split; [tauto|].
    intros [?|(a' & b' & _ & _ & [= <- <-] & _ & Hb' & _)]; done.
  - apply nonempty_false in Ha. split; [tauto|].
    intros [?|(a' & b' & _ & _ & [= <- <-] & Ha' & _)]; done.
  - apply nonempty_false in Ha. split; [tauto|].
    intros [?|(a' & b' & _ & _ & [= <- <-] & Ha' & _)]; done.
Qed.

Lemma constraint_lines_In lines pairs g r :
  In (g, r) (fold_left constraint_line lines pairs)
  <-> In (g, r) pairs \/ exists line, In line lines /\ line_gives line g r.
Proof.
  revert pairs. induction lines as [|line lines IH]; intros pairs; simpl.
  { split; [tauto | intros [?|(? & [] & _)]; done]. }
  rewrite IH, constraint_line_In. split.
  - intros [[?|?]|(l & ? & ?)]; eauto 6.
  - intros [?|(l & [<-|?] & ?)]; eauto 6.
Qed.

Lemma buildBannedSet_from pairs (set : gset string) key :
  key ∈ fold_left (fun set p => {[ pair_key (fst p) (snd p) ]} ∪ set) pairs set
  <-> key ∈ set \/ exists g r, In (g, r) pairs /\ key = pair_key g r.
Proof.
  revert set. induction pairs as [|[g r] pairs IH]; intros set; simpl.
  { split; [tauto | intros [?|(? & ? & [] & _)]; done]. }
  rewrite IH, elem_of_union, elem_of_singleton. simpl. split.
  - intros [[->|?]|(g' & r' & ? & ?)]; eauto 8.
  - intros [?|(g' & r' & [[= <- <-]|?] & ?)]; eauto 8.
Qed.

(** [split] cuts at every separator and nowhere else: the pieces joined by
    the separator are the string, and no piece holds the separator. *)
Lemma split_on_pieces sep s : exists piece rest, split_on sep s = piece :: rest.
Proof.
  induction s as [|c s (piece & rest & IH)]; simpl; [by eexists _, _|].
  destruct (bool_decide (c = sep)); [by eexists _, _|].
  rewrite IH. simpl. by eexists _, _.
Qed.

Lemma split_on_join sep s : join sep (split_on sep s) = s.
Proof.
  induction s as [|c s IH]; [reflexivity|]. simpl.
  destruct (split_on_pieces sep s) as (piece & rest & Hs). rewrite Hs in *.
  destruct (bool_decide (c = sep)) eqn:Hc.
  - apply bool_decide_eq_true in Hc as ->.
    change (String sep (join sep (piece :: rest)) = String sep s). by rewrite IH.
  - cbn [prepend]. destruct rest as [|piece' rest].
    + simpl in *. by rewrite IH.
    + change (String c (join sep (piece :: piece' :: rest)) = String c s).
      by rewrite IH.
Qed.

Lemma split_on_no_sep sep s :
  Forall (fun piece => has_unit sep piece = false) (split_on sep s).
Proof.
  induction s as [|c s IH]; simpl; [by constructor|].
  destruct (bool_decide (c = sep)) eqn:Hc; [by constructor|].
  destruct (split_on_pieces sep s) as (piece & rest & Hs). rewrite Hs in *.
  simpl. inversion IH as [|? ? Hp Hrest]; subst. constructor; [|done].
  simpl. by rewrite Hc.
Qed.

Lemma drop_crs_prepend c pieces :
  c <> CR \/ (exists piece rest, pieces = piece :: rest /\ piece <> EmptyString)
    \/ length pieces <= 1 ->
  drop_crs (prepend c pieces) = prepend c (drop_crs pieces).
Proof.
  destruct pieces as [|piece [|piece' rest]]; [done..|].
  intros Hc. cbn [prepend drop_crs]. f_equal.
  destruct piece as [|c' piece]; [|reflexivity].
  simpl. destruct Hc as [Hc|[(? & ? & [= <- <-] & ?)|Hc]]; [|done|simpl in Hc; lia].
  by rewrite bool_decide_eq_false_2.
Qed.

(** The lines are the pieces between line feeds, each but the last without
    the carriage return at its end. *)
Lemma split_lines_pieces s : split_lines s = drop_crs (split_on LF s).
Proof.
  enough (split_lines s = drop_crs (split_on LF s)
          /\ forall c, split_lines (String c s) = drop_crs (split_on LF (String c s)))
    as [? _] by done.
  induction s as [|c' s [IH1 IH2]].
  { split; [reflexivity|]. intros c. simpl. by destruct (bool_decide (c = LF)). }
  split; [apply IH2|]. intros c.
  change (split_lines (String c (String c' s)))
    with (if bool_decide (c = LF) then EmptyString :: split_lines (String c' s)
          else if bool_decide (c = CR) && bool_decide (c' = LF)
               then EmptyString :: split_lines s
               else prepend c (split_lines (String c' s))).
  change (split_on LF (String c (String c' s)))
    with (if bool_decide (c = LF) then EmptyString :: split_on LF (String c' s)
          else prepend c (split_on LF (String c' s))).
  destruct (split_on_pieces LF (String c' s)) as (piece & rest & Hs).
  destruct (bool_decide (c = LF)) eqn:Hlf.
  { rewrite IH2, Hs. reflexivity. }
  destruct (bool_decide (c = CR)) eqn:Hcr; cbn [andb].
  - apply bool_decide_eq_true in Hcr as ->.
    destruct (bool_decide (c' = LF)) eqn:Hlf'.
    + apply bool_decide_eq_true in Hlf' as ->. simpl.
      destruct (split_on_pieces LF s) as (piece' & rest' & Hs').
      rewrite IH1, Hs'. reflexivity.
    + rewrite IH2, drop_crs_prepend; [done|]. right. left.
      simpl. rewrite Hlf'. destruct (split_on_pieces LF s) as (piece' & rest' & ->).
      by eexists _, _.
  - rewrite IH2, drop_crs_prepend; [done|]. left. by apply bool_decide_eq_false in Hcr.
Qed.

(** C6. A missing file gives no constraint.  Of a file that is there, a
    blank line and a line that starts with the comment marker give nothing;
    any other line is split at the commas, gives nothing unless there are
    exactly two fields and both are not blank, and otherwise gives the pair
    of its trimmed, lowercased fields.  The pairs read are those given by
    the lines, they are in lower case, and the banned set holds their keys.
    The lines are the pieces of the text between line feeds, a carriage
    return right before the line feed left out; the fields are the pieces
    of the trimmed line between commas: joined by the separator the pieces
    give the string back, and no piece holds the separator. *)
Theorem constraint_loading :
  readConstraintsFile None = [] /\ buildBannedSet None = ∅
  /\ (forall pairs line,
        (trim line = EmptyString -> constraint_line pairs line = pairs)
        /\ (startsWith line "#" = true \/ startsWith (trim line) "#" = true ->
            constraint_line pairs line = pairs)
        /\ (trim line <> EmptyString -> startsWith (trim line) "#" = false ->
            (length (split_on "," (trim line)) <> 2 ->
               constraint_line pairs line = pairs)
            /\ (forall a b, split_on "," (trim line) = [a; b] ->
                  (trim a = EmptyString \/ trim b = EmptyString ->
                     constraint_line pairs line = pairs)
                  /\ (trim a <> EmptyString -> trim b <> EmptyString ->
                        constraint_line pairs line
                        = pairs ++ [(toLowerCase (trim a), toLowerCase (trim b))]))))
  /\ (forall raw g r,
        In (g, r) (readConstraintsFile (Some raw))
        <-> exists line, In line (split_lines raw) /\ line_gives line g r)
  /\ (forall file g r,
        In (g, r) (readConstraintsFile file) -> toLowerCase g = g /\ toLowerCase r = r)
  /\ (forall file key,
        key ∈ buildBannedSet file
        <-> exists g r, In (g, r) (readConstraintsFile file) /\ key = pair_key g r)
  /\ (forall raw,
        readConstraintsFile (Some raw) = fold_left constraint_line (split_lines raw) []
        /\ split_lines raw = drop_crs (split_on LF raw))
  /\ (forall sep s,
        join sep (split_on sep s) = s
        /\ Forall (fun piece => has_unit sep piece = false) (split_on sep s)).
Proof.
  assert (forall raw g r,
            In (g, r) (readConstraintsFile (Some raw))
            <-> exists line, In line (split_lines raw) /\ line_gives line g r) as Hread.
  { intros raw g r. unfold readConstraintsFile. rewrite constraint_lines_In.
    simpl. tauto. }
  split; [reflexivity|]. split; [reflexivity|].
  split; [|split; [exact Hread|split; [|split; [|split]]]].
  - intros pairs line. split; [apply constraint_line_blank|]. split.
    + intros [Hc|Hc]; [|by apply constraint_line_comment].
      destruct line as [|c s]; [discriminate|]. simpl in Hc.
      apply bool_decide_eq_true in Hc as ->.
      apply constraint_line_comment, trim_keeps_first. reflexivity.
    + intros Hb Hc. rewrite constraint_line_fields by done. split.
      * by destruct (split_on "," (trim line)) as [|a [|b [|c l]]].
      * intros a b ->. split.
        -- intros [->%nonempty_false | ->%nonempty_false]; [done|].
           by rewrite andb_false_r.
        -- by intros ->%nonempty_true ->%nonempty_true.
  - intros [raw|] g r; [|done].
    intros (line & _ & a & b & _ & _ & _ & _ & _ & -> & ->)%Hread.
    by rewrite !toLowerCase_idem.
  - intros file key. unfold buildBannedSet. rewrite buildBannedSet_from.
    split; [intros [Hin|?]; [by apply not_elem_of_empty in Hin | done] | tauto].
  - intros raw. split; [reflexivity | apply split_lines_pieces].
  - intros sep s. split; [apply split_on_join | apply split_on_no_sep].
Qed.

(** The file of three lines below, the first ended by a carriage return and
    a line feed: the comment gives nothing, the second line the pair
    (alice, bob), the line of three fields nothing. *)
Lemma constraint_loading_witness :
  split_lines three_lines = ["# nobody"; " Alice , BOB "; "a,b,c"]
  /\ split_on "," "Alice , BOB" = ["Alice "; " BOB"]
  /\ constraint_line [] "# nobody" = []
  /\ constraint_line [] " Alice , BOB " = [("alice", "bob")]
  /\ constraint_line [("alice", "bob")] "a,b,c" = [("alice", "bob")]
  /\ constraint_line [("alice", "bob")] " , Bob" = [("alice", "bob")]
  /\ readConstraintsFile (Some three_lines) = [("alice", "bob")]
  /\ In ("alice", "bob") (readConstraintsFile (Some three_lines))
  /\ buildBannedSet (Some three_lines) = {[ pair_key "alice" "bob" ]}.
Proof.
  destruct constraint_loading
    as (_ & _ & Hline & Hread & _ & Hkeys & Hlines & Hsplit).
  assert (split_lines three_lines = ["# nobody"; " Alice , BOB "; "a,b,c"]) as Hraw.
  { rewrite (proj2 (Hlines three_lines)). reflexivity. }
  assert (split_on "," "Alice , BOB" = ["Alice "; " BOB"]) as Hfields.
  { reflexivity. }
  assert (constraint_line [] "# nobody" = []) as H1.
  { destruct (Hline [] "# nobody") as (_ & Hcomment & _).
    apply Hcomment. left. reflexivity. }
  assert (constraint_line [] " Alice , BOB " = [("alice", "bob")]) as H2.
  { destruct (Hline [] " Alice , BOB ") as (_ & _ & Hother).
    destruct Hother as [_ Htwo]; [discriminate | reflexivity |].
    destruct (Htwo "Alice " " BOB" Hfields) as [_ Hpair].
    apply Hpair; discriminate. }
  assert (constraint_line [("alice", "bob")] "a,b,c" = [("alice", "bob")]) as H3.
  { destruct (Hline [("alice", "bob")] "a,b,c") as (_ & _ & Hother).
    destruct Hother as [Hcount _]; [discriminate | reflexivity |].
    apply Hcount. vm_compute. lia. }
  assert (constraint_line [("alice", "bob")] " , Bob" = [("alice", "bob")]) as H4.
  { destruct (Hline [("alice", "bob")] " , Bob") as (_ & _ & Hother).
    destruct Hother as [_ Htwo]; [discriminate | reflexivity |].
    destruct (Htwo "" " Bob") as [Hblank _]; [reflexivity|].
    apply Hblank. left. reflexivity. }
  assert (readConstraintsFile (Some three_lines) = [("alice", "bob")]) as H5.
  { rewrite (proj1 (Hlines three_lines)), Hraw. cbn [fold_left]. by rewrite H1, H2, H3. }
  split; [exact Hraw|]. split; [exact Hfields|]. split; [exact H1|].
  split; [exact H2|]. split; [exact H3|]. split; [exact H4|]. split; [exact H5|].
  split.
  - apply Hread. exists " Alice , BOB ". split; [rewrite Hraw; simpl; tauto|].
    exists "Alice ", " BOB". by vm_compute.
  - apply set_eq. intros key. rewrite Hkeys, H5, elem_of_singleton. split.
    + by intros (g & r & [[= <- <-]|[]] & ->).
    + intros ->. exists "alice", "bob". simpl. tauto.
Defined.

(** A pair whose lowercased names are a pair read from the file is
    forbidden for the banned set built from that file. *)
Lemma forbidden_of_constraint file g r :
  In (toLowerCase g, toLowerCase r) (readConstraintsFile file) ->
  forbidden (buildBannedSet file) g r.
Proof.
  intros Hin. unfold forbidden, buildBannedSet. apply buildBannedSet_from.
  right. by exists (toLowerCase g), (toLowerCase r).
Qed.

(** Alice must not give to Bob.  A generator that always picks index 0
    shuffles to Bob, Carol, Alice a thousand times and the solver gives up;
    another one gets through at once. *)
Example forbidden_exhausts :
  createDerangement (fun _ => 0) ["Alice"; "Bob"; "Carol"]
    (Some (buildBannedSet (Some "alice , BOB")))
  = None.
Proof. vm_compute. reflexivity. Qed.

Example forbidden_avoided :
  createDerangement (fun k => 1 - k) ["Alice"; "Bob"; "Carol"]
    (Some (buildBannedSet (Some "alice , BOB")))
  = Some [("Alice", "Carol"); ("Bob", "Alice"); ("Carol", "Bob")].
Proof. vm_compute. reflexivity. Qed.

Example readConstraintsFile_sample :
  readConstraintsFile (Some "# GEBER, EMPFAENGER
Alice, Bob

  Bob ,ALICE
no comma here
a,b,c
 , x
   # indented comment")
  = [("alice", "bob"); ("bob", "alice")].
Proof. vm_compute. reflexivity. Qed.

(** ** Name claims *)

Lemma send_only_to st ws data : only_to ws data (send st ws data).
Proof.
  unfold only_to, send. destruct (bool_decide (ws ∈ opened st)); simpl; [|tauto].
  intros eff [<-|[]]. reflexivity.
Qed.

Lemma send_open st ws data : ws ∈ opened st -> send st ws data = [Sent ws data].
Proof. intros Hin. unfold send. by rewrite bool_decide_eq_true_2. Qed.

Lemma isNameTaken_spec name st :
  isNameTaken name st = true <-> held_live st name \/ held_undrawn st name.
Proof.
  unfold isNameTaken, held_live, held_undrawn.
  rewrite orb_true_iff, !existsb_exists. split.
  - intros [([sock info] & Hin & Hp)|([sid s] & Hin & Hp)]; simpl in Hp.
    + left. destruct (Participant.name info) as [n|] eqn:Hn; [|done].
      apply andb_true_iff in Hp as [Hne%nonempty_true Heq%bool_decide_eq_true].
      by exists sock, info, n.
    + right. apply andb_true_iff in Hp as [Hp Ht%negb_true_iff].
      apply andb_true_iff in Hp as [Hne%nonempty_true Heq%bool_decide_eq_true].
      by exists sid, s.
  - intros [(sock & info & n & Hin & Hn & Hne & Heq)|(sid & s & Hin & Hne & Ht & Heq)].
    + left. exists (sock, info). split; [done|]. simpl. rewrite Hn.
      apply nonempty_true in Hne. rewrite Hne. by apply bool_decide_eq_true.
    + right. exists (sid, s). split; [done|]. simpl.
      apply nonempty_true in Hne. rewrite Hne, Ht. simpl.
      rewrite andb_true_r. by apply bool_decide_eq_true.
Qed.

Section ClaimFacts.
Context `{Collator}.

Lemma handle_remove_name_other role data st :
  has_type data "remove_name" = false -> handle_remove_name role data st = (st, []).
Proof.
  intros Hty. unfold handle_remove_name. rewrite Hty.
  by destruct role, (Data.name data).
Qed.

Lemma handle_start_draw_other role ws data file rnd st :
  has_type data "start_draw" = false ->
  handle_start_draw role ws data file rnd st = (st, []).
Proof. intros Hty. unfold handle_start_draw. rewrite Hty. by destruct role. Qed.

(** What the handler does with a [set_name] frame whose [name] and [email]
    are strings, check by check. *)
Lemma on_message_set_name role ws name email file rnd st :
  on_message role ws (set_name_frame name email) file rnd st =
    if negb (nonempty (trim name)) then (st, send st ws (error NameEmpty))
    else if 40 <? String.length (trim name) then (st, send st ws (error NameTooLong))
    else if negb (nonempty (trim email)) then (st, send st ws (error EmailEmpty))
    else if negb (isValidEmail (trim email)) then (st, send st ws (error EmailInvalid))
    else if isNameTaken (trim name) st then (st, send st ws (error NameTaken))
    else
      match Map_get ws (participants st) with
      | None => (st, send st ws (error InvalidAction))
      | Some info =>
          let sessionId := Participant.sessionId info in
          let record :=
            Session.mk (trim name) (trim email)
              (match Map_get sessionId (sessions st) with
               | Some session => Session.target session
               | None => None
               end) in
          let st' :=
            with_sessions
              (with_participants st
                 (Map_set ws (Participant.mk (Some (trim name)) (Some (trim email)) sessionId)
                    (participants st)))
              (Map_set sessionId record (sessions st)) in
          (st', send st' ws (name_ok (trim name) (Some sessionId))
                ++ broadcastParticipantsUpdate st')
      end.
Proof.
  unfold on_message, set_name_frame, handle_set_name.
  cbn [Data.name Data.email].
  change (has_type _ "set_name") with true. cbv iota.
  destruct (negb (nonempty (trim name))); [reflexivity|].
  destruct (40 <? String.length (trim name)); [reflexivity|].
  destruct (negb (nonempty (trim email))); [reflexivity|].
  destruct (negb (isValidEmail (trim email))); [reflexivity|].
  destruct (isNameTaken (trim name) st); [reflexivity|].
  destruct (Map_get ws (participants st)) as [info|]; [|reflexivity].
  rewrite handle_remove_name_other, handle_start_draw_other by reflexivity.
  rewrite !app_nil_r.
  by destruct (Map_get (Participant.sessionId info) (sessions st)).
Qed.

Lemma held_name_nonempty st name :
  held_live st name \/ held_undrawn st name -> nonempty name = true.
Proof.
  assert (forall n, n <> EmptyString -> toLowerCase n = toLowerCase name ->
                    nonempty name = true) as Hne.
  { intros n Hn%nonempty_true Heq.
    by rewrite <- toLowerCase_nonempty, <- Heq, toLowerCase_nonempty. }
  intros [(? & ? & n & _ & _ & ? & ?)|(? & s & _ & ? & _ & ?)]; eauto.
Qed.

(** A claim that fails a check is answered by the error of the first check
    it fails, and nothing else happens. *)
Lemma set_name_rejection role ws name email file rnd st :
  trim name = EmptyString \/ 40 < String.length (trim name)
  \/ trim email = EmptyString \/ isValidEmail (trim email) = false
  \/ held_live st (trim name) \/ held_undrawn st (trim name) ->
  exists e,
    validation_error e
    /\ on_message role ws (set_name_frame name email) file rnd st
       = (st, send st ws (error e))
    /\ (e = NameEmpty -> trim name = EmptyString)
    /\ (trim name <> EmptyString -> String.length (trim name) <= 40 ->
        isValidEmail (trim email) = true -> e = NameTaken).
Proof.
  intros Hrej. rewrite on_message_set_name. unfold validation_error.
  destruct (nonempty (trim name)) eqn:Hn; simpl.
  2: { apply nonempty_false in Hn. exists NameEmpty.
       split; [tauto|]. split; [done|]. split; [done|]. congruence. }
  destruct (40 <? String.length (trim name)) eqn:Hlen.
  { apply Nat.ltb_lt in Hlen. exists NameTooLong.
    split; [tauto|]. split; [done|]. split; [done|]. lia. }
  destruct (nonempty (trim email)) eqn:Hm; simpl.
  2: { apply nonempty_false in Hm. exists EmailEmpty.
       split; [tauto|]. split; [done|]. split; [done|].
       rewrite Hm. intros _ _. by vm_compute. }
  destruct (isValidEmail (trim email)) eqn:Hv; simpl.
  2: { exists EmailInvalid. split; [tauto|]. split; [done|]. split; [done|]. congruence. }
  destruct (isNameTaken (trim name) st) eqn:Ht.
  { exists NameTaken. split; [tauto|]. done. }
  exfalso. apply nonempty_true in Hn, Hm. apply Nat.ltb_ge in Hlen.
  assert (~ (held_live st (trim name) \/ held_undrawn st (trim name))) as Hfree.
  { rewrite <- isNameTaken_spec. congruence. }
  destruct Hrej as [?|[?|[?|[?|?]]]]; try done; try lia; tauto.
Qed.

(** C7. A name claim that is rejected by a validation check (empty name,
    more than 40 code units, empty or malformed address, name in use by a
    live connection or by an undrawn record) leaves the whole state as it
    was, and all it writes is one error frame to the claiming socket. *)
Theorem rejected_claim_changes_nothing role ws name email file rnd st :
  trim name = EmptyString \/ 40 < String.length (trim name)
  \/ trim email = EmptyString \/ isValidEmail (trim email) = false
  \/ held_live st (trim name) \/ held_undrawn st (trim name) ->
  exists e out,
    validation_error e
    /\ on_message role ws (set_name_frame name email) file rnd st = (st, out)
    /\ only_to ws (error e) out
    /\ (ws ∈ opened st -> out = [Sent ws (error e)]).
Proof.
  intros (e & He & Hrun & _)%(set_name_rejection role ws name email file rnd).
  exists e, (send st ws (error e)).
  split; [done|]. split; [done|]. split; [apply send_only_to | apply send_open].
Qed.

(** C4. A name claim whose trimmed name is, in lower case, the name held
    by a live connection or by a session record without target is answered
    by an error frame and changes nothing; when the claim passes the other
    checks the error is the one for a name in use. *)
Theorem duplicate_name_rejected role ws name email file rnd st :
  held_live st (trim name) \/ held_undrawn st (trim name) ->
  exists e out,
    validation_error e /\ e <> NameEmpty
    /\ on_message role ws (set_name_frame name email) file rnd st = (st, out)
    /\ only_to ws (error e) out
    /\ (ws ∈ opened st -> out = [Sent ws (error e)])
    /\ (String.length (trim name) <= 40 -> isValidEmail (trim email) = true ->
        e = NameTaken).
Proof.
  intros Hheld.
  assert (trim name <> EmptyString) as Hne.
  { by apply nonempty_true, (held_name_nonempty st). }
  destruct (set_name_rejection role ws name email file rnd st)
    as (e & He & Hrun & Hempty & Hwhich); [tauto|].
  exists e, (send st ws (error e)).
  split; [done|]. split; [by intros ?%Hempty|]. split; [done|].
  split; [apply send_only_to|]. split; [apply send_open | auto].
Qed.
End ClaimFacts.

(** ** Privileged commands *)

Lemma handle_set_name_other `{Collator} ws data st :
  has_type data "set_name" = false -> handle_set_name ws data st = (st, [], false).
Proof.
  intros Hty. unfold handle_set_name. rewrite Hty.
  by destruct (Data.name data), (Data.email data).
Qed.

Lemma has_type_of data ty ty' :
  Data.type data = Some ty -> has_type data ty' = bool_decide (ty = ty').
Proof.
  intros Hty. unfold has_type. rewrite Hty.
  destruct (bool_decide_reflect (ty = ty')) as [->|Hne].
  - by apply bool_decide_eq_true.
  - apply bool_decide_eq_false. congruence.
Qed.

Lemma Map_get_map_values {K V} `{EqDecision K} (c : V -> bool) (f : V -> V)
    (k : K) (m : list (K * V)) :
  Map_get k (map (fun p => if c (snd p) then (fst p, f (snd p)) else p) m)
  = match Map_get k m with
    | Some v => Some (if c v then f v else v)
    | None => None
    end.
Proof.
  induction m as [|[k' v] m IH]; simpl; [reflexivity|].
  destruct (c v) eqn:Hc; simpl; destruct (decide (k = k')); rewrite ?Hc; done.
Qed.

Lemma map_unchanged {A} (c : A -> bool) (f : A -> A) (l : list A) :
  (forall x, In x l -> c x = false) -> map (fun x => if c x then f x else x) l = l.
Proof.
  induction l as [|x l IH]; simpl; [reflexivity|]. intros Hc.
  rewrite (Hc x) by tauto. rewrite IH; [reflexivity | auto].
Qed.

Lemma filter_unchanged {A} (c : A -> bool) (l : list A) :
  (forall x, In x l -> c x = true) -> List.filter c l = l.
Proof.
  induction l as [|x l IH]; simpl; [reflexivity|]. intros Hc.
  rewrite (Hc x) by tauto. rewrite IH; [reflexivity | auto].
Qed.

Section CommandFacts.
Context `{Collator}.

(** C9. A [remove_name] or [start_draw] frame on a connection whose role
    is not master changes nothing and writes nothing. *)
Theorem privileged_commands_need_master ws data file rnd st :
  Data.type data = Some "remove_name" \/ Data.type data = Some "start_draw" ->
  on_message participant ws (Some data) file rnd st = (st, [])
  /\ (role_of st ws = Some participant ->
      handle st (Receive ws (Some data) file rnd) = (st, [])).
Proof.
  intros Hty.
  assert (on_message participant ws (Some data) file rnd st = (st, [])) as Hrun.
  { unfold on_message. rewrite handle_set_name_other.
    - reflexivity.
    - destruct Hty as [Hty|Hty]; by rewrite (has_type_of _ _ _ Hty). }
  split; [done|]. intros Hrole. simpl. by rewrite Hrole.
Qed.

Lemma on_message_remove_name ws name file rnd st :
  on_message master ws (remove_name_frame name) file rnd st
  = handle_remove_name master (Data.mk (Some "remove_name") (Some name) None) st.
Proof.
  unfold on_message, remove_name_frame. rewrite handle_set_name_other by reflexivity.
  destruct (handle_remove_name _ _ st) as [st2 out2].
  rewrite handle_start_draw_other by reflexivity. by rewrite app_nil_r.
Qed.

(** What the [remove_name] handler does with a frame from a master. It
    clears name and address of every live identity that holds the trimmed
    name in lower case and leaves the other identities alone, writes a
    reset frame to each of those sockets that is open, and deletes the
    session records of that name and no other record; masters and sockets
    stay as they are, and when nobody holds the name the state does not
    change.  The loop over the session records compares the name only: it
    has no test of the target, so a record that a draw has committed goes
    as well. *)
Theorem remove_name_effect ws name file rnd st :
  let target := toLowerCase (trim name) in
  let st' := fst (on_message master ws (remove_name_frame name) file rnd st) in
  let out := snd (on_message master ws (remove_name_frame name) file rnd st) in
  (forall sock,
     Map_get sock (participants st')
     = match Map_get sock (participants st) with
       | Some info =>
           Some (if bound_to target info
                 then Participant.mk None None (Participant.sessionId info)
                 else info)
       | None => None
       end)
  /\ (forall sock info,
        In (sock, info) (participants st) -> bound_to target info = true ->
        sock ∈ opened st -> In (Sent sock reset) out)
  /\ (forall sock,
        In (Sent sock reset) out ->
        exists info, In (sock, info) (participants st) /\ bound_to target info = true)
  /\ (forall sessionId session,
        In (sessionId, session) (sessions st')
        <-> In (sessionId, session) (sessions st)
            /\ session_named target session = false)
  /\ masters st' = masters st /\ opened st' = opened st
  /\ ((forall sock info, In (sock, info) (participants st) ->
                         bound_to target info = false) ->
      (forall sessionId session, In (sessionId, session) (sessions st) ->
                                 session_named target session = false) ->
      st' = st).
Proof.
  intros target st' out. subst st' out. rewrite on_message_remove_name.
  unfold handle_remove_name. cbn [Data.name].
  change (has_type _ "remove_name") with true. cbv iota. fold target.
  cbn [fst snd].
  split; [|split; [|split; [|split; [|split; [reflexivity|split; [reflexivity|]]]]]].
  - intros sock. cbn [participants with_sessions with_participants].
    apply (Map_get_map_values (bound_to target)
             (fun info => Participant.mk None None (Participant.sessionId info))).
  - intros sock info Hin Hb Hopen. apply in_or_app. left.
    apply in_flat_map. exists (sock, info). split; [done|]. simpl.
    rewrite Hb, send_open by done. by left.
  - intros sock [Hin|Hin]%in_app_or.
    + apply in_flat_map in Hin as ([sock' info] & Hin & Hs). simpl in Hs.
      destruct (bound_to target info) eqn:Hb; [|done].
      apply send_only_to in Hs as [= ->]. eauto.
    + unfold broadcastParticipantsUpdate, broadcastToMasters in Hin.
      apply in_flat_map in Hin as (m & _ & Hs). by apply send_only_to in Hs.
  - intros sid s. cbn [sessions with_sessions]. rewrite filter_In. simpl.
    by rewrite negb_true_iff.
  - intros Hp Hs. destruct st as [ps ms ss os].
    unfold with_sessions, with_participants. cbn [participants masters sessions opened] in *.
    f_equal.
    + apply (map_unchanged (fun p => bound_to target (snd p))
               (fun p => (fst p, Participant.mk None None (Participant.sessionId (snd p))))).
      intros [sock info]. apply Hp.
    + apply filter_unchanged. intros [sid s] Hin. apply negb_true_iff. by eapply Hs.
Qed.
End CommandFacts.

(** ** Well-formed states *)

Section MapForall.
Context {K V : Type} `{EqDecision K} (P : K * V -> Prop).

Lemma Map_set_Forall k v (m : list (K * V)) :
  Forall P m -> P (k, v) -> Forall P (Map_set k v m).
Proof.
  intros Hm Hkv. induction Hm as [|[k' v'] m Hp Hm IH]; simpl.
  - by constructor.
  - destruct (decide (k = k')); constructor; done.
Qed.

Lemma Map_delete_Forall k (m : list (K * V)) :
  Forall P m -> Forall P (Map_delete k m).
Proof.
  intros Hm. induction Hm as [|[k' v'] m Hp Hm IH]; simpl; [constructor|].
  destruct (decide (k = k')); [done | by constructor].
Qed.

Lemma Map_get_Forall k v (m : list (K * V)) :
  Forall P m -> Map_get k m = Some v -> P (k, v).
Proof.
  intros Hm Hget%Map_get_In. rewrite List.Forall_forall in Hm. by apply Hm.
Qed.
End MapForall.

Lemma sort_insert_In `{Collator} {A} (key : A -> string) x y (l : list A) :
  In y (sort_insert key x l) <-> y = x \/ In y l.
Proof.
  induction l as [|z l IH]; simpl; [intuition congruence|].
  destruct (localeCompare (key x) (key z) <=? 0)%Z; simpl.
  - intuition congruence.
  - rewrite IH. intuition congruence.
Qed.

Lemma sort_by_In `{Collator} {A} (key : A -> string) y (l : list A) :
  In y (sort_by key l) <-> In y l.
Proof.
  induction l as [|x l IH]; simpl; [tauto|].
  rewrite sort_insert_In, IH. intuition congruence.
Qed.

Lemma fold_left_invariant {A B} (I : A -> Prop) (f : A -> B -> A) (l : list B) (a : A) :
  I a -> (forall a b, I a -> In b l -> I (f a b)) -> I (fold_left f l a).
Proof.
  revert a. induction l as [|b l IH]; intros a Ha Hf; simpl; [done|].
  apply IH; [apply Hf; [done | by left]|]. intros a' b' Ha' Hb'. apply Hf; [done | by right].
Qed.

Lemma getParticipantNames_nonempty `{Collator} st n :
  In n (getParticipantNames st) -> nonempty n = true.
Proof.
  unfold getParticipantNames. rewrite sort_by_In. unfold id.
  revert n. apply List.Forall_forall.
  apply fold_left_invariant; [apply fold_left_invariant; [constructor|]|].
  - intros names [sock info] Hnames _. simpl.
    destruct (Participant.name info) as [m|]; [|done].
    destruct (nonempty m) eqn:Hm; [|done].
    apply Forall_app. split; [done | by constructor].
  - intros names [sid s] Hnames _. simpl.
    destruct (undrawn s) eqn:Hu; [|done].
    destruct (negb (existsb _ names)); [|done].
    apply Forall_app. split; [done|]. constructor; [|done].
    unfold undrawn in Hu. by repeat (apply andb_true_iff in Hu as [Hu _]).
Qed.

Lemma createDerangement_values rnd names bannedSet m g r :
  createDerangement rnd names bannedSet = Some m -> In (g, r) m -> In r names.
Proof.
  unfold createDerangement. destruct (length names <? 2); [done|].
  intros (a & _ & _ & ->)%attempts_Some Hin%build_map_values%in_combine_r.
  apply list_elem_of_In. rewrite <- (shuffle_Permutation rnd (0 + a * (length names - 1)) names).
  by apply list_elem_of_In.
Qed.

Section Invariant.
Context `{Collator}.

Lemma handle_set_name_well_formed ws data st :
  well_formed st -> well_formed (fst (fst (handle_set_name ws data st))).
Proof.
  intros [Hp Hs]. unfold handle_set_name.
  destruct (Data.name data) as [name|]; [|done].
  destruct (Data.email data) as [email|]; [|done].
  destruct (has_type data "set_name"); [|done].
  destruct (nonempty (trim name)) eqn:Hn; [|done]. cbn [negb].
  destruct (40 <? String.length (trim name)); [done|].
  destruct (nonempty (trim email)) eqn:Hm; [|done]. cbn [negb].
  destruct (negb (isValidEmail (trim email))); [done|].
  destruct (isNameTaken (trim name) st); [done|].
  destruct (Map_get ws (participants st)) as [info|] eqn:Hinfo; [|done].
  pose proof (Map_get_Forall _ _ _ _ Hp Hinfo) as Hid. unfold identity_ok in Hid.
  cbn [fst snd] in *. split; cbn [participants sessions with_sessions with_participants].
  - by apply Map_set_Forall.
  - apply Map_set_Forall; [done|].
    destruct (Map_get (Participant.sessionId info) (sessions st)) as [session|] eqn:Hsession.
    + pose proof (Map_get_Forall _ _ _ _ Hs Hsession) as (_ & _ & _ & Ht).
      by repeat split.
    + by repeat split.
Qed.

Lemma handle_remove_name_well_formed role data st :
  well_formed st -> well_formed (fst (handle_remove_name role data st)).
Proof.
  intros [Hp Hs]. unfold handle_remove_name.
  destruct role; [|done]. destruct (Data.name data) as [name|]; [|done].
  destruct (has_type data "remove_name"); [|done].
  split; cbn [fst participants sessions with_sessions with_participants].
  - apply List.Forall_forall. intros p [[sock info] [<- Hin]]%in_map_iff.
    rewrite List.Forall_forall in Hp. specialize (Hp _ Hin).
    by destruct (bound_to _ _).
  - rewrite List.Forall_forall in *. intros p [Hin _]%filter_In. by apply Hs.
Qed.

Lemma draw_online_records st mapping ps ss :
  (forall g r, In (g, r) mapping -> nonempty r = true) ->
  Forall record_ok ss ->
  Forall record_ok (fst (fold_left (draw_online st mapping) ps (ss, []))).
Proof.
  intros Hmapping Hss.
  apply (fold_left_invariant (fun acc => Forall record_ok (fst acc))); [done|].
  intros [ss' out] [sock info] Hacc _. cbn [fst] in Hacc. unfold draw_online.
  destruct (Participant.name info) as [n|]; [|done].
  destruct (nonempty n); [|done].
  destruct (Map_get n mapping) as [target|] eqn:Ht; [|done]. cbn [fst].
  destruct (nonempty (Participant.sessionId info)); [|done].
  destruct (Map_get (Participant.sessionId info) ss') as [session|] eqn:Hsession; [|done].
  pose proof (Map_get_Forall _ _ _ _ Hacc Hsession) as (Hk & Hn & He & _).
  apply Map_set_Forall; [done|]. repeat split; try done.
  intros t [= <-]. eapply Hmapping, Map_get_In, Ht.
Qed.

Lemma draw_offline_records mapping ss out :
  (forall g r, In (g, r) mapping -> nonempty r = true) ->
  Forall record_ok ss ->
  Forall record_ok (fst (fold_left (draw_offline mapping) ss ([], out))).
Proof.
  intros Hmapping Hss. rewrite List.Forall_forall in Hss.
  apply (fold_left_invariant (fun acc => Forall record_ok (fst acc))); [constructor|].
  intros [ss' out'] [sid s] Hacc Hin. cbn [fst] in Hacc.
  destruct (Hss _ Hin) as (Hk & Hn & He & Ht). unfold draw_offline.
  assert (Forall record_ok (ss' ++ [(sid, s)])) as Hkeep.
  { apply Forall_app. split; [done|]. constructor; [|done]. by repeat split. }
  destruct (undrawn s); [|done].
  destruct (Map_get (Session.name s) mapping) as [target|] eqn:Hg; [|done].
  cbn [fst]. apply Forall_app. split; [done|]. constructor; [|done].
  repeat split; try done. intros t [= <-]. eapply Hmapping, Map_get_In, Hg.
Qed.

Lemma handle_start_draw_well_formed role ws data file rnd st :
  well_formed st -> well_formed (fst (handle_start_draw role ws data file rnd st)).
Proof.
  intros [Hp Hs]. unfold handle_start_draw.
  destruct role; [|done]. destruct (has_type data "start_draw"); [|done].
  destruct (length (getParticipantNames st) <? 2); [done|].
  destruct (createDerangement rnd (getParticipantNames st) _) as [mapping|] eqn:Hd; [|done].
  assert (forall g r, In (g, r) mapping -> nonempty r = true) as Hmapping.
  { intros g r Hin. eapply getParticipantNames_nonempty, createDerangement_values; done. }
  pose proof (draw_online_records st mapping (participants st) (sessions st) Hmapping Hs) as H1.
  destruct (fold_left (draw_online st mapping) _ _) as [ss1 out1]. cbn [fst] in H1.
  pose proof (draw_offline_records mapping ss1 out1 Hmapping H1) as H2.
  destruct (fold_left (draw_offline mapping) _ _) as [ss2 out2]. cbn [fst] in H2.
  by split.
Qed.

Lemma on_message_well_formed role ws raw file rnd st :
  well_formed st -> well_formed (fst (on_message role ws raw file rnd st)).
Proof.
  intros Hwf. unfold on_message. destruct raw as [data|]; [|done].
  pose proof (handle_set_name_well_formed ws data st Hwf) as H1.
  destruct (handle_set_name ws data st) as [[st1 out1] returned]. cbn [fst] in H1.
  destruct returned; [done|].
  pose proof (handle_remove_name_well_formed role data st1 H1) as H2.
  destruct (handle_remove_name role data st1) as [st2 out2]. cbn [fst] in H2.
  pose proof (handle_start_draw_well_formed role ws data file rnd st2 H2) as H3.
  by destruct (handle_start_draw role ws data file rnd st2) as [st3 out3].
Qed.

Lemma handle_well_formed st ev :
  well_formed st -> enabled st ev -> well_formed (fst (handle st ev)).
Proof.
  intros [Hp Hs] Hen. destruct ev as [ws role cookie freshId|ws raw file rnd|ws|ws]; simpl.
  - destruct Hen as [_ Hfresh]. destruct role; [done|]. split; [|done].
    cbn [fst participants with_participants mark_open with_opened].
    apply Map_set_Forall; [done|]. unfold identity_ok. cbn [snd Participant.sessionId].
    destruct cookie as [sid|]; [|done]. by destruct (nonempty sid) eqn:Hsid.
  - destruct (role_of st ws); [by apply on_message_well_formed | done].
  - done.
  - unfold on_close. cbn [masters mark_unready with_opened participants].
    destruct (bool_decide (ws ∈ masters st)); [done|].
    destruct (Map_get ws (participants st)); [|done].
    split; [|done]. by apply Map_delete_Forall.
Qed.

Lemma reachable_well_formed st : reachable st -> well_formed st.
Proof.
  induction 1 as [|st ev _ IH Hen]; [by split; constructor|].
  by apply handle_well_formed.
Qed.

Lemma quiet_sessions st ev : quiet ev -> sessions (fst (handle st ev)) = sessions st.
Proof.
  destruct ev as [ws role cookie freshId|ws raw file rnd|ws|ws]; simpl; try done.
  - by destruct role.
  - intros _. unfold on_close. cbn [masters mark_unready with_opened participants].
    destruct (bool_decide (ws ∈ masters st)); [done|].
    by destruct (Map_get ws (participants st)).
Qed.

Lemma quiet_run_sessions st evs :
  Forall quiet evs -> sessions (fst (run st evs)) = sessions st.
Proof.
  intros Hq. revert st. induction Hq as [|ev evs Hev _ IH]; intros st; simpl; [done|].
  pose proof (quiet_sessions st ev Hev) as H1.
  destruct (handle st ev) as [st1 out1]. cbn [fst] in H1.
  specialize (IH st1). destruct (run st1 evs) as [st2 out2]. cbn [fst] in *. congruence.
Qed.

(** What a participant who connects with the cookie of a well-formed record
    is sent. *)
Lemma restore_frame st ws token freshId record :
  record_ok (token, record) -> Map_get token (sessions st) = Some record ->
  snd (handle st (Connect ws participant (Some token) freshId))
  = [Sent ws (match Session.target record with
              | Some t => your_target t
              | None => name_ok (Session.name record) None
              end)].
Proof.
  intros (Hk & Hn & He & Ht) Hget. cbn [fst snd] in *.
  unfold handle, on_connection. rewrite Hk.
  cbn [sessions mark_open with_opened]. rewrite Hget. cbn [snd].
  assert (forall data, send (with_participants (mark_open ws st)
                              (Map_set ws (Participant.mk (or_null (Session.name record))
                                             (or_null (Session.email record)) token)
                                 (participants (mark_open ws st)))) ws data
                       = [Sent ws data]) as Hsend.
  { intros data. apply send_open. cbn. by left. }
  destruct (Session.target record) as [t|].
  - by rewrite (Ht t eq_refl), Hsend.
  - by rewrite Hn, He, Hsend.
Qed.

(** C5. In every state the server can reach and for every token: when a
    record is stored under the token, the lookup over HTTP returns its
    name, address and target, and a participant who connects with the token
    is sent the target if the record has one and a name confirmation if it
    has none; both answers are the same after any number of sockets have
    connected and closed in between.  When no record is stored, the lookup
    says not found and the connecting participant is sent nothing. *)
Theorem session_restoration st token :
  reachable st ->
  match Map_get token (sessions st) with
  | Some record =>
      get_session token st
      = session_json (Session.name record) (Session.email record) (Session.target record)
      /\ forall evs ws freshId,
           Forall quiet evs ->
           get_session token (fst (run st evs)) = get_session token st
           /\ snd (handle (fst (run st evs)) (Connect ws participant (Some token) freshId))
              = [Sent ws (match Session.target record with
                          | Some t => your_target t
                          | None => name_ok (Session.name record) None
                          end)]
  | None =>
      get_session token st = not_found
      /\ forall ws freshId,
           snd (handle st (Connect ws participant (Some token) freshId)) = []
  end.
Proof.
  intros [_ Hs]%reachable_well_formed.
  destruct (Map_get token (sessions st)) as [record|] eqn:Hget.
  - pose proof (Map_get_Forall _ _ _ _ Hs Hget) as Hok. split.
    + unfold get_session. by rewrite Hget.
    + intros evs ws freshId Hq. pose proof (quiet_run_sessions st evs Hq) as Hsame.
      split.
      * unfold get_session. by rewrite Hsame.
      * apply restore_frame; [done|]. by rewrite Hsame.
  - split.
    + unfold get_session. by rewrite Hget.
    + intros ws freshId. unfold handle, on_connection.
      cbn [sessions mark_open with_opened]. rewrite Hget.
      by destruct (nonempty token).
Qed.
End Invariant.

(** ** What a draw leaves alone *)

Lemma Map_set_keeps {K V} `{EqDecision K} (k k0 : K) (v v0 : V) (m : list (K * V)) :
  k0 <> k -> In (k0, v0) m -> In (k0, v0) (Map_set k v m).
Proof.
  intros Hne. induction m as [|[k' v'] m IH]; simpl; [tauto|].
  destruct (decide (k = k')) as [->|]; simpl; intuition congruence.
Qed.

Lemma draw_online_keeps st mapping ps ss sessionId session :
  (forall sock info, In (sock, info) ps -> Participant.sessionId info <> sessionId) ->
  In (sessionId, session) ss ->
  In (sessionId, session) (fst (fold_left (draw_online st mapping) ps (ss, []))).
Proof.
  intros Hother Hin.
  apply (fold_left_invariant (fun acc => In (sessionId, session) (fst acc))); [done|].
  intros [ss' out] [sock info] Hacc Hp. cbn [fst] in Hacc. unfold draw_online.
  destruct (Participant.name info) as [n|]; [|done].
  destruct (nonempty n); [|done].
  destruct (Map_get n mapping) as [target|]; [|done]. cbn [fst].
  destruct (nonempty (Participant.sessionId info)); [|done].
  destruct (Map_get (Participant.sessionId info) ss') as [s'|]; [|done].
  apply Map_set_keeps; [|done]. intros ->. by eapply Hother.
Qed.

Lemma draw_offline_keeps mapping ss acc out sessionId session :
  undrawn session = false ->
  In (sessionId, session) acc \/ In (sessionId, session) ss ->
  In (sessionId, session) (fst (fold_left (draw_offline mapping) ss (acc, out))).
Proof.
  intros Hdrawn. revert acc out.
  induction ss as [|[sid s] ss IH]; intros acc out Hin; simpl in Hin;
    cbn [fold_left fst]; [tauto|].
  destruct (draw_offline mapping (acc, out) (sid, s)) as [acc' out'] eqn:Hstep.
  apply IH. destruct Hin as [Hin|[[= -> ->]|Hin]]; [left | left | by right].
  - unfold draw_offline in Hstep.
    destruct (undrawn s), (Map_get (Session.name s) mapping);
      injection Hstep as <- _; apply in_or_app; by left.
  - unfold draw_offline in Hstep. rewrite Hdrawn in Hstep.
    injection Hstep as <- _. apply in_or_app. right. by left.
Qed.

(** X4. The part of C1 the code keeps: a draw does not touch a record that
    has a target, unless a live identity carries its session id. *)
Lemma draw_keeps_offline_targets `{Collator} role ws data file rnd st sessionId session :
  In (sessionId, session) (sessions st) ->
  truthy (Session.target session) = true ->
  (forall sock info, In (sock, info) (participants st) ->
                     Participant.sessionId info <> sessionId) ->
  In (sessionId, session) (sessions (fst (handle_start_draw role ws data file rnd st))).
Proof.
  intros Hin Htarget Hother. unfold handle_start_draw.
  destruct role; [|done]. destruct (has_type data "start_draw"); [|done].
  destruct (length (getParticipantNames st) <? 2); [done|].
  destruct (createDerangement rnd (getParticipantNames st) _) as [mapping|]; [|done].
  pose proof (draw_online_keeps st mapping _ _ _ _ Hother Hin) as H1.
  destruct (fold_left (draw_online st mapping) _ _) as [ss1 out1]. cbn [fst] in H1.
  assert (undrawn session = false) as Hdrawn.
  { unfold undrawn. rewrite Htarget. by rewrite andb_false_r. }
  pose proof (draw_offline_keeps mapping ss1 [] out1 _ _ Hdrawn (or_intror H1)) as H2.
  by destruct (fold_left (draw_offline mapping) _ _) as [ss2 out2].
Qed.

(** ** The concrete evening *)

Lemma run_reachable `{Collator} st evs :
  reachable st -> enabled_all st evs -> reachable (fst (run st evs)).
Proof.
  revert st. induction evs as [|ev evs IH]; intros st Hr Hen; simpl; [done|].
  destruct Hen as [Hev Hen]. specialize (IH _ (reachable_step st ev Hr Hev) Hen).
  destruct (handle st ev) as [st1 out1]. cbn [fst] in IH.
  by destruct (run st1 evs).
Qed.

Lemma claimed_state_reachable : @reachable codeunit_collator claimed_state.
Proof. apply run_reachable; [constructor|]. vm_compute. tauto. Qed.

Lemma drawn_state_reachable : @reachable codeunit_collator drawn_state.
Proof. apply (reachable_step claimed_state first_draw); [apply claimed_state_reachable | exact I]. Qed.

Example first_draw_effects :
  snd (@handle codeunit_collator claimed_state first_draw)
  = [ Sent 1 (your_target "Bob"); Mail "alice@example.org" "Alice" "Bob";
      Sent 2 (your_target "Carol"); Mail "bob@example.org" "Bob" "Carol";
      Sent 3 (your_target "Alice"); Mail "carol@example.org" "Carol" "Alice";
      Written [("Alice", "Bob"); ("Bob", "Carol"); ("Carol", "Alice")];
      Sent 0 draw_complete ].
Proof. vm_compute. reflexivity. Qed.

(** C1, the code at the failing input. Alice, Bob and Carol stay connected
    and the master draws twice: the first draw commits the targets Bob,
    Carol, Alice to the three session records, the second one overwrites
    all three with Carol, Alice, Bob. *)
Theorem second_draw_overwrites_targets :
  targets drawn_state
    = [("s1", Some "Bob"); ("s2", Some "Carol"); ("s3", Some "Alice")]
  /\ targets (fst (@handle codeunit_collator drawn_state second_draw))
    = [("s1", Some "Carol"); ("s2", Some "Alice"); ("s3", Some "Bob")].
Proof. split; vm_compute; reflexivity. Qed.

(** C3, the code at the failing input. After the first draw Alice's record
    s1 holds the target Bob; the master removes the name Alice, and the
    record is deleted with its target: not every record with a target is
    still there after the removal. *)
Lemma remove_name_deletes_drawn_record :
  ~ (forall sessionId session,
       In (sessionId, session) (sessions drawn_state) ->
       truthy (Session.target session) = true ->
       In (sessionId, session)
          (sessions (fst (@handle codeunit_collator drawn_state
                            (Receive 0 (remove_name_frame "Alice") None (fun _ => 0)))))).
Proof.
  intros Hkept.
  specialize (Hkept "s1" (Session.mk "Alice" "alice@example.org" (Some "Bob"))).
  assert (In ("s1", Session.mk "Alice" "alice@example.org" (Some "Bob"))
             (sessions drawn_state)) as Hin by (vm_compute; tauto).
  specialize (Hkept Hin eq_refl). clear Hin. vm_compute in Hkept.
  destruct Hkept as [Heq|[Heq|[]]]; inversion Heq.
Qed.

(** The same removal hits a namesake.  Alice has drawn Bob and leaves; a
    newcomer takes the free name Alice; the master removes the newcomer's
    name, and the record of the first Alice, target and all, is deleted
    along with the newcomer's. *)
Example remove_name_hits_namesake :
  targets (fst (@run codeunit_collator drawn_state
                  [Closed 1; Connect 4 participant None "s4";
                   Receive 4 (set_name_frame "Alice" "other@example.org") None
                     (fun _ => 0)]))
    = [("s1", Some "Bob"); ("s2", Some "Carol"); ("s3", Some "Alice"); ("s4", None)]
  /\ targets (fst (@run codeunit_collator drawn_state
                     [Closed 1; Connect 4 participant None "s4";
                      Receive 4 (set_name_frame "Alice" "other@example.org") None
                        (fun _ => 0);
                      Receive 0 (remove_name_frame "Alice") None (fun _ => 0)]))
    = [("s2", Some "Carol"); ("s3", Some "Alice")].
Proof. split; vm_compute; reflexivity. Qed.

Lemma rejected_claim_changes_nothing_witness :
  40 < String.length (trim name_of_41)
  /\ exists e out,
       validation_error e
       /\ @on_message codeunit_collator participant 1
            (set_name_frame name_of_41 "max@example.org") None (fun _ => 0) claimed_state
          = (claimed_state, out)
       /\ only_to 1 (error e) out
       /\ (1 ∈ opened claimed_state -> out = [Sent 1 (error e)]).
Proof.
  assert (40 < String.length (trim name_of_41)) as Hlong by (vm_compute; lia).
  split; [exact Hlong|].
  apply (@rejected_claim_changes_nothing codeunit_collator).
  right; left. exact Hlong.
Defined.

Lemma duplicate_name_rejected_witness :
  (held_live claimed_state (trim " ALICE ")
   /\ exists e out,
        validation_error e /\ e <> NameEmpty
        /\ @on_message codeunit_collator participant 2
             (set_name_frame " ALICE " "a@example.org") None (fun _ => 0) claimed_state
           = (claimed_state, out)
        /\ only_to 2 (error e) out
        /\ (2 ∈ opened claimed_state -> out = [Sent 2 (error e)])
        /\ (String.length (trim " ALICE ") <= 40 ->
            isValidEmail (trim "a@example.org") = true -> e = NameTaken))
  /\ (held_undrawn alice_away (trim "alice")
      /\ exists e out,
           validation_error e /\ e <> NameEmpty
           /\ @on_message codeunit_collator participant 2
                (set_name_frame "alice" "a@example.org") None (fun _ => 0) alice_away
              = (alice_away, out)
           /\ only_to 2 (error e) out
           /\ (2 ∈ opened alice_away -> out = [Sent 2 (error e)])
           /\ (String.length (trim "alice") <= 40 ->
               isValidEmail (trim "a@example.org") = true -> e = NameTaken)).
Proof.
  assert (held_live claimed_state (trim " ALICE ")) as Hlive.
  { exists 1, (Participant.mk (Some "Alice") (Some "alice@example.org") "s1"), "Alice".
    vm_compute. repeat split; [tauto | discriminate]. }
  assert (held_undrawn alice_away (trim "alice")) as Hrecord.
  { exists "s1", (Session.mk "Alice" "alice@example.org" None).
    vm_compute. repeat split; [tauto | discriminate]. }
  split; (split; [assumption|]).
  - apply (@duplicate_name_rejected codeunit_collator). left. exact Hlive.
  - apply (@duplicate_name_rejected codeunit_collator). right. exact Hrecord.
Defined.

Example live_duplicate_answer :
  @on_message codeunit_collator participant 2
    (set_name_frame " ALICE " "a@example.org") None (fun _ => 0) claimed_state
  = (claimed_state, [Sent 2 (error NameTaken)]).
Proof. vm_compute. reflexivity. Qed.

Example offline_duplicate_answer :
  @on_message codeunit_collator participant 2
    (set_name_frame "alice" "a@example.org") None (fun _ => 0) alice_away
  = (alice_away, [Sent 2 (error NameTaken)]).
Proof. vm_compute. reflexivity. Qed.

(** A name of 41 code units is refused, the same name cut to 40 is taken. *)
Example name_of_41_refused :
  String.length name_of_41 = 41
  /\ @on_message codeunit_collator participant 1
       (set_name_frame name_of_41 "max@example.org") None (fun _ => 0) claimed_state
     = (claimed_state, [Sent 1 (error NameTooLong)]).
Proof. split; vm_compute; reflexivity. Qed.

Example name_of_40_accepted :
  String.length name_of_40 = 40
  /\ snd (@on_message codeunit_collator participant 1
            (set_name_frame name_of_40 "max@example.org") None (fun _ => 0) claimed_state)
     = [ Sent 1 (name_ok name_of_40 (Some "s1"));
         Sent 0 (participants_list [ "Bob"; "Carol"; name_of_40 ]
                   [ Entry.mk "Bob" "bob@example.org" true;
                     Entry.mk "Carol" "carol@example.org" true;
                     Entry.mk name_of_40 "max@example.org" true ]) ].
Proof. split; vm_compute; reflexivity. Qed.

Lemma privileged_commands_need_master_witness :
  @on_message codeunit_collator participant 1 start_draw_frame None (fun _ => 0) claimed_state
    = (claimed_state, [])
  /\ (role_of claimed_state 1 = Some participant ->
      @handle codeunit_collator claimed_state
        (Receive 1 start_draw_frame None (fun _ => 0)) = (claimed_state, [])).
Proof.
  apply (@privileged_commands_need_master codeunit_collator 1
           (Data.mk (Some "start_draw") None None)).
  right. reflexivity.
Defined.

Lemma session_restoration_witness :
  @reachable codeunit_collator drawn_state
  /\ match Map_get "s2" (sessions drawn_state) with
     | Some record =>
         get_session "s2" drawn_state
         = session_json (Session.name record) (Session.email record)
             (Session.target record)
         /\ forall evs ws freshId,
              Forall quiet evs ->
              get_session "s2" (fst (@run codeunit_collator drawn_state evs))
              = get_session "s2" drawn_state
              /\ snd (@handle codeunit_collator
                        (fst (@run codeunit_collator drawn_state evs))
                        (Connect ws participant (Some "s2") freshId))
                 = [Sent ws (match Session.target record with
                             | Some t => your_target t
                             | None => name_ok (Session.name record) None
                             end)]
     | None =>
         get_session "s2" drawn_state = not_found
         /\ forall ws freshId,
              snd (@handle codeunit_collator drawn_state
                     (Connect ws participant (Some "s2") freshId)) = []
     end.
Proof.
  split; [exact drawn_state_reachable|].
  exact (@session_restoration codeunit_collator drawn_state "s2" drawn_state_reachable).
Defined.

Example bob_reconnects_after_draw :
  snd (@run codeunit_collator drawn_state
         [Closed 2; Connect 7 participant (Some "s2") "s7"])
  = [ Sent 0 (participants_list ["Alice"; "Carol"]
                [ Entry.mk "Alice" "alice@example.org" true;
                  Entry.mk "Carol" "carol@example.org" true ]);
      Sent 7 (your_target "Carol") ].
Proof. vm_compute. reflexivity. Qed.

Example alice_reconnects_before_draw :
  snd (@handle codeunit_collator alice_away (Connect 7 participant (Some "s1") "s7"))
  = [ Sent 7 (name_ok "Alice" None) ].
Proof. vm_compute. reflexivity. Qed.

(** * More of the code *)

(** ** The shuffle and the solver on any list *)

(** X1. [shuffle] returns a rearrangement of its argument, of the same
    length, and calls the generator once for every position but the
    first. *)
Theorem shuffle_rearranges {A} rnd k (array : list A) :
  Permutation (fst (shuffle rnd k array)) array
  /\ length (fst (shuffle rnd k array)) = length array
  /\ snd (shuffle rnd k array) = k + (length array - 1).
Proof.
  split; [apply shuffle_Permutation|]. split; [|apply shuffle_counter].
  apply Permutation_length, shuffle_Permutation.
Qed.

Lemma createDerangement_pairs rnd names bannedSet m g r :
  createDerangement rnd names bannedSet = Some m -> Map_get g m = Some r ->
  exists perm, Permutation perm names
    /\ valid_perm bannedSet names perm = true
    /\ In (g, r) (combine names perm).
Proof.
  unfold createDerangement. destruct (length names <? 2); [done|].
  intros (a & _ & Hv & ->)%attempts_Some Hget%Map_get_In%build_map_values.
  exists (attempt_perm rnd names 0 a). split; [apply shuffle_Permutation | done].
Qed.

Lemma createDerangement_never_self_aux rnd names bannedSet m g r :
  createDerangement rnd names bannedSet = Some m -> Map_get g m = Some r -> g <> r.
Proof.
  intros Hm Hget.
  destruct (createDerangement_pairs _ _ _ _ _ _ Hm Hget) as (perm & _ & Hv & Hin).
  pose proof (valid_perm_position _ _ _ _ _ Hv Hin) as Hok. unfold position_ok in Hok.
  destruct (bool_decide_reflect (r = g)) as [->|Hne]; [done | congruence].
Qed.

(** X2. Also for a list in which a name occurs more than once: whatever
    the returned mapping gives for a name is another name of the list, never
    the name itself, and never a forbidden pair. *)
Theorem createDerangement_never_self rnd names (bannedSet : gset string) m g r :
  createDerangement rnd names (Some bannedSet) = Some m ->
  Map_get g m = Some r ->
  g <> r /\ In g names /\ In r names /\ ~ forbidden bannedSet g r.
Proof.
  intros Hm Hget.
  destruct (createDerangement_pairs _ _ _ _ _ _ Hm Hget) as (perm & Hperm & Hv & Hin).
  pose proof (valid_perm_position _ _ _ _ _ Hv Hin) as [Hne Hok]%position_ok_spec.
  split; [done|]. split; [by apply in_combine_l in Hin|]. split; [|done].
  apply in_combine_r in Hin. apply list_elem_of_In. rewrite <- Hperm.
  by apply list_elem_of_In.
Qed.

Lemma createDerangement_never_self_witness :
  createDerangement (fun k => k) ["Alice"; "Alice"; "Bob"; "Bob"] (Some ∅)
    = Some [("Alice", "Bob"); ("Bob", "Alice")]
  /\ ("Alice" <> "Bob" /\ In "Alice" ["Alice"; "Alice"; "Bob"; "Bob"]
      /\ In "Bob" ["Alice"; "Alice"; "Bob"; "Bob"] /\ ~ forbidden ∅ "Alice" "Bob").
Proof.
  assert (createDerangement (fun k => k) ["Alice"; "Alice"; "Bob"; "Bob"] (Some ∅)
          = Some [("Alice", "Bob"); ("Bob", "Alice")]) as Hrun
    by (vm_compute; reflexivity).
  split; [exact Hrun|].
  apply (createDerangement_never_self _ _ _ _ _ _ Hrun). reflexivity.
Defined.

(** X3. The file and the solver together: when a line of the constraint
    file gives the pair (fg, fr), a mapping returned for the banned set
    built from that file sends no name that is fg in lower case to a name
    that is fr in lower case. *)
Theorem draw_respects_constraint_file rnd names raw m g r line fg fr :
  createDerangement rnd names (Some (buildBannedSet (Some raw))) = Some m ->
  Map_get g m = Some r ->
  In line (split_lines raw) -> line_gives line fg fr ->
  ~ (toLowerCase g = fg /\ toLowerCase r = fr).
Proof.
  intros Hm Hget Hline Hgives [<- <-].
  destruct (createDerangement_pairs _ _ _ _ _ _ Hm Hget) as (perm & _ & Hv & Hin).
  pose proof (valid_perm_position _ _ _ _ _ Hv Hin) as [_ Hok]%position_ok_spec.
  apply Hok, forbidden_of_constraint. unfold readConstraintsFile.
  apply constraint_lines_In. right. by exists line.
Qed.

Lemma draw_respects_constraint_file_witness :
  createDerangement (fun k => 1 - k) ["Alice"; "Bob"; "Carol"]
    (Some (buildBannedSet (Some "alice , BOB")))
    = Some [("Alice", "Carol"); ("Bob", "Alice"); ("Carol", "Bob")]
  /\ line_gives "alice , BOB" "alice" "bob"
  /\ ~ (toLowerCase "Alice" = "alice" /\ toLowerCase "Carol" = "bob").
Proof.
  assert (createDerangement (fun k => 1 - k) ["Alice"; "Bob"; "Carol"]
            (Some (buildBannedSet (Some "alice , BOB")))
          = Some [("Alice", "Carol"); ("Bob", "Alice"); ("Carol", "Bob")]) as Hrun
    by (vm_compute; reflexivity).
  assert (line_gives "alice , BOB" "alice" "bob") as Hline.
  { exists "alice ", " BOB". vm_compute. repeat split; discriminate. }
  split; [exact Hrun|]. split; [exact Hline|].
  apply (draw_respects_constraint_file _ _ _ _ "Alice" "Carol" "alice , BOB"
           "alice" "bob" Hrun); [reflexivity | by left | exact Hline].
Defined.

(** ** The draw *)

Lemma draw_keeps_offline_targets_witness :
  In ("s2", Session.mk "Bob" "bob@example.org" (Some "Carol")) (sessions bob_away_drawn)
  /\ In ("s2", Session.mk "Bob" "bob@example.org" (Some "Carol"))
        (sessions (fst (@handle_start_draw codeunit_collator master 0
                          (Data.mk (Some "start_draw") None None) None
                          (fun _ => 0) bob_away_drawn))).
Proof.
  assert (In ("s2", Session.mk "Bob" "bob@example.org" (Some "Carol"))
             (sessions bob_away_drawn)) as Hin by (vm_compute; tauto).
  split; [exact Hin|].
  apply (@draw_keeps_offline_targets codeunit_collator); [exact Hin | reflexivity |].
  intros sock info Hp. vm_compute in Hp.
  destruct Hp as [[= <- <-]|[[= <- <-]|[]]]; discriminate.
Defined.

Section DrawFacts.
Context `{Collator}.

Lemma on_message_start_draw role ws file rnd st :
  on_message role ws start_draw_frame file rnd st
  = handle_start_draw role ws (Data.mk (Some "start_draw") None None) file rnd st.
Proof.
  unfold on_message, start_draw_frame. rewrite handle_set_name_other by reflexivity.
  rewrite handle_remove_name_other by reflexivity.
  by destruct (handle_start_draw _ _ _ _ _ st).
Qed.

(** X5. A draw that cannot be made changes nothing: with fewer than two
    eligible names, or when the solver gives up, the state stays as it is
    and all that is written is the matching error frame to the master who
    asked. *)
Theorem failed_draw_changes_nothing ws file rnd st :
  length (getParticipantNames st) < 2
  \/ createDerangement rnd (getParticipantNames st) (Some (buildBannedSet file)) = None ->
  on_message master ws start_draw_frame file rnd st
  = (st, send st ws (error (if length (getParticipantNames st) <? 2
                            then TooFewParticipants else NoDistribution))).
Proof.
  intros Hfail. rewrite on_message_start_draw. unfold handle_start_draw.
  change (has_type _ "start_draw") with true. cbv iota.
  destruct (length (getParticipantNames st) <? 2) eqn:Hlen; [done|].
  destruct Hfail as [Hlt|Hnone]; [apply Nat.ltb_ge in Hlen; lia|].
  by rewrite Hnone.
Qed.
End DrawFacts.

Lemma failed_draw_changes_nothing_witness :
  @on_message codeunit_collator master 0 start_draw_frame None (fun _ => 1) claimed_state
  = (claimed_state, [Sent 0 (error NoDistribution)]).
Proof.
  apply (@failed_draw_changes_nothing codeunit_collator 0 None (fun _ => 1) claimed_state).
  right. vm_compute. reflexivity.
Defined.

(** ** Lookup after update *)

Section JSMapUpdates.
Context {K V : Type} `{EqDecision K}.
Implicit Types (m : list (K * V)).

Lemma Map_get_set_eq k v m : Map_get k (Map_set k v m) = Some v.
Proof.
  induction m as [|[k' v'] m IH]; simpl.
  - by destruct (decide (k = k)).
  - destruct (decide (k = k')) as [->|Hne]; simpl.
    + by destruct (decide (k' = k')).
    + by destruct (decide (k = k')).
Qed.

Lemma Map_get_set_ne k k0 v m : k0 <> k -> Map_get k0 (Map_set k v m) = Map_get k0 m.
Proof.
  intros Hne. induction m as [|[k' v'] m IH]; simpl.
  - by destruct (decide (k0 = k)).
  - destruct (decide (k = k')) as [->|Hne']; simpl.
    + by destruct (decide (k0 = k')).
    + destruct (decide (k0 = k')); [done | apply IH].
Qed.

Lemma Map_get_delete_ne k k0 m : k0 <> k -> Map_get k0 (Map_delete k m) = Map_get k0 m.
Proof.
  intros Hne. induction m as [|[k' v'] m IH]; simpl; [done|].
  destruct (decide (k = k')) as [->|Hne']; simpl.
  - by destruct (decide (k0 = k')).
  - destruct (decide (k0 = k')); [done | apply IH].
Qed.

Lemma Map_set_map_same {B} (f : K * V -> B) k v v' m :
  Map_get k m = Some v -> f (k, v') = f (k, v) -> map f (Map_set k v' m) = map f m.
Proof.
  intros Hget Hf. induction m as [|[k' w] m IH]; simpl in *; [done|].
  destruct (decide (k = k')) as [->|Hne]; simpl.
  - injection Hget as ->. by rewrite Hf.
  - by rewrite IH.
Qed.

Lemma Map_set_keys_same k v v' m :
  Map_get k m = Some v -> map fst (Map_set k v' m) = map fst m.
Proof. intros Hget. by apply (Map_set_map_same fst k v v'). Qed.
End JSMapUpdates.

(** ** What a draw changes *)

Lemma draw_online_identity st mapping ps ss :
  map record_identity (fst (fold_left (draw_online st mapping) ps (ss, [])))
  = map record_identity ss.
Proof.
  apply (fold_left_invariant
           (fun acc => map record_identity (fst acc) = map record_identity ss)); [done|].
  intros [ss' out] [sock info] Hacc _. cbn [fst] in Hacc. unfold draw_online.
  destruct (Participant.name info) as [n|]; [|done].
  destruct (nonempty n); [|done].
  destruct (Map_get n mapping) as [target|]; [|done]. cbn [fst].
  destruct (nonempty (Participant.sessionId info)); [|done].
  destruct (Map_get (Participant.sessionId info) ss') as [s'|] eqn:Hs'; [|done].
  rewrite <- Hacc. by eapply Map_set_map_same.
Qed.

Lemma draw_offline_identity mapping ss acc out :
  map record_identity (fst (fold_left (draw_offline mapping) ss (acc, out)))
  = map record_identity acc ++ map record_identity ss.
Proof.
  revert acc out. induction ss as [|[sid s] ss IH]; intros acc out; cbn [fold_left].
  { by rewrite app_nil_r. }
  destruct (draw_offline mapping (acc, out) (sid, s)) as [acc' out'] eqn:Hstep.
  rewrite IH. unfold draw_offline in Hstep.
  destruct (undrawn s), (Map_get (Session.name s) mapping);
    injection Hstep as <- _; rewrite map_app, <- app_assoc; reflexivity.
Qed.

Section DrawChanges.
Context `{Collator}.

(** X6. A [start_draw] frame, from whatever role and with whatever
    outcome, changes neither the live identities nor the masters nor the
    open sockets, and it neither adds nor deletes nor renames a session
    record: key, name and address of every record stay, in the same order.
    Only targets can change. *)
Theorem draw_only_sets_targets role ws file rnd st :
  let st' := fst (on_message role ws start_draw_frame file rnd st) in
  participants st' = participants st
  /\ masters st' = masters st
  /\ opened st' = opened st
  /\ map record_identity (sessions st') = map record_identity (sessions st).
Proof.
  intros st'. subst st'. rewrite on_message_start_draw. unfold handle_start_draw.
  destruct role; [|done]. change (has_type _ "start_draw") with true. cbv iota.
  destruct (length (getParticipantNames st) <? 2); [done|].
  destruct (createDerangement rnd (getParticipantNames st) _) as [mapping|]; [|done].
  pose proof (draw_online_identity st mapping (participants st) (sessions st)) as H1.
  destruct (fold_left (draw_online st mapping) _ _) as [ss1 out1]. cbn [fst] in H1.
  pose proof (draw_offline_identity mapping ss1 [] out1) as H2.
  destruct (fold_left (draw_offline mapping) _ _) as [ss2 out2]. cbn [fst] in H2.
  cbn [fst participants masters opened sessions with_sessions].
  repeat split. by rewrite H2, <- H1.
Qed.
End DrawChanges.

(** ** What a draw writes *)

Lemma fold_left_reaches {A B} (I : A -> Prop) (f : A -> B -> A) (l : list B) (a : A) b0 :
  In b0 l -> (forall a, I (f a b0)) -> (forall a b, I a -> I (f a b)) ->
  I (fold_left f l a).
Proof.
  intros Hin Hb0 Hmono. revert a.
  induction l as [|b l IH]; intros a; simpl in *; [done|].
  destruct Hin as [->|Hin]; [|by apply IH].
  apply fold_left_invariant; [apply Hb0 | intros; by apply Hmono].
Qed.

Lemma sort_insert_Permutation `{Collator} {A} (key : A -> string) x (l : list A) :
  Permutation (sort_insert key x l) (x :: l).
Proof.
  induction l as [|y l IH]; simpl; [done|].
  destruct (localeCompare (key x) (key y) <=? 0)%Z; [done|].
  rewrite IH. apply perm_swap.
Qed.

Lemma sort_by_Permutation `{Collator} {A} (key : A -> string) (l : list A) :
  Permutation (sort_by key l) l.
Proof.
  induction l as [|x l IH]; simpl; [done|].
  rewrite sort_insert_Permutation. by constructor.
Qed.

Lemma live_name_eligible `{Collator} st sock info n :
  In (sock, info) (participants st) -> Participant.name info = Some n ->
  nonempty n = true -> In n (getParticipantNames st).
Proof.
  intros Hin Hn Hne. unfold getParticipantNames. rewrite sort_by_In. unfold id.
  apply fold_left_invariant.
  - apply (fold_left_reaches (fun names => In n names) _ _ _ (sock, info) Hin).
    + intros names. simpl. rewrite Hn, Hne. apply in_or_app. right. by left.
    + intros names [sock' info'] Hnames. simpl.
      destruct (Participant.name info') as [m|]; [|done].
      destruct (nonempty m); [|done]. apply in_or_app. by left.
  - intros names [sid s] Hnames _. simpl.
    destruct (undrawn s); [|done]. destruct (negb (existsb _ names)); [|done].
    apply in_or_app. by left.
Qed.

Lemma build_map_key names perm n :
  length names = length perm -> In n names ->
  exists r, Map_get n (build_map names perm) = Some r.
Proof.
  intros Hlen Hin. rewrite <- (combine_fst names perm Hlen) in Hin.
  apply in_map_iff in Hin as ([n' q] & <- & Hin). unfold build_map.
  apply (fold_left_reaches (fun m => exists r, Map_get n' m = Some r) _ _ _ (n', q) Hin).
  - intros m. exists q. apply Map_get_set_eq.
  - intros m [k v] [r Hr]. cbn [fst snd].
    destruct (decide (n' = k)) as [->|Hne].
    + exists v. apply Map_get_set_eq.
    + exists r. by rewrite Map_get_set_ne.
Qed.

Lemma createDerangement_key rnd names bannedSet m n :
  createDerangement rnd names bannedSet = Some m -> In n names ->
  exists r, Map_get n m = Some r.
Proof.
  unfold createDerangement. destruct (length names <? 2); [done|].
  intros (a & _ & _ & ->)%attempts_Some Hin. apply build_map_key; [|done].
  symmetry. apply Permutation_length, shuffle_Permutation.
Qed.

Lemma draw_online_step_out st mapping ss out p :
  snd (draw_online st mapping (ss, out) p)
  = out ++ snd (draw_online st mapping ([], []) p).
Proof.
  destruct p as [sock info]. unfold draw_online.
  destruct (Participant.name info) as [n|]; [|by rewrite app_nil_r].
  destruct (nonempty n); [|by rewrite app_nil_r].
  destruct (Map_get n mapping) as [target|]; [|by rewrite app_nil_r].
  reflexivity.
Qed.

Lemma draw_online_out st mapping ps ss out :
  snd (fold_left (draw_online st mapping) ps (ss, out))
  = out ++ flat_map (fun p => snd (draw_online st mapping ([], []) p)) ps.
Proof.
  revert ss out. induction ps as [|p ps IH]; intros ss out; cbn [fold_left flat_map].
  { by rewrite app_nil_r. }
  pose proof (draw_online_step_out st mapping ss out p) as Hstep.
  destruct (draw_online st mapping (ss, out) p) as [ss' out']. cbn [snd] in Hstep.
  by rewrite IH, Hstep, <- app_assoc.
Qed.

Lemma draw_offline_step_out mapping ss out p :
  snd (draw_offline mapping (ss, out) p)
  = out ++ snd (draw_offline mapping ([], []) p).
Proof.
  destruct p as [sid s]. unfold draw_offline.
  destruct (undrawn s); [|by rewrite app_nil_r].
  destruct (Map_get (Session.name s) mapping); [done | by rewrite app_nil_r].
Qed.

Lemma draw_offline_out mapping ss acc out :
  snd (fold_left (draw_offline mapping) ss (acc, out))
  = out ++ flat_map (fun p => snd (draw_offline mapping ([], []) p)) ss.
Proof.
  revert acc out. induction ss as [|p ss IH]; intros acc out; cbn [fold_left flat_map].
  { by rewrite app_nil_r. }
  pose proof (draw_offline_step_out mapping acc out p) as Hstep.
  destruct (draw_offline mapping (acc, out) p) as [acc' out']. cbn [snd] in Hstep.
  by rewrite IH, Hstep, <- app_assoc.
Qed.

(** What the first loop writes for one live identity. *)
Lemma draw_online_In st mapping sock info eff :
  In eff (snd (draw_online st mapping ([], []) (sock, info)))
  <-> exists n target,
        Participant.name info = Some n /\ nonempty n = true
        /\ Map_get n mapping = Some target
        /\ (In eff (send st sock (your_target target))
            \/ exists e, Participant.email info = Some e /\ nonempty e = true
                 /\ eff = Mail e n target).
Proof.
  unfold draw_online.
  destruct (Participant.name info) as [n|]; [|split; [done | by intros (? & ? & ? & _)]].
  destruct (nonempty n) eqn:Hn.
  2: { split; [done|]. intros (? & ? & [= <-] & ? & _). congruence. }
  destruct (Map_get n mapping) as [target|] eqn:Ht.
  2: { split; [done|]. intros (? & ? & [= <-] & _ & ? & _). congruence. }
  cbn [snd app]. rewrite in_app_iff. split.
  - intros [Hs|Hm]; exists n, target; repeat split; try done; [by left|].
    right. destruct (Participant.email info) as [e|]; [|done].
    destruct (nonempty e) eqn:He; [|done]. destruct Hm as [<-|[]]. by exists e.
  - intros (n' & t' & [= <-] & _ & Ht' & Heff). rewrite Ht in Ht'. injection Ht' as <-.
    destruct Heff as [?|(e & -> & -> & ->)]; [by left | right; by left].
Qed.

(** What the second loop writes for one session record. *)
Lemma draw_offline_In mapping sid s eff :
  In eff (snd (draw_offline mapping ([], []) (sid, s)))
  <-> exists target,
        undrawn s = true /\ Map_get (Session.name s) mapping = Some target
        /\ eff = Mail (Session.email s) (Session.name s) target.
Proof.
  unfold draw_offline. destruct (undrawn s).
  2: { split; [done | by intros (? & ? & _)]. }
  destruct (Map_get (Session.name s) mapping) as [target|].
  2: { split; [done | by intros (? & _ & ? & _)]. }
  cbn [snd app]. split.
  - intros [<-|[]]. by exists target.
  - intros (t & _ & [= <-] & ->). by left.
Qed.

Section DrawDelivery.
Context `{Collator}.

(** The effects of a draw that succeeds, in the order they happen. *)
Lemma successful_draw_out ws file rnd st mapping :
  createDerangement rnd (getParticipantNames st) (Some (buildBannedSet file))
    = Some mapping ->
  exists ss1,
    map record_identity ss1 = map record_identity (sessions st)
    /\ snd (on_message master ws start_draw_frame file rnd st)
       = flat_map (fun p => snd (draw_online st mapping ([], []) p)) (participants st)
         ++ flat_map (fun p => snd (draw_offline mapping ([], []) p)) ss1
         ++ [Written (sort_by fst mapping)]
         ++ broadcastToMasters st draw_complete.
Proof.
  intros Hm. rewrite on_message_start_draw. unfold handle_start_draw.
  change (has_type _ "start_draw") with true. cbv iota.
  assert ((length (getParticipantNames st) <? 2) = false) as ->.
  { unfold createDerangement in Hm. by destruct (length (getParticipantNames st) <? 2). }
  rewrite Hm.
  pose proof (draw_online_identity st mapping (participants st) (sessions st)) as Hid.
  pose proof (draw_online_out st mapping (participants st) (sessions st) []) as H1.
  destruct (fold_left (draw_online st mapping) _ _) as [ss1 out1]. cbn [fst snd] in *.
  pose proof (draw_offline_out mapping ss1 [] out1) as H2.
  destruct (fold_left (draw_offline mapping) _ _) as [ss2 out2]. cbn [fst snd] in *.
  exists ss1. split; [done|]. subst out1 out2. cbn [app]. by rewrite <- !app_assoc.
Qed.

(** X7. When a draw succeeds, every live identity with a claimed name and
    an open socket is sent its target, which the mapping gives for its name
    and which is not that name; a target frame only ever goes to a live
    identity whose name the mapping sends to that target; and the
    completion signal goes to every open master and to nobody else. *)
Theorem draw_delivers_targets ws file rnd st mapping :
  createDerangement rnd (getParticipantNames st) (Some (buildBannedSet file))
    = Some mapping ->
  let out := snd (on_message master ws start_draw_frame file rnd st) in
  (forall sock info n,
     In (sock, info) (participants st) -> Participant.name info = Some n ->
     n <> EmptyString -> sock ∈ opened st ->
     exists target,
       Map_get n mapping = Some target /\ target <> n
       /\ In (Sent sock (your_target target)) out)
  /\ (forall sock target,
        In (Sent sock (your_target target)) out ->
        exists info n,
          In (sock, info) (participants st) /\ Participant.name info = Some n
          /\ Map_get n mapping = Some target)
  /\ (forall m, m ∈ masters st -> m ∈ opened st -> In (Sent m draw_complete) out)
  /\ (forall sock, In (Sent sock draw_complete) out -> sock ∈ masters st).
Proof.
  intros Hm out. subst out.
  destruct (successful_draw_out ws file rnd st mapping Hm) as (ss1 & _ & ->).
  split; [|split; [|split]].
  - intros sock info n Hin Hn Hne%nonempty_true Hopen.
    destruct (createDerangement_key _ _ _ _ n Hm) as [target Ht].
    { by eapply live_name_eligible. }
    exists target. split; [done|]. split.
    + intros ->. by destruct (createDerangement_never_self_aux _ _ _ _ _ _ Hm Ht).
    + apply in_or_app. left. apply in_flat_map. exists (sock, info). split; [done|].
      apply draw_online_In. exists n, target. repeat split; try done.
      left. rewrite send_open by done. by left.
  - intros sock target Hin. rewrite !in_app_iff in Hin.
    destruct Hin as [Hin|[Hin|[Hin|Hin]]].
    + apply in_flat_map in Hin as ([sock' info] & Hp & Heff).
      apply draw_online_In in Heff as (n & t & Hn & _ & Ht & [Hs|(e & _ & _ & [=])]).
      apply send_only_to in Hs as [= -> ->]. by exists info, n.
    + apply in_flat_map in Hin as ([sid s] & _ & Heff).
      by apply draw_offline_In in Heff as (t & _ & _ & [=]).
    + by destruct Hin as [[=]|[]].
    + apply in_flat_map in Hin as (m & _ & Hs). by apply send_only_to in Hs.
  - intros m Hm' Hopen. do 3 (apply in_or_app; right).
    apply in_flat_map. exists m. split; [by apply list_elem_of_In|].
    rewrite send_open by done. by left.
  - intros sock Hin. rewrite !in_app_iff in Hin.
    destruct Hin as [Hin|[Hin|[Hin|Hin]]].
    + apply in_flat_map in Hin as ([sock' info] & Hp & Heff).
      apply draw_online_In in Heff as (n & t & Hn & _ & Ht & [Hs|(e & _ & _ & [=])]).
      by apply send_only_to in Hs.
    + apply in_flat_map in Hin as ([sid s] & _ & Heff).
      by apply draw_offline_In in Heff as (t & _ & _ & [=]).
    + by destruct Hin as [[=]|[]].
    + apply in_flat_map in Hin as (m & Hm'%list_elem_of_In & Hs).
      by apply send_only_to in Hs as [= ->].
Qed.

(** X8. When a draw succeeds, the pairs handed to the result file are
    those of the mapping, each once, and nothing else is handed to it;
    every mail
    carries a pair of the mapping, never a name with itself, and goes to the
    address of a live identity or of a session record of that name; and
    every live identity with a claimed name and an address is mailed its
    target, whether its socket is open or not. *)
Theorem draw_mails_and_file ws file rnd st mapping :
  createDerangement rnd (getParticipantNames st) (Some (buildBannedSet file))
    = Some mapping ->
  let out := snd (on_message master ws start_draw_frame file rnd st) in
  (exists pairs,
     Permutation pairs mapping
     /\ forall pairs', In (Written pairs') out <-> pairs' = pairs)
  /\ (forall to n target,
        In (Mail to n target) out ->
        Map_get n mapping = Some target /\ target <> n
        /\ ((exists sock info,
               In (sock, info) (participants st)
               /\ Participant.name info = Some n /\ Participant.email info = Some to)
            \/ (exists sessionId session,
                  In (sessionId, session) (sessions st)
                  /\ Session.name session = n /\ Session.email session = to)))
  /\ (forall sock info n e,
        In (sock, info) (participants st) -> Participant.name info = Some n ->
        n <> EmptyString -> Participant.email info = Some e -> e <> EmptyString ->
        exists target, Map_get n mapping = Some target /\ In (Mail e n target) out).
Proof.
  intros Hm out. subst out.
  destruct (successful_draw_out ws file rnd st mapping Hm) as (ss1 & Hid & ->).
  split; [|split].
  - exists (sort_by fst mapping). split; [apply sort_by_Permutation|].
    intros pairs'. rewrite !in_app_iff. split.
    + intros [Hin|[Hin|[Hin|Hin]]].
      * apply in_flat_map in Hin as ([sock info] & _ & Heff).
        apply draw_online_In in Heff as (n & t & _ & _ & _ & [Hs|(e & _ & _ & [=])]).
        by apply send_only_to in Hs.
      * apply in_flat_map in Hin as ([sid s] & _ & Heff).
        by apply draw_offline_In in Heff as (t & _ & _ & [=]).
      * destruct Hin as [[= ->]|[]]. done.
      * apply in_flat_map in Hin as (m & _ & Hs). by apply send_only_to in Hs.
    + intros ->. right; right; left. by left.
  - intros to n target Hin. rewrite !in_app_iff in Hin.
    destruct Hin as [Hin|[Hin|[Hin|Hin]]].
    + apply in_flat_map in Hin as ([sock info] & Hp & Heff).
      apply draw_online_In in Heff as (n' & t & Hn & _ & Ht & [Hs|(e & He & _ & [= -> -> ->])]).
      { by apply send_only_to in Hs. }
      split; [done|]. split.
      * intros ->. by destruct (createDerangement_never_self_aux _ _ _ _ _ _ Hm Ht).
      * left. by exists sock, info.
    + apply in_flat_map in Hin as ([sid s] & Hs & Heff).
      apply draw_offline_In in Heff as (t & _ & Ht & [= -> -> ->]).
      split; [done|]. split.
      * intros Heq. rewrite Heq in Ht.
        by destruct (createDerangement_never_self_aux _ _ _ _ _ _ Hm Ht).
      * right. apply (in_map record_identity) in Hs. rewrite Hid in Hs.
        apply in_map_iff in Hs as ([sid' s'] & [= Hsid Hname Hmail] & Hs').
        by exists sid', s'.
    + by destruct Hin as [[=]|[]].
    + apply in_flat_map in Hin as (m & _ & Hs). by apply send_only_to in Hs.
  - intros sock info n e Hin Hn Hne%nonempty_true He Hee%nonempty_true.
    destruct (createDerangement_key _ _ _ _ n Hm) as [target Ht].
    { by eapply live_name_eligible. }
    exists target. split; [done|]. apply in_or_app. left.
    apply in_flat_map. exists (sock, info). split; [done|].
    apply draw_online_In. exists n, target. repeat split; try done.
    right. by exists e.
Qed.
End DrawDelivery.

(** ** What a draw commits *)

Lemma fold_left_settles {A B} (J I : A -> Prop) (f : A -> B -> A) (l : list B) (a : A) b0 :
  In b0 l -> J a ->
  (forall a b, In b l -> J a -> J (f a b)) ->
  (forall a, J a -> I (f a b0)) ->
  (forall a b, In b l -> I a -> I (f a b)) ->
  I (fold_left f l a).
Proof.
  intros Hin Ha HJ HI Hkeep. revert a Ha.
  induction l as [|b l IH]; intros a Ha; simpl in *; [done|].
  destruct Hin as [->|Hin].
  - apply fold_left_invariant; [by apply HI|].
    intros a' b' Ha' Hb'. apply Hkeep; [by right | done].
  - apply IH; try done.
    + intros a' b' Hb' Ha'. apply HJ; [by right | done].
    + intros a' b' Hb' Ha'. apply Hkeep; [by right | done].
    + apply HJ; [by left | done].
Qed.

Lemma Map_get_app {K V} `{EqDecision K} (k : K) (m1 m2 : list (K * V)) :
  Map_get k (m1 ++ m2)
  = match Map_get k m1 with Some v => Some v | None => Map_get k m2 end.
Proof.
  induction m1 as [|[k' v'] m1 IH]; simpl; [done|].
  by destruct (decide (k = k')).
Qed.

(** The record found under a key after the second loop. *)
Lemma draw_offline_get mapping sid ss acc out :
  Map_get sid (fst (fold_left (draw_offline mapping) ss (acc, out)))
  = match Map_get sid acc with
    | Some s => Some s
    | None =>
        match Map_get sid ss with
        | Some s =>
            Some (if undrawn s then
                    match Map_get (Session.name s) mapping with
                    | Some target =>
                        Session.mk (Session.name s) (Session.email s) (Some target)
                    | None => s
                    end
                  else s)
        | None => None
        end
    end.
Proof.
  revert acc out. induction ss as [|[sid' s] ss IH]; intros acc out; cbn [fold_left].
  { simpl. by destruct (Map_get sid acc). }
  destruct (draw_offline mapping (acc, out) (sid', s)) as [acc' out'] eqn:Hstep.
  rewrite IH. clear IH.
  assert (acc' = acc ++ [(sid', if undrawn s then
                                  match Map_get (Session.name s) mapping with
                                  | Some target =>
                                      Session.mk (Session.name s) (Session.email s)
                                        (Some target)
                                  | None => s
                                  end
                                else s)]) as ->.
  { unfold draw_offline in Hstep.
    destruct (undrawn s), (Map_get (Session.name s) mapping); by injection Hstep as <- _. }
  rewrite Map_get_app. destruct (Map_get sid acc) as [v|]; [done|].
  simpl. by destruct (decide (sid = sid')).
Qed.

Section DrawCommit.
Context `{Collator}.

(** X9. When a draw succeeds, the record of a live identity with a claimed
    name holds afterwards the target the mapping gives for that name, with
    name and address as before, provided the live identities that carry
    the same session id do not hold another name. *)
Theorem draw_commits_target ws file rnd st mapping sock info n record :
  createDerangement rnd (getParticipantNames st) (Some (buildBannedSet file))
    = Some mapping ->
  In (sock, info) (participants st) ->
  Participant.name info = Some n -> n <> EmptyString ->
  Participant.sessionId info <> EmptyString ->
  Map_get (Participant.sessionId info) (sessions st) = Some record ->
  (forall sock' info' n',
     In (sock', info') (participants st) ->
     Participant.sessionId info' = Participant.sessionId info ->
     Participant.name info' = Some n' -> n' <> EmptyString -> n' = n) ->
  exists target,
    Map_get n mapping = Some target
    /\ Map_get (Participant.sessionId info)
         (sessions (fst (on_message master ws start_draw_frame file rnd st)))
       = Some (Session.mk (Session.name record) (Session.email record) (Some target)).
Proof.
  intros Hm Hin Hn Hne%nonempty_true Hsid%nonempty_true Hrec Hsame.
  destruct (createDerangement_key _ _ _ _ n Hm) as [target Ht].
  { by eapply live_name_eligible. }
  assert (nonempty target = true) as Htarget.
  { eapply getParticipantNames_nonempty, createDerangement_values; [done|].
    by eapply Map_get_In. }
  exists target. split; [done|].
  set (sid := Participant.sessionId info) in *.
  set (final := Session.mk (Session.name record) (Session.email record) (Some target)).
  rewrite on_message_start_draw. unfold handle_start_draw.
  change (has_type _ "start_draw") with true. cbv iota.
  assert ((length (getParticipantNames st) <? 2) = false) as ->.
  { unfold createDerangement in Hm. by destruct (length (getParticipantNames st) <? 2). }
  rewrite Hm.
  assert (Map_get sid (fst (fold_left (draw_online st mapping) (participants st)
                              (sessions st, []))) = Some final) as H1.
  { apply (fold_left_settles
             (fun acc => exists r, Map_get sid (fst acc) = Some r
                                   /\ Session.name r = Session.name record
                                   /\ Session.email r = Session.email record)
             (fun acc => Map_get sid (fst acc) = Some final) _ _ _ (sock, info) Hin).
    - by exists record.
    - intros [ss' out] [sock' info'] _ (r & Hr & Hrn & Hre). cbn [fst] in *.
      unfold draw_online.
      destruct (Participant.name info') as [n'|]; [|by exists r].
      destruct (nonempty n'); [|by exists r].
      destruct (Map_get n' mapping) as [t'|]; [|by exists r]. cbn [fst].
      destruct (nonempty (Participant.sessionId info')); [|by exists r].
      destruct (Map_get (Participant.sessionId info') ss') as [s'|] eqn:Hs'; [|by exists r].
      destruct (decide (sid = Participant.sessionId info')) as [Heq|Hneq].
      + rewrite <- Heq in *. rewrite Map_get_set_eq. eexists. split; [done|].
        simpl. split; congruence.
      + rewrite Map_get_set_ne by done. by exists r.
    - intros [ss' out] (r & Hr & Hrn & Hre). cbn [fst] in *. unfold draw_online.
      rewrite Hn, Hne, Ht. cbn [fst]. fold sid. rewrite Hsid, Hr, Map_get_set_eq.
      unfold final. by rewrite Hrn, Hre.
    - intros [ss' out] [sock' info'] Hin' Hfinal. cbn [fst] in *. unfold draw_online.
      destruct (Participant.name info') as [n'|] eqn:Hn'; [|done].
      destruct (nonempty n') eqn:Hne'; [|done].
      destruct (Map_get n' mapping) as [t'|] eqn:Ht'; [|done]. cbn [fst].
      destruct (nonempty (Participant.sessionId info')); [|done].
      destruct (Map_get (Participant.sessionId info') ss') as [s'|] eqn:Hs'; [|done].
      destruct (decide (sid = Participant.sessionId info')) as [Heq|Hneq].
      + rewrite <- Heq in *. rewrite Map_get_set_eq.
        assert (n' = n) as ->.
        { apply (Hsame sock' info'); [done | by symmetry | done |].
          by apply nonempty_true. }
        rewrite Hfinal in Hs'. injection Hs' as <-.
        rewrite Ht in Ht'. by injection Ht' as <-.
      + by rewrite Map_get_set_ne. }
  destruct (fold_left (draw_online st mapping) _ _) as [ss1 out1]. cbn [fst] in H1.
  pose proof (draw_offline_get mapping sid ss1 [] out1) as H2.
  destruct (fold_left (draw_offline mapping) _ _) as [ss2 out2].
  cbn [fst sessions with_sessions] in *. rewrite H2, H1. simpl.
  unfold undrawn, final. cbn [Session.target truthy]. rewrite Htarget.
  by rewrite andb_false_r.
Qed.
End DrawCommit.

Lemma first_draw_mapping :
  createDerangement (fun _ => 0) (@getParticipantNames codeunit_collator claimed_state)
    (Some (buildBannedSet None))
  = Some first_mapping.
Proof. vm_compute. reflexivity. Qed.

Lemma alice_is_live :
  In (1, Participant.mk (Some "Alice") (Some "alice@example.org") "s1")
     (participants claimed_state).
Proof. vm_compute. tauto. Qed.

Lemma draw_delivers_targets_witness :
  exists target,
    Map_get "Alice" first_mapping = Some target /\ target <> "Alice"
    /\ In (Sent 1 (your_target target))
          (snd (@on_message codeunit_collator master 0 start_draw_frame None
                  (fun _ => 0) claimed_state)).
Proof.
  apply (proj1 (@draw_delivers_targets codeunit_collator 0 None (fun _ => 0)
                  claimed_state first_mapping first_draw_mapping)
           1 (Participant.mk (Some "Alice") (Some "alice@example.org") "s1") "Alice").
  - exact alice_is_live.
  - reflexivity.
  - discriminate.
  - apply list_elem_of_In. vm_compute. tauto.
Defined.

Lemma draw_mails_and_file_witness :
  exists target,
    Map_get "Alice" first_mapping = Some target
    /\ In (Mail "alice@example.org" "Alice" target)
          (snd (@on_message codeunit_collator master 0 start_draw_frame None
                  (fun _ => 0) claimed_state)).
Proof.
  apply (proj2 (proj2 (@draw_mails_and_file codeunit_collator 0 None (fun _ => 0)
                         claimed_state first_mapping first_draw_mapping))
           1 (Participant.mk (Some "Alice") (Some "alice@example.org") "s1")
           "Alice" "alice@example.org").
  - exact alice_is_live.
  - reflexivity.
  - discriminate.
  - reflexivity.
  - discriminate.
Defined.

Lemma draw_commits_target_witness :
  exists target,
    Map_get "Alice" first_mapping = Some target
    /\ Map_get "s1"
         (sessions (fst (@on_message codeunit_collator master 0 start_draw_frame None
                           (fun _ => 0) claimed_state)))
       = Some (Session.mk "Alice" "alice@example.org" (Some target)).
Proof.
  apply (@draw_commits_target codeunit_collator 0 None (fun _ => 0) claimed_state
           first_mapping 1
           (Participant.mk (Some "Alice") (Some "alice@example.org") "s1") "Alice"
           (Session.mk "Alice" "alice@example.org" None)).
  - exact first_draw_mapping.
  - exact alice_is_live.
  - reflexivity.
  - discriminate.
  - discriminate.
  - vm_compute. reflexivity.
  - intros sock' info' n' Hin Hsid Hn' _. vm_compute in Hin.
    destruct Hin as [[= <- <-]|[[= <- <-]|[[= <- <-]|[]]]];
      simpl in Hsid, Hn'; try discriminate. by injection Hn' as <-.
Defined.

(** ** Closing a connection *)

Section CloseFacts.
Context `{Collator}.

(** X10. The [close] handler never touches a session record or the open
    sockets, leaves the identities of the other sockets and the other
    masters as they are, takes the socket out of the masters, and writes
    nothing but participant lists to masters; a name that a record without
    target holds is still taken afterwards. *)
Theorem close_keeps_records ws st :
  let st' := fst (on_close ws st) in
  let out := snd (on_close ws st) in
  sessions st' = sessions st /\ opened st' = opened st
  /\ (forall sock, sock <> ws ->
        Map_get sock (participants st') = Map_get sock (participants st))
  /\ (forall m, m <> ws -> (In m (masters st') <-> In m (masters st)))
  /\ ~ In ws (masters st')
  /\ (In ws (masters st) -> participants st' = participants st /\ out = [])
  /\ (forall eff, In eff out ->
        exists m names entries,
          eff = Sent m (participants_list names entries) /\ In m (masters st))
  /\ (forall name, held_undrawn st name -> isNameTaken name st' = true).
Proof.
  intros st' out. subst st' out. unfold on_close.
  destruct (bool_decide_reflect (ws ∈ masters st)) as [Hm|Hm].
  - cbn [fst snd sessions opened participants masters with_masters].
    split; [done|]. split; [done|]. split; [done|]. split; [|split; [|split; [|split]]].
    + intros m Hne. rewrite filter_In. split; [tauto|]. intros Hin. split; [done|].
      apply negb_true_iff, bool_decide_eq_false. done.
    + rewrite filter_In. intros [_ Hf]. apply negb_true_iff, bool_decide_eq_false in Hf. done.
    + done.
    + intros eff [].
    + intros name Hheld. apply isNameTaken_spec. by right.
  - assert (~ In ws (masters st)) as Hm' by (by rewrite <- list_elem_of_In).
    destruct (Map_get ws (participants st)) as [info|] eqn:Hinfo.
    + cbn [fst snd sessions opened participants masters with_participants].
      split; [done|]. split; [done|]. split; [|split; [done|split; [done|split; [done|split]]]].
      * intros sock Hne. by apply Map_get_delete_ne.
      * intros eff Hin. destruct (truthy (Participant.name info)); [|done].
        apply in_flat_map in Hin as (m & Hmm & Hs). apply send_only_to in Hs.
        by exists m, (map Entry.name (getAllParticipants
                      (with_participants st (Map_delete ws (participants st))))),
                  (getAllParticipants
                      (with_participants st (Map_delete ws (participants st)))).
      * intros name Hheld. apply isNameTaken_spec. by right.
    + cbn [fst snd]. repeat split; try done.
      intros name Hheld. apply isNameTaken_spec. by right.
Qed.
End CloseFacts.

(** ** A claim that is accepted *)

Lemma isValidEmail_nonempty email : isValidEmail email = true -> nonempty email = true.
Proof. by destruct email. Qed.

Section AcceptedClaim.
Context `{Collator}.

(** The state after a claim that passes every check. *)
Lemma on_message_set_name_accepted role ws name email file rnd st info :
  trim name <> EmptyString -> String.length (trim name) <= 40 ->
  isValidEmail (trim email) = true -> isNameTaken (trim name) st = false ->
  Map_get ws (participants st) = Some info ->
  let sessionId := Participant.sessionId info in
  let st' :=
    with_sessions
      (with_participants st
         (Map_set ws (Participant.mk (Some (trim name)) (Some (trim email)) sessionId)
            (participants st)))
      (Map_set sessionId
         (Session.mk (trim name) (trim email)
            (match Map_get sessionId (sessions st) with
             | Some session => Session.target session
             | None => None
             end))
         (sessions st)) in
  on_message role ws (set_name_frame name email) file rnd st
  = (st', send st' ws (name_ok (trim name) (Some sessionId))
          ++ broadcastParticipantsUpdate st').
Proof.
  intros Hn%nonempty_true Hlen%Nat.ltb_ge Hv Ht Hinfo. rewrite on_message_set_name.
  rewrite Hn, Hlen, (isValidEmail_nonempty _ Hv), Hv, Ht, Hinfo. reflexivity.
Qed.

(** X11. A claim that passes every check on a participant socket binds
    the trimmed name and address to that socket, keeps its session id,
    stores both under that id with the target the record had before, and
    leaves every other identity, every other record, the masters and the
    sockets alone; the socket, if open, is sent the confirmation with its
    session id, everything else written is a participant list to a master;
    and afterwards the name is taken in any spelling of its letters'
    case. *)
Theorem accepted_claim_binds role ws name email file rnd st info :
  trim name <> EmptyString -> String.length (trim name) <= 40 ->
  isValidEmail (trim email) = true -> isNameTaken (trim name) st = false ->
  Map_get ws (participants st) = Some info ->
  let st' := fst (on_message role ws (set_name_frame name email) file rnd st) in
  let out := snd (on_message role ws (set_name_frame name email) file rnd st) in
  let sessionId := Participant.sessionId info in
  Map_get ws (participants st')
    = Some (Participant.mk (Some (trim name)) (Some (trim email)) sessionId)
  /\ (forall sock, sock <> ws ->
        Map_get sock (participants st') = Map_get sock (participants st))
  /\ get_session sessionId st'
     = session_json (trim name) (trim email)
         (match Map_get sessionId (sessions st) with
          | Some session => Session.target session
          | None => None
          end)
  /\ (forall other, other <> sessionId ->
        Map_get other (sessions st') = Map_get other (sessions st))
  /\ masters st' = masters st /\ opened st' = opened st
  /\ (ws ∈ opened st -> In (Sent ws (name_ok (trim name) (Some sessionId))) out)
  /\ (forall eff, In eff out ->
        eff = Sent ws (name_ok (trim name) (Some sessionId))
        \/ exists m names entries,
             eff = Sent m (participants_list names entries) /\ In m (masters st))
  /\ (forall name', toLowerCase name' = toLowerCase (trim name) ->
        isNameTaken name' st' = true).
Proof.
  intros Hn Hlen Hv Ht Hinfo st' out sessionId. subst st' out.
  rewrite (on_message_set_name_accepted role ws name email file rnd st info) by done.
  cbn [fst snd participants sessions masters opened with_sessions with_participants].
  fold sessionId.
  split; [apply Map_get_set_eq|]. split; [intros sock Hne; by apply Map_get_set_ne|].
  split; [unfold get_session; cbn [sessions with_sessions]; by rewrite Map_get_set_eq|].
  split; [intros other Hne; by apply Map_get_set_ne|].
  split; [done|]. split; [done|]. split; [|split].
  - intros Hopen. apply in_or_app. left. rewrite send_open by done. by left.
  - intros eff [Hs|Hb]%in_app_or.
    + left. by apply send_only_to in Hs.
    + right. apply in_flat_map in Hb as (m & Hm & Hs). apply send_only_to in Hs.
      eauto.
  - intros name' Hsame. apply isNameTaken_spec. left.
    exists ws, (Participant.mk (Some (trim name)) (Some (trim email)) sessionId), (trim name).
    cbn [participants with_sessions with_participants].
    split; [apply Map_get_In, Map_get_set_eq|]. by repeat split.
Qed.

(** X12. Claim, leave, come back: after a claim that is accepted in a
    well-formed state, and after any number of sockets have connected and
    closed, a participant who connects with the session id as cookie gets
    the name and address back as its identity and is sent the confirmation
    of the name, or the target if the record already had one. *)
Theorem claim_then_reconnect role ws name email file rnd st info evs ws' freshId :
  well_formed st ->
  trim name <> EmptyString -> String.length (trim name) <= 40 ->
  isValidEmail (trim email) = true -> isNameTaken (trim name) st = false ->
  Map_get ws (participants st) = Some info ->
  Forall quiet evs ->
  let sessionId := Participant.sessionId info in
  let st1 := fst (run (fst (on_message role ws (set_name_frame name email) file rnd st)) evs) in
  let st2 := fst (handle st1 (Connect ws' participant (Some sessionId) freshId)) in
  let out := snd (handle st1 (Connect ws' participant (Some sessionId) freshId)) in
  Map_get ws' (participants st2)
    = Some (Participant.mk (Some (trim name)) (Some (trim email)) sessionId)
  /\ out = [Sent ws' (match Map_get sessionId (sessions st) with
                      | Some (Session.mk _ _ (Some target)) => your_target target
                      | _ => name_ok (trim name) None
                      end)].
Proof.
  intros [Hp Hs] Hn Hlen Hv Ht Hinfo Hq sessionId st1 st2 out.
  pose proof (Map_get_Forall _ _ _ _ Hp Hinfo) as Hsid. unfold identity_ok in Hsid.
  cbn [snd] in Hsid. fold sessionId in Hsid.
  set (record := Session.mk (trim name) (trim email)
                   (match Map_get sessionId (sessions st) with
                    | Some session => Session.target session
                    | None => None
                    end)).
  assert (Map_get sessionId (sessions st1) = Some record) as Hrec.
  { subst st1. rewrite quiet_run_sessions by done.
    rewrite (on_message_set_name_accepted role ws name email file rnd st info) by done.
    cbn [fst sessions with_sessions]. apply Map_get_set_eq. }
  assert (record_ok (sessionId, record)) as Hok.
  { apply nonempty_true in Hn. repeat split; try done.
    - by apply isValidEmail_nonempty.
    - cbn [snd record Session.target]. intros t Heq.
      destruct (Map_get sessionId (sessions st)) as [session|] eqn:Hold; [|done].
      by destruct (Map_get_Forall _ _ _ _ Hs Hold) as (_ & _ & _ & Htarget); auto. }
  split.
  - subst st2. unfold handle, on_connection. rewrite Hsid.
    cbn [fst participants with_participants sessions mark_open with_opened].
    rewrite Hrec, Map_get_set_eq. cbn [record Session.name Session.email].
    unfold or_null. apply nonempty_true in Hn.
    by rewrite Hn, (isValidEmail_nonempty _ Hv).
  - subst out. rewrite (restore_frame st1 ws' sessionId freshId record Hok Hrec).
    cbn [record Session.target Session.name].
    destruct (Map_get sessionId (sessions st)) as [[n0 e0 [t0|]]|]; reflexivity.
Qed.
End AcceptedClaim.

Lemma accepted_claim_binds_witness :
  Map_get 1 (participants
               (fst (@on_message codeunit_collator participant 1
                       (set_name_frame " Dora " "dora@example.org") None (fun _ => 0)
                       claimed_state)))
    = Some (Participant.mk (Some (trim " Dora ")) (Some (trim "dora@example.org")) "s1")
  /\ isNameTaken "DORA"
       (fst (@on_message codeunit_collator participant 1
               (set_name_frame " Dora " "dora@example.org") None (fun _ => 0)
               claimed_state)) = true.
Proof.
  pose proof (@accepted_claim_binds codeunit_collator participant 1 " Dora "
                "dora@example.org" None (fun _ => 0) claimed_state
                (Participant.mk (Some "Alice") (Some "alice@example.org") "s1")) as Hclaim.
  destruct Hclaim as (Hbound & _ & _ & _ & _ & _ & _ & _ & Htaken).
  - vm_compute. discriminate.
  - vm_compute. lia.
  - vm_compute. reflexivity.
  - vm_compute. reflexivity.
  - vm_compute. reflexivity.
  - split; [exact Hbound | apply Htaken; reflexivity].
Defined.

Lemma claim_then_reconnect_witness :
  snd (@handle codeunit_collator
         (fst (@run codeunit_collator
                 (fst (@on_message codeunit_collator participant 1
                         (set_name_frame " Dora " "dora@example.org") None (fun _ => 0)
                         claimed_state))
                 [Closed 1]))
         (Connect 7 participant (Some "s1") "s7"))
  = [Sent 7 (name_ok (trim " Dora ") None)].
Proof.
  pose proof (@claim_then_reconnect codeunit_collator participant 1 " Dora "
                "dora@example.org" None (fun _ => 0) claimed_state
                (Participant.mk (Some "Alice") (Some "alice@example.org") "s1")
                [Closed 1] 7 "s7") as Hback.
  destruct Hback as [_ Hout].
  - apply (@reachable_well_formed codeunit_collator), claimed_state_reachable.
  - vm_compute. discriminate.
  - vm_compute. lia.
  - vm_compute. reflexivity.
  - vm_compute. reflexivity.
  - vm_compute. reflexivity.
  - repeat constructor.
  - exact Hout.
Defined.

(** ** Removing a name *)

Section RemoveFacts.
Context `{Collator}.

Lemma removed_none_bound name st :
  let target := toLowerCase (trim name) in
  let st' :=
    fst (handle_remove_name master (Data.mk (Some "remove_name") (Some name) None) st) in
  (forall sock info, In (sock, info) (participants st') -> bound_to target info = false)
  /\ (forall sid s, In (sid, s) (sessions st') -> session_named target s = false).
Proof.
  intros target st'. subst st'. unfold handle_remove_name. cbn [Data.name].
  change (has_type _ "remove_name") with true. cbv iota. fold target.
  cbn [fst participants sessions with_sessions with_participants]. split.
  - intros sock info [[sock' info'] [Heq Hin]]%in_map_iff. cbn [fst snd] in Heq.
    destruct (bound_to target info') eqn:Hb; injection Heq as <- <-; done.
  - intros sid s [_ Hf]%filter_In. by apply negb_true_iff in Hf.
Qed.

(** X13. After a master has removed a name, that name is free: it is not
    taken in any spelling of its letters' case. *)
Theorem removed_name_is_free ws name file rnd st name' :
  toLowerCase name' = toLowerCase (trim name) ->
  isNameTaken name' (fst (on_message master ws (remove_name_frame name) file rnd st))
  = false.
Proof.
  intros Hsame. rewrite on_message_remove_name.
  destruct (removed_none_bound name st) as [Hp Hs].
  destruct (isNameTaken name' _) eqn:Ht; [|done]. exfalso.
  apply isNameTaken_spec in Ht as [(sock & info & n & Hin & Hn & Hne & Heq)
                                  |(sid & s & Hin & Hne & _ & Heq)].
  - specialize (Hp _ _ Hin). unfold bound_to in Hp. rewrite Hn in Hp.
    apply nonempty_true in Hne. rewrite Hne in Hp. simpl in Hp.
    apply bool_decide_eq_false in Hp. congruence.
  - specialize (Hs _ _ Hin). unfold session_named in Hs.
    apply nonempty_true in Hne. rewrite Hne in Hs. simpl in Hs.
    apply bool_decide_eq_false in Hs. congruence.
Qed.

(** X14. Removing a name is idempotent: a second removal of the same name,
    by any master, leaves the state the first one produced. *)
Theorem remove_name_idempotent ws ws' name file file' rnd rnd' st :
  fst (on_message master ws' (remove_name_frame name) file' rnd'
         (fst (on_message master ws (remove_name_frame name) file rnd st)))
  = fst (on_message master ws (remove_name_frame name) file rnd st).
Proof.
  rewrite !on_message_remove_name.
  destruct (removed_none_bound name st) as [Hp Hs].
  set (st1 := fst (handle_remove_name master _ st)) in *.
  unfold handle_remove_name at 1. cbn [Data.name].
  change (has_type _ "remove_name") with true. cbv iota. cbn [fst].
  destruct st1 as [ps ms ss os].
  unfold with_sessions, with_participants. cbn [participants masters sessions opened] in *.
  f_equal.
  - apply (map_unchanged (fun p => bound_to (toLowerCase (trim name)) (snd p))
             (fun p => (fst p, Participant.mk None None (Participant.sessionId (snd p))))).
    intros [sock info]. apply Hp.
  - apply filter_unchanged. intros [sid s] Hin. apply negb_true_iff. by eapply Hs.
Qed.
End RemoveFacts.

Lemma removed_name_is_free_witness :
  isNameTaken "ALICE"
    (fst (@on_message codeunit_collator master 0 (remove_name_frame " alice ") None
            (fun _ => 0) drawn_state))
  = false.
Proof.
  apply (@removed_name_is_free codeunit_collator). reflexivity.
Defined.

(** ** The lists of participants *)

Lemma held_live_same st n name :
  toLowerCase n = toLowerCase name -> held_live st n -> held_live st name.
Proof.
  intros Hsame (sock & info & n0 & Hin & Hn & Hne & Heq).
  exists sock, info, n0. repeat split; try done. congruence.
Qed.

Lemma held_undrawn_same st n name :
  toLowerCase n = toLowerCase name -> held_undrawn st n -> held_undrawn st name.
Proof.
  intros Hsame (sid & s & Hin & Hne & Ht & Heq).
  exists sid, s. repeat split; try done. congruence.
Qed.

Lemma undrawn_spec s :
  undrawn s = true
  <-> Session.name s <> EmptyString /\ Session.email s <> EmptyString
      /\ truthy (Session.target s) = false.
Proof.
  unfold undrawn. rewrite !andb_true_iff, negb_true_iff, !nonempty_true. tauto.
Qed.

Section Lists.
Context `{Collator}.

Lemma eligible_held st n :
  In n (getParticipantNames st) -> held_live st n \/ held_undrawn st n.
Proof.
  unfold getParticipantNames. rewrite sort_by_In. unfold id.
  revert n. apply List.Forall_forall.
  apply fold_left_invariant; [apply fold_left_invariant; [constructor|]|].
  - intros names [sock info] Hnames Hin. simpl.
    destruct (Participant.name info) as [m|] eqn:Hm; [|done].
    destruct (nonempty m) eqn:Hne; [|done].
    apply Forall_app. split; [done|]. constructor; [|done].
    left. exists sock, info, m. apply nonempty_true in Hne. done.
  - intros names [sid s] Hnames Hin. simpl.
    destruct (undrawn s) eqn:Hu; [|done].
    destruct (negb (existsb _ names)); [|done].
    apply Forall_app. split; [done|]. constructor; [|done].
    right. exists sid, s. apply undrawn_spec in Hu as (? & _ & ?). done.
Qed.

Lemma undrawn_record_eligible st sid s :
  In (sid, s) (sessions st) -> undrawn s = true ->
  exists n, In n (getParticipantNames st)
            /\ toLowerCase n = toLowerCase (Session.name s).
Proof.
  intros Hin Hu. unfold getParticipantNames.
  assert (forall names : list string,
            (exists n, In n names /\ toLowerCase n = toLowerCase (Session.name s)) ->
            exists n, In n (sort_by id names)
                      /\ toLowerCase n = toLowerCase (Session.name s)) as Hsort.
  { intros names (n & Hn & Heq). exists n. by rewrite sort_by_In. }
  apply Hsort.
  apply (fold_left_reaches
           (fun names => exists n, In n names
                                   /\ toLowerCase n = toLowerCase (Session.name s))
           _ _ _ (sid, s) Hin).
  - intros names. simpl. rewrite Hu.
    destruct (existsb (fun n => same_name n (Session.name s)) names) eqn:Hex; simpl.
    + apply existsb_exists in Hex as (n & Hn & Heq%bool_decide_eq_true). by exists n.
    + exists (Session.name s). split; [|done]. apply in_or_app. right. by left.
  - intros names [sid' s'] (n & Hn & Heq). simpl. exists n. split; [|done].
    destruct (undrawn s'); [|done]. destruct (negb (existsb _ names)); [|done].
    apply in_or_app. by left.
Qed.

(** X15. In every state the server can reach, a name is taken exactly when
    it is, up to the case of its letters, one of the eligible names: the
    check of a claim and the list a draw works on agree. *)
Theorem taken_iff_eligible st name :
  reachable st ->
  (isNameTaken name st = true
   <-> exists n, In n (getParticipantNames st) /\ toLowerCase n = toLowerCase name).
Proof.
  intros [_ Hs]%reachable_well_formed. rewrite isNameTaken_spec. split.
  - intros [(sock & info & n & Hin & Hn & Hne%nonempty_true & Heq)
           |(sid & s & Hin & Hne & Ht & Heq)].
    + exists n. split; [by eapply live_name_eligible | done].
    + rewrite List.Forall_forall in Hs.
      destruct (Hs _ Hin) as (_ & _ & He%nonempty_true & _). cbn [snd] in He.
      destruct (undrawn_record_eligible st sid s Hin) as (n & Hn & Hsame).
      { by apply undrawn_spec. }
      exists n. split; [done | congruence].
  - intros (n & Hn & Hsame).
    destruct (eligible_held st n Hn) as [Hl|Hu];
      [left; by eapply held_live_same | right; by eapply held_undrawn_same].
Qed.
End Lists.

Lemma taken_iff_eligible_witness :
  isNameTaken "aLiCe" alice_away = true
  <-> exists n, In n (@getParticipantNames codeunit_collator alice_away)
                /\ toLowerCase n = toLowerCase "aLiCe".
Proof.
  apply (@taken_iff_eligible codeunit_collator).
  apply (reachable_step claimed_state (Closed 1));
    [apply claimed_state_reachable | exact I].
Defined.

Lemma Map_set_NoDup_keys {K V} `{EqDecision K} (k : K) (v : V) (m : list (K * V)) :
  NoDup (map fst m) -> NoDup (map fst (Map_set k v m)).
Proof.
  intros Hnd. destruct (Map_get k m) as [v0|] eqn:Hget.
  - by rewrite (Map_set_keys_same k v0 v).
  - apply Map_get_None in Hget. rewrite Map_set_fresh by done.
    rewrite map_app. simpl. apply NoDup_app. split; [done|]. split.
    + intros x Hx%list_elem_of_In [->|[]]%list_elem_of_In. done.
    + apply NoDup_singleton.
Qed.

Section ObserverList.
Context `{Collator}.

Lemma participantMap_ok st :
  exists all,
    getAllParticipants st = sort_by Entry.name (map snd all)
    /\ NoDup (map fst all) /\ Forall (entry_ok st) all.
Proof.
  unfold getAllParticipants. eexists. split; [reflexivity|].
  apply (fold_left_invariant (fun m => NoDup (map fst m) /\ Forall (entry_ok st) m)).
  - apply (fold_left_invariant (fun m => NoDup (map fst m) /\ Forall (entry_ok st) m)).
    + split; constructor.
    + intros m [sock info] [Hnd Hok] Hin. simpl.
      destruct (Participant.name info) as [n|] eqn:Hn; [|done].
      destruct (Participant.email info) as [e|]; [|done].
      destruct (nonempty n) eqn:Hne; [|done]. destruct (nonempty e) eqn:Hee; [|done].
      simpl. apply nonempty_true in Hne, Hee.
      split; [by apply Map_set_NoDup_keys|]. apply Map_set_Forall; [done|].
      repeat split; try done. left. by exists sock, info, n.
  - intros m [sid s] [Hnd Hok] Hin. simpl.
    destruct (undrawn s) eqn:Hu; [|done].
    apply undrawn_spec in Hu as (Hn & He & Ht).
    destruct (Map_get (toLowerCase (Session.name s)) m) as [e|] eqn:Hget.
    + split; [by apply Map_set_NoDup_keys|]. apply Map_set_Forall; [done|].
      pose proof (Map_get_Forall _ _ _ _ Hok Hget) as (Hk & Hen & Hee & Hheld).
      by repeat split.
    + split; [by apply Map_set_NoDup_keys|]. apply Map_set_Forall; [done|].
      repeat split; try done. right. by exists sid, s.
Qed.

(** X16. The list sent to the observers never shows a name twice, not
    even in another spelling of its letters' case; every entry has a name
    and an address that are not empty, and its name is taken. *)
Theorem observer_list_distinct st :
  NoDup (map (fun e => toLowerCase (Entry.name e)) (getAllParticipants st))
  /\ forall e, In e (getAllParticipants st) ->
       Entry.name e <> EmptyString /\ Entry.email e <> EmptyString
       /\ isNameTaken (Entry.name e) st = true.
Proof.
  destruct (participantMap_ok st) as (all & -> & Hnd & Hok). split.
  - rewrite (sort_by_Permutation Entry.name (map snd all)).
    rewrite map_map.
    assert (map (fun p => toLowerCase (Entry.name (snd p))) all = map fst all) as ->; [|done].
    apply map_ext_in. intros p Hp. rewrite List.Forall_forall in Hok.
    by destruct (Hok p Hp) as [-> _].
  - intros e [[k e'] [<- Hin]]%sort_by_In%in_map_iff.
    rewrite List.Forall_forall in Hok. destruct (Hok _ Hin) as (_ & Hn & He & Hheld).
    repeat split; try done. by apply isNameTaken_spec.
Qed.
End ObserverList.

(** ** What is stored has passed the checks *)

Lemma trimEnd_first c s :
  is_space c = false -> exists t, trimEnd (String c s) = String c t.
Proof. intros Hc. simpl. rewrite Hc. destruct (trimEnd s); eauto. Qed.

Lemma trimEnd_idem s : trimEnd (trimEnd s) = trimEnd s.
Proof.
  induction s as [|c s IH]; [done|]. simpl.
  destruct (trimEnd s) as [|c' t] eqn:Ht.
  - destruct (is_space c) eqn:Hc; [done|]. simpl. by rewrite Hc.
  - change (trimEnd (String c (String c' t))) with
      (match trimEnd (String c' t) with
       | EmptyString => if is_space c then EmptyString else String c EmptyString
       | u => String c u
       end).
    by rewrite IH.
Qed.

Lemma trimStart_cases s :
  trimStart s = EmptyString
  \/ exists c t, trimStart s = String c t /\ is_space c = false.
Proof.
  induction s as [|c s IH]; simpl; [by left|].
  destruct (is_space c) eqn:Hc; [done | right; eauto].
Qed.

Lemma trim_idem s : trim (trim s) = trim s.
Proof.
  unfold trim. destruct (trimStart_cases s) as [->|(c & t & -> & Hc)]; [done|].
  destruct (trimEnd_first c t Hc) as [u Hu]. rewrite Hu.
  cbn [trimStart]. rewrite Hc, <- Hu. apply trimEnd_idem.
Qed.

Lemma Map_delete_keys_NoDup {K V} `{EqDecision K} (k : K) (m : list (K * V)) :
  NoDup (map fst m) ->
  NoDup (map fst (Map_delete k m))
  /\ forall x, In x (map fst (Map_delete k m)) -> In x (map fst m).
Proof.
  induction m as [|[k' v'] m IH]; simpl; [done|]. intros Hnd.
  apply NoDup_cons in Hnd as [Hk Hnd].
  destruct (decide (k = k')) as [->|Hne]; simpl; [split; [done | tauto]|].
  destruct (IH Hnd) as [Hnd' Hsub]. split; [|intros x [?|?]; auto].
  apply NoDup_cons. split; [|done]. intros Hin%list_elem_of_In. apply Hk, list_elem_of_In. auto.
Qed.

Section StoredValid.
Context `{Collator}.

Lemma handle_start_draw_identity role ws data file rnd st :
  participants (fst (handle_start_draw role ws data file rnd st)) = participants st
  /\ masters (fst (handle_start_draw role ws data file rnd st)) = masters st
  /\ map record_identity (sessions (fst (handle_start_draw role ws data file rnd st)))
     = map record_identity (sessions st).
Proof.
  unfold handle_start_draw. destruct role; [|done].
  destruct (has_type data "start_draw"); [|done].
  destruct (length (getParticipantNames st) <? 2); [done|].
  destruct (createDerangement rnd (getParticipantNames st) _) as [mapping|]; [|done].
  pose proof (draw_online_identity st mapping (participants st) (sessions st)) as H1.
  destruct (fold_left (draw_online st mapping) _ _) as [ss1 out1]. cbn [fst] in H1.
  pose proof (draw_offline_identity mapping ss1 [] out1) as H2.
  destruct (fold_left (draw_offline mapping) _ _) as [ss2 out2]. cbn [fst] in H2.
  cbn [fst participants masters sessions with_sessions].
  repeat split. by rewrite H2, <- H1.
Qed.

Lemma record_valid_identity (ss ss' : list (string * Session.t)) :
  map record_identity ss' = map record_identity ss ->
  Forall record_valid ss -> Forall record_valid ss'.
Proof.
  intros Hid Hss. rewrite List.Forall_forall in *. intros p' Hin'.
  apply (in_map record_identity) in Hin'. rewrite Hid in Hin'.
  apply in_map_iff in Hin' as (p & Heq & Hin). specialize (Hss p Hin).
  unfold record_valid, record_identity in *. injection Heq as _ Hn He.
  by rewrite <- Hn, <- He.
Qed.

Lemma on_message_all_valid role ws raw file rnd st :
  all_valid st -> all_valid (fst (on_message role ws raw file rnd st)).
Proof.
  intros [Hp Hs]. unfold on_message. destruct raw as [data|]; [|done].
  assert (all_valid (fst (fst (handle_set_name ws data st)))) as H1.
  { unfold handle_set_name.
    destruct (Data.name data) as [name|]; [|done].
    destruct (Data.email data) as [email|]; [|done].
    destruct (has_type data "set_name"); [|done].
    destruct (nonempty (trim name)) eqn:Hn; [|done]. cbn [negb].
    destruct (40 <? String.length (trim name)) eqn:Hlen; [done|].
    destruct (nonempty (trim email)); [|done]. cbn [negb].
    destruct (isValidEmail (trim email)) eqn:Hv; [|done]. cbn [negb].
    destruct (isNameTaken (trim name) st); [done|].
    destruct (Map_get ws (participants st)) as [info|]; [|done].
    assert (name_valid (trim name)) as Hvalid.
    { split; [apply trim_idem|]. split; [by apply nonempty_true|]. by apply Nat.ltb_ge. }
    split; cbn [fst participants sessions with_sessions with_participants].
    - apply Map_set_Forall; [done|]. by split.
    - apply Map_set_Forall; [done|].
      by destruct (Map_get (Participant.sessionId info) (sessions st)). }
  destruct (handle_set_name ws data st) as [[st1 out1] returned]. cbn [fst] in H1.
  destruct returned; [done|].
  assert (all_valid (fst (handle_remove_name role data st1))) as H2.
  { destruct H1 as [Hp1 Hs1]. unfold handle_remove_name.
    destruct role; [|done]. destruct (Data.name data) as [name|]; [|done].
    destruct (has_type data "remove_name"); [|done].
    split; cbn [fst participants sessions with_sessions with_participants].
    - apply List.Forall_forall. intros p [[sock info] [<- Hin]]%in_map_iff.
      rewrite List.Forall_forall in Hp1. specialize (Hp1 _ Hin).
      by destruct (bound_to _ _).
    - rewrite List.Forall_forall in *. intros p [Hin _]%filter_In. by apply Hs1. }
  destruct (handle_remove_name role data st1) as [st2 out2]. cbn [fst] in H2.
  destruct H2 as [Hp2 Hs2].
  destruct (handle_start_draw_identity role ws data file rnd st2) as (Hps & _ & Hid).
  destruct (handle_start_draw role ws data file rnd st2) as [st3 out3]. cbn [fst] in *.
  split; [by rewrite Hps | by eapply record_valid_identity].
Qed.

(** X17. In every state the server can reach, every stored name, of a live
    identity or of a session record, is trimmed, not empty and at most 40
    code units long, every stored address passes the address check, and a
    live identity has both a name and an address or neither. *)
Theorem reachable_all_valid st : reachable st -> all_valid st.
Proof.
  induction 1 as [|st ev _ [Hp Hs] Hen]; [by split; constructor|].
  destruct ev as [ws role cookie freshId|ws raw file rnd|ws|ws]; simpl.
  - destruct role; [done|]. split; [|done].
    cbn [fst participants with_participants mark_open with_opened sessions].
    apply Map_set_Forall; [done|]. unfold identity_valid.
    cbn [snd Participant.name Participant.email].
    destruct cookie as [sid|]; [|done]. destruct (nonempty sid); [|done].
    change (sessions (mark_open ws st)) with (sessions st).
    destruct (Map_get sid (sessions st)) as [d|] eqn:Hd; [|done].
    pose proof (Map_get_Forall _ _ _ _ Hs Hd) as [(Htrim & Hne & Hlen) Hv].
    cbn [snd] in *. unfold or_null. apply nonempty_true in Hne.
    rewrite Hne, (isValidEmail_nonempty _ Hv). repeat split; try done.
    by apply nonempty_true.
  - destruct (role_of st ws); [by apply on_message_all_valid | done].
  - done.
  - unfold on_close. cbn [masters mark_unready with_opened participants].
    destruct (bool_decide (ws ∈ masters st)); [done|].
    destruct (Map_get ws (participants st)); [|done].
    split; [|done]. by apply Map_delete_Forall.
Qed.

Lemma on_message_containers role ws raw file rnd st :
  map fst (participants (fst (on_message role ws raw file rnd st)))
    = map fst (participants st)
  /\ masters (fst (on_message role ws raw file rnd st)) = masters st.
Proof.
  unfold on_message. destruct raw as [data|]; [|done].
  assert (map fst (participants (fst (fst (handle_set_name ws data st))))
            = map fst (participants st)
          /\ masters (fst (fst (handle_set_name ws data st))) = masters st) as H1.
  { unfold handle_set_name.
    destruct (Data.name data) as [name|]; [|done].
    destruct (Data.email data) as [email|]; [|done].
    destruct (has_type data "set_name"); [|done].
    destruct (negb (nonempty (trim name))); [done|].
    destruct (40 <? String.length (trim name)); [done|].
    destruct (negb (nonempty (trim email))); [done|].
    destruct (negb (isValidEmail (trim email))); [done|].
    destruct (isNameTaken (trim name) st); [done|].
    destruct (Map_get ws (participants st)) as [info|] eqn:Hinfo; [|done].
    cbn [fst participants masters with_sessions with_participants].
    split; [|done]. by eapply Map_set_keys_same. }
  destruct (handle_set_name ws data st) as [[st1 out1] returned]. cbn [fst] in H1.
  destruct returned; [done|]. destruct H1 as [Hk1 Hm1].
  assert (map fst (participants (fst (handle_remove_name role data st1)))
            = map fst (participants st1)
          /\ masters (fst (handle_remove_name role data st1)) = masters st1) as H2.
  { unfold handle_remove_name.
    destruct role; [|done]. destruct (Data.name data) as [name|]; [|done].
    destruct (has_type data "remove_name"); [|done].
    cbn [fst participants masters with_sessions with_participants].
    split; [|done]. rewrite map_map. apply map_ext. intros [sock info]. simpl.
    by destruct (bound_to _ info). }
  destruct (handle_remove_name role data st1) as [st2 out2]. cbn [fst] in H2.
  destruct H2 as [Hk2 Hm2].
  destruct (handle_start_draw_identity role ws data file rnd st2) as (Hps & Hms & _).
  destruct (handle_start_draw role ws data file rnd st2) as [st3 out3]. cbn [fst] in *.
  split; congruence.
Qed.

(** X18. In every state the server can reach, provided each connection
    event brings a socket that is not yet registered: no socket is in the
    masters twice or has two identities, and no socket is both a master and
    a participant. *)
Theorem reachable_containers_ok st : reachable st -> containers_ok st.
Proof.
  induction 1 as [|st ev _ (Hm & Hp & Hdisj) Hen].
  { split; [constructor|]. split; [constructor | intros ws []]. }
  destruct ev as [ws role cookie freshId|ws raw file rnd|ws|ws]; simpl.
  - destruct Hen as [Hfresh _]. unfold role_of in Hfresh.
    destruct (bool_decide_reflect (ws ∈ masters st)) as [|Hnm]; [done|].
    unfold Map_has in Hfresh.
    destruct (Map_get ws (participants st)) eqn:Hget; [done|].
    apply Map_get_None in Hget. rewrite list_elem_of_In in Hnm.
    destruct role; unfold on_connection, containers_ok;
      cbn [fst masters participants with_masters with_participants
             mark_open with_opened].
    + rewrite bool_decide_eq_false_2 by (by rewrite list_elem_of_In).
      split; [|split; [done|]].
      * apply NoDup_app. split; [done|]. split; [|apply NoDup_singleton].
        intros x Hx%list_elem_of_In [->|[]]%list_elem_of_In. done.
      * intros x [Hx|[<-|[]]]%in_app_or; auto.
    + rewrite Map_set_fresh by done. rewrite map_app. simpl.
      split; [done|]. split.
      * apply NoDup_app. split; [done|]. split; [|apply NoDup_singleton].
        intros x Hx%list_elem_of_In [->|[]]%list_elem_of_In. done.
      * intros x Hx [Hin|[<-|[]]]%in_app_or; [by eapply Hdisj | done].
  - destruct (role_of st ws) as [role|]; [|done].
    destruct (on_message_containers role ws raw file rnd st) as [Hk Hms].
    unfold containers_ok. by rewrite Hk, Hms.
  - done.
  - unfold on_close. cbn [masters mark_unready with_opened participants].
    destruct (bool_decide (ws ∈ masters st)).
    + cbn [fst masters participants with_masters]. split; [|split; [done|]].
      * apply NoDup_ListNoDup, List.NoDup_filter, NoDup_ListNoDup, Hm.
      * intros x [Hx _]%filter_In. auto.
    + destruct (Map_get ws (participants st)); [|done].
      cbn [fst masters participants with_participants].
      destruct (Map_delete_keys_NoDup ws _ Hp) as [Hnd Hsub].
      split; [done|]. split; [done|]. intros x Hx Hin. eapply Hdisj; eauto.
Qed.
End StoredValid.

Lemma reachable_all_valid_witness : all_valid drawn_state.
Proof. exact (@reachable_all_valid codeunit_collator drawn_state drawn_state_reachable). Defined.

Lemma reachable_containers_ok_witness : containers_ok drawn_state.
Proof.
  exact (@reachable_containers_ok codeunit_collator drawn_state drawn_state_reachable).
Defined.

(** * The reduced deployment *)

Lemma sublist_In {A} (l1 l2 : list A) x : sublist l1 l2 -> In x l1 -> In x l2.
Proof. intros Hsub Hin%list_elem_of_In. apply list_elem_of_In. by eapply elem_of_sublist. Qed.

Lemma sublist_map_NoDup {A B} (f : A -> B) (l1 l2 : list A) :
  sublist l1 l2 -> NoDup (map f l2) -> NoDup (map f l1).
Proof.
  induction 1 as [|x l1 l2 Hsub IH|x l1 l2 Hsub IH]; simpl; [done|..];
    intros [Hx Hnd]%NoDup_cons; [|by apply IH].
  apply NoDup_cons. split; [|by apply IH].
  intros Hin%list_elem_of_In. apply Hx, list_elem_of_In.
  apply in_map_iff in Hin as (y & Hy & Hin). apply in_map_iff. exists y.
  split; [done | by eapply sublist_In].
Qed.

Lemma createDerangement_bijection rnd names bannedSet m :
  NoDup names -> createDerangement rnd names bannedSet = Some m -> bijection_on names m.
Proof.
  intros Hnd. unfold createDerangement. destruct (length names <? 2); [done|].
  intros (a & _ & _ & ->)%attempts_Some. rewrite build_map_NoDup by done.
  apply combine_bijection; [done | apply shuffle_Permutation].
Qed.

Lemma reduced_createDerangement_full rnd names :
  Reduced.createDerangement rnd names = createDerangement rnd names (Some ∅).
Proof.
  unfold Reduced.createDerangement, createDerangement.
  destruct (length names <? 2); [done|]. symmetry.
  apply attempts_reduced. intros perm. apply valid_perm_empty.
Qed.

Section ReducedFacts.
Context `{Collator}.
Import ReducedServer.

Lemma reduced_names_fold ps acc :
  fold_left (fun names (p : socket * option string) =>
               match snd p with
               | Some n => if nonempty n then names ++ [n] else names
               | None => names
               end) ps acc
  = acc ++ live_names ps.
Proof.
  revert acc. induction ps as [|[sock [n|]] ps IH]; intros acc; simpl.
  - by rewrite app_nil_r.
  - rewrite IH. destruct (nonempty n); [by rewrite <- app_assoc | done].
  - apply IH.
Qed.

Lemma reduced_names_live st :
  Permutation (getParticipantNames st) (live_names (participants st)).
Proof.
  unfold getParticipantNames. rewrite sort_by_Permutation. by rewrite reduced_names_fold.
Qed.

Lemma live_names_In ps n :
  In n (live_names ps) <-> n <> EmptyString /\ exists sock, In (sock, Some n) ps.
Proof.
  unfold live_names. rewrite in_flat_map. split.
  - intros ([sock [m|]] & Hin & Hn); simpl in Hn; [|done].
    destruct (nonempty m) eqn:Hm; [|done]. destruct Hn as [<-|[]].
    split; [by apply nonempty_true | by exists sock].
  - intros [Hne%nonempty_true [sock Hin]]. exists (sock, Some n). split; [done|].
    simpl. rewrite Hne. by left.
Qed.

Lemma live_names_set_In ws v ps n :
  In n (live_names (Map_set ws v ps)) -> v = Some n \/ In n (live_names ps).
Proof.
  intros [Hne [sock Hin]]%live_names_In.
  apply Map_set_In in Hin as [[= _ <-]|Hin]; [by left|].
  right. apply live_names_In. eauto.
Qed.

Lemma name_list_NoDup (f : string -> string) v : NoDup (map f (name_list v)).
Proof.
  destruct v as [n|]; simpl; [|constructor].
  destruct (nonempty n); simpl; [apply NoDup_singleton | constructor].
Qed.

Lemma live_names_set_NoDup ws t ps :
  (forall n, In n (live_names ps) -> toLowerCase n <> toLowerCase t) ->
  NoDup (map toLowerCase (live_names ps)) ->
  NoDup (map toLowerCase (live_names (Map_set ws (Some t) ps))).
Proof.
  induction ps as [|[k v] ps IH]; intros Hfree Hnd.
  { cbn [Map_set live_names flat_map snd]. rewrite app_nil_r. apply name_list_NoDup. }
  cbn [live_names flat_map snd] in Hnd, Hfree. fold (live_names ps) in Hnd, Hfree.
  rewrite map_app in Hnd. apply NoDup_app in Hnd as (Hv & Hdisj & Hps).
  cbn [Map_set]. destruct (decide (ws = k)) as [->|Hne];
    cbn [live_names flat_map snd]; rewrite map_app; apply NoDup_app.
  - fold (live_names ps). split; [apply name_list_NoDup|]. split; [|done].
    intros x Hx%list_elem_of_In Hx'%list_elem_of_In. simpl in Hx.
    destruct (nonempty t); simpl in Hx; [|done]. destruct Hx as [<-|[]].
    apply in_map_iff in Hx' as (n & Heq & Hn).
    apply (Hfree n); [apply in_or_app; by right | done].
  - fold (live_names (Map_set ws (Some t) ps)). split; [done|]. split.
    + intros x Hx Hx'%list_elem_of_In.
      apply in_map_iff in Hx' as (n & <- & Hn).
      apply live_names_set_In in Hn as [[= <-]|Hn].
      * apply list_elem_of_In, in_map_iff in Hx as (n0 & Heq & Hn0).
        apply (Hfree n0); [apply in_or_app; by left | done].
      * apply (Hdisj _ Hx). apply list_elem_of_In, in_map. done.
    + apply IH; [|done]. intros n Hn. apply Hfree, in_or_app. by right.
Qed.

Lemma live_names_clear_sublist (c : option string -> bool) ps :
  sublist (live_names (map (fun p : socket * option string =>
                              if c (snd p) then (fst p, None) else p) ps))
          (live_names ps).
Proof.
  induction ps as [|[k v] ps IH]; simpl; [done|].
  destruct (c v); simpl; [|by apply sublist_app].
  apply sublist_inserts_l. done.
Qed.

Lemma live_names_delete_sublist ws ps :
  sublist (live_names (Map_delete ws ps)) (live_names ps).
Proof.
  induction ps as [|[k v] ps IH]; simpl; [done|].
  destruct (decide (ws = k)); simpl; [by apply sublist_inserts_l | by apply sublist_app].
Qed.

Lemma live_names_set_None_sublist ws ps :
  sublist (live_names (Map_set ws None ps)) (live_names ps).
Proof.
  induction ps as [|[k v] ps IH]; simpl; [done|].
  destruct (decide (ws = k)); simpl; [by apply sublist_inserts_l | by apply sublist_app].
Qed.

Lemma reduced_isNameTaken_false name st :
  isNameTaken name st = false ->
  forall n, In n (live_names (participants st)) -> toLowerCase n <> toLowerCase name.
Proof.
  intros Hfree n [Hne%nonempty_true [sock Hin]]%live_names_In Heq.
  assert (isNameTaken name st = true); [|congruence].
  apply existsb_exists. exists (sock, Some n). split; [done|]. simpl.
  rewrite Hne. by apply bool_decide_eq_true.
Qed.

Lemma reduced_on_message_unique role ws raw rnd st :
  NoDup (map toLowerCase (live_names (participants st))) ->
  NoDup (map toLowerCase
           (live_names (participants (fst (on_message role ws raw rnd st))))).
Proof.
  intros Hnd. unfold on_message. destruct raw as [data|]; [|done].
  assert (NoDup (map toLowerCase
                   (live_names (participants (fst (fst (handle_set_name ws data st)))))))
    as H1.
  { unfold handle_set_name. destruct (Data.name data) as [name|]; [|done].
    destruct (has_type data "set_name"); [|done].
    destruct (negb (nonempty (trim name))); [done|].
    destruct (40 <? String.length (trim name)); [done|].
    destruct (isNameTaken (trim name) st) eqn:Ht; [done|].
    destruct (Map_get ws (participants st)); [|done].
    cbn [fst participants with_participants].
    apply live_names_set_NoDup; [|done]. by apply reduced_isNameTaken_false. }
  destruct (handle_set_name ws data st) as [[st1 out1] returned]. cbn [fst] in H1.
  destruct returned; [done|].
  assert (NoDup (map toLowerCase
                   (live_names (participants (fst (handle_remove_name role data st1))))))
    as H2.
  { unfold handle_remove_name. destruct role; [|done].
    destruct (Data.name data) as [name|]; [|done].
    destruct (has_type data "remove_name"); [|done].
    cbn [fst participants with_participants].
    eapply sublist_map_NoDup; [|exact H1].
    apply (live_names_clear_sublist (bound_to (toLowerCase (trim name)))). }
  destruct (handle_remove_name role data st1) as [st2 out2]. cbn [fst] in H2.
  assert (fst (handle_start_draw role ws data rnd st2) = st2) as H3.
  { unfold handle_start_draw. destruct role; [|done].
    destruct (has_type data "start_draw"); [|done].
    destruct (length (getParticipantNames st2) <? 2); [done|].
    by destruct (Reduced.createDerangement rnd (getParticipantNames st2)). }
  destruct (handle_start_draw role ws data rnd st2) as [st3 out3]. cbn [fst] in *.
  by subst st3.
Qed.

Lemma reduced_reachable_unique st :
  reachable st -> NoDup (map toLowerCase (live_names (participants st))).
Proof.
  intros Hr. induction Hr as [|st ev _ IH]; [constructor|].
  destruct ev as [ws role|ws raw rnd|ws|ws]; simpl.
  - destruct role; [done|]. cbn [fst participants with_participants mark_open with_opened].
    eapply sublist_map_NoDup; [apply live_names_set_None_sublist | done].
  - destruct (role_of st ws); [by apply reduced_on_message_unique | done].
  - done.
  - unfold on_close. cbn [masters mark_unready with_opened participants].
    destruct (bool_decide (ws ∈ masters st)); [done|].
    destruct (Map_get ws (participants st)); [|done].
    cbn [fst participants with_participants].
    eapply sublist_map_NoDup; [apply live_names_delete_sublist | done].
Qed.

Lemma reduced_reachable_names_NoDup st : reachable st -> NoDup (getParticipantNames st).
Proof.
  intros Hnd%reduced_reachable_unique. rewrite reduced_names_live.
  apply NoDup_ListNoDup. eapply List.NoDup_map_inv. apply NoDup_ListNoDup, Hnd.
Qed.

(** X19. In every state the reduced server can reach, no two live
    connections hold the same name, not even in another spelling of its
    letters' case; so the list a draw works on has no name twice. *)
Theorem reduced_names_unique st :
  reachable st ->
  NoDup (map toLowerCase (live_names (participants st)))
  /\ NoDup (getParticipantNames st).
Proof.
  intros Hr. split;
    [by apply reduced_reachable_unique | by apply reduced_reachable_names_NoDup].
Qed.
End ReducedFacts.

Section ReducedDraw.
Context `{Collator}.
Import ReducedServer.

Lemma reduced_on_message_start_draw role ws rnd st :
  on_message role ws start_draw_frame rnd st
  = handle_start_draw role ws (Data.mk (Some "start_draw") None None) rnd st.
Proof.
  unfold on_message, start_draw_frame, handle_set_name, handle_remove_name.
  cbn [Data.name]. by destruct role, (handle_start_draw _ _ _ _ st).
Qed.

(** X20. In every state the reduced server can reach, a draw that
    succeeds changes nothing in the state, its mapping is a bijection of
    the names held, and every live connection with a name and an open
    socket is sent a target that is not its own name but the name another
    live connection holds; no two names get the same target; and a target
    frame only goes to a connection whose name the mapping sends there. *)
Theorem reduced_draw_delivers ws rnd st mapping :
  reachable st ->
  Reduced.createDerangement rnd (getParticipantNames st) = Some mapping ->
  let st' := fst (on_message master ws start_draw_frame rnd st) in
  let out := snd (on_message master ws start_draw_frame rnd st) in
  st' = st
  /\ bijection_on (getParticipantNames st) mapping
  /\ (forall sock n,
        In (sock, Some n) (participants st) -> n <> EmptyString -> sock ∈ opened st ->
        exists target,
          Map_get n mapping = Some target /\ target <> n
          /\ (exists sock', In (sock', Some target) (participants st))
          /\ In (Sent sock (your_target target)) out)
  /\ (forall sock target,
        In (Sent sock (your_target target)) out ->
        exists n, In (sock, Some n) (participants st) /\ Map_get n mapping = Some target).
Proof.
  intros Hr Hm st' out. subst st' out.
  pose proof (reduced_reachable_names_NoDup st Hr) as Hnd.
  pose proof Hm as Hfull. rewrite reduced_createDerangement_full in Hfull.
  rewrite reduced_on_message_start_draw. unfold handle_start_draw.
  change (has_type _ "start_draw") with true. cbv iota.
  assert ((length (getParticipantNames st) <? 2) = false) as ->.
  { unfold Reduced.createDerangement in Hm.
    by destruct (length (getParticipantNames st) <? 2). }
  rewrite Hm. cbn [fst snd].
  split; [done|]. split; [by eapply createDerangement_bijection|]. split.
  - intros sock n Hin Hne Hopen.
    assert (In n (getParticipantNames st)) as Hn.
    { apply list_elem_of_In. rewrite reduced_names_live. apply list_elem_of_In.
      apply live_names_In. eauto. }
    destruct (createDerangement_key _ _ _ _ n Hfull Hn) as [target Ht].
    exists target. split; [done|]. split; [|split].
    + intros ->. by destruct (createDerangement_never_self_aux _ _ _ _ _ _ Hfull Ht).
    + assert (In target (getParticipantNames st)) as Htn.
      { eapply createDerangement_values; [exact Hfull | by eapply Map_get_In]. }
      apply list_elem_of_In in Htn. rewrite reduced_names_live in Htn.
      by apply list_elem_of_In, live_names_In in Htn as [_ ?].
    + apply in_or_app. left. apply in_flat_map. exists (sock, Some n).
      split; [done|]. cbn [fst snd]. apply nonempty_true in Hne.
      rewrite Hne, Ht. unfold send. rewrite bool_decide_eq_true_2 by done. by left.
  - intros sock target [Hin|Hin]%in_app_or.
    + apply in_flat_map in Hin as ([sock' [n|]] & Hp & Heff); [|done].
      cbn [fst snd] in Heff. destruct (nonempty n); [|done].
      destruct (Map_get n mapping) as [t|] eqn:Ht; [|done].
      unfold send in Heff. destruct (bool_decide (sock' ∈ opened st)); [|done].
      destruct Heff as [[= -> ->]|[]]. by exists n.
    + apply in_flat_map in Hin as (m & _ & Heff). unfold send in Heff.
      destruct (bool_decide (m ∈ opened st)); [|done]. by destruct Heff as [[=]|[]].
Qed.
End ReducedDraw.

Lemma reduced_run_reachable `{Collator} st evs :
  ReducedServer.reachable st -> ReducedServer.reachable (fst (ReducedServer.run st evs)).
Proof.
  revert st. induction evs as [|ev evs IH]; intros st Hr; simpl; [done|].
  specialize (IH _ (ReducedServer.reachable_step st ev Hr)).
  destruct (ReducedServer.handle st ev) as [st1 out1]. cbn [fst] in IH.
  by destruct (ReducedServer.run st1 evs).
Qed.

Lemma reduced_claimed_reachable : @ReducedServer.reachable codeunit_collator reduced_claimed.
Proof. apply reduced_run_reachable. constructor. Qed.

Lemma reduced_names_unique_witness :
  NoDup (map toLowerCase (ReducedServer.live_names (ReducedServer.participants reduced_claimed)))
  /\ NoDup (@ReducedServer.getParticipantNames codeunit_collator reduced_claimed).
Proof.
  exact (@reduced_names_unique codeunit_collator reduced_claimed reduced_claimed_reachable).
Defined.

Lemma reduced_draw_delivers_witness :
  exists target,
    Map_get "Bob" first_mapping = Some target /\ target <> "Bob"
    /\ (exists sock', In (sock', Some target) (ReducedServer.participants reduced_claimed))
    /\ In (ReducedServer.Sent 2 (ReducedServer.your_target target))
          (snd (@ReducedServer.on_message codeunit_collator master 0 start_draw_frame
                  (fun _ => 0) reduced_claimed)).
Proof.
  assert (Reduced.createDerangement (fun _ => 0)
            (@ReducedServer.getParticipantNames codeunit_collator reduced_claimed)
          = Some first_mapping) as Hrun by (vm_compute; reflexivity).
  apply (proj1 (proj2 (proj2 (@reduced_draw_delivers codeunit_collator 0 (fun _ => 0)
                                reduced_claimed first_mapping
                                reduced_claimed_reachable Hrun)))).
  - vm_compute. tauto.
  - discriminate.
  - apply list_elem_of_In. vm_compute. tauto.
Defined.

(** * Every valid draw can happen *)

Lemma swap_front {A} (front back : list A) i j x y :
  front !! i = Some x -> front !! j = Some y ->
  swap (front ++ back) i j = <[j:=x]> (<[i:=y]> front) ++ back.
Proof.
  intros Hi Hj. unfold swap.
  rewrite (lookup_app_l_Some _ _ _ _ Hi), (lookup_app_l_Some _ _ _ _ Hj).
  rewrite insert_app_l by (by eapply lookup_lt_Some).
  rewrite insert_app_l; [done|]. rewrite length_insert. by eapply lookup_lt_Some.
Qed.

(** The loop of the shuffle, run on the first [S i] places, can leave any
    rearrangement of them there: [js] are the indices to pick. *)
Lemma shuffle_loop_reaches {A} i : forall (front back p : list A) k,
  length front = S i -> Permutation p front ->
  exists js, forall rnd,
    (forall m, m < i -> rnd (k + m) = nth m js 0) ->
    fst (shuffle_loop rnd i k (front ++ back)) = p ++ back.
Proof.
  induction i as [|i IH]; intros front back p k Hlen Hperm.
  { exists []. intros rnd _. simpl.
    destruct front as [|x [|? ?]]; try done.
    by apply Permutation_singleton_r in Hperm as ->. }
  assert (p <> []) as Hp.
  { intros ->. apply Permutation_nil_l in Hperm. by subst front. }
  destruct (exists_last Hp) as (p' & y & ->).
  assert (y ∈ front) as Hy.
  { rewrite <- Hperm. apply list_elem_of_In, in_or_app. right. by left. }
  apply list_elem_of_lookup in Hy as [j Hj].
  pose proof (lookup_lt_Some _ _ _ Hj) as Hjlt.
  destruct (lookup_lt_is_Some_2 front (S i)) as [x Hx]; [lia|].
  set (front' := <[j:=x]> (<[S i:=y]> front)).
  assert (Permutation front' front) as Hperm'.
  { by apply Permutation_insert_swap. }
  assert (length front' = S (S i)) as Hlen'.
  { subst front'. by rewrite !length_insert. }
  assert (front' !! S i = Some y) as Hlast.
  { subst front'. destruct (decide (j = S i)) as [->|Hne].
    - rewrite list_lookup_insert_eq by (rewrite length_insert; lia). congruence.
    - rewrite list_lookup_insert_ne by done.
      apply list_lookup_insert_eq. lia. }
  assert (front' <> []) as Hf by (intros Heq; by rewrite Heq in Hlen').
  destruct (exists_last Hf) as (f'' & z & Hsplit).
  assert (length f'' = S i) as Hlen''.
  { rewrite Hsplit, length_app in Hlen'. simpl in Hlen'. lia. }
  assert (z = y) as ->.
  { rewrite Hsplit in Hlast. rewrite lookup_app_r in Hlast by lia.
    rewrite Hlen'', Nat.sub_diag in Hlast. by injection Hlast. }
  assert (Permutation p' f'') as Hperm''.
  { apply (Permutation_app_inv_r [y]). by rewrite <- Hsplit, Hperm', Hperm. }
  destruct (IH f'' ([y] ++ back) p' (S k) Hlen'' Hperm'') as [js Hjs].
  exists (j :: js). intros rnd Hrnd.
  cbn [shuffle_loop]. unfold random_index.
  pose proof (Hrnd 0 ltac:(lia)) as Hfirst. rewrite Nat.add_0_r in Hfirst.
  cbn [nth] in Hfirst. rewrite Hfirst, Nat.mod_small by lia.
  rewrite (swap_front front back (S i) j x y Hx Hj). fold front'.
  rewrite Hsplit, <- !app_assoc. rewrite Hjs; [done|].
  intros m Hm. replace (S k + m) with (k + S m) by lia. rewrite Hrnd by lia. done.
Qed.

Lemma shuffle_reaches {A} (array p : list A) :
  Permutation p array -> exists rnd, fst (shuffle rnd 0 array) = p.
Proof.
  intros Hperm. destruct array as [|x array].
  { apply Permutation_nil_r in Hperm as ->. by exists (fun _ => 0). }
  destruct (shuffle_loop_reaches (length array) (x :: array) [] p 0 eq_refl Hperm)
    as [js Hjs].
  exists (fun m => nth m js 0). unfold shuffle. cbn [length Nat.sub].
  rewrite Nat.sub_0_r. specialize (Hjs (fun m => nth m js 0)).
  rewrite !app_nil_r in Hjs. by apply Hjs.
Qed.

(** X21. Every valid draw can happen: for two or more names and any
    rearrangement of them that leaves no name at its place and pairs no
    name with one it is forbidden to give to, some run of the random
    generator makes the solver return exactly the mapping from the names to
    that rearrangement. *)
Theorem every_valid_draw_possible names (bannedSet : gset string) perm :
  2 <= length names -> Permutation perm names ->
  (forall g r, In (g, r) (combine names perm) -> g <> r /\ ~ forbidden bannedSet g r) ->
  exists rnd, createDerangement rnd names (Some bannedSet) = Some (build_map names perm).
Proof.
  intros Hlen Hperm Hvalid. destruct (shuffle_reaches names perm Hperm) as [rnd Hrnd].
  exists rnd. unfold createDerangement.
  apply Nat.ltb_ge in Hlen. rewrite Hlen.
  change 1000 with (S 999). cbn [attempts].
  destruct (shuffle rnd 0 names) as [perm' k'] eqn:Hs. cbn [fst] in Hrnd. subst perm'.
  assert (valid_perm (Some bannedSet) names perm = true) as ->; [|done].
  unfold valid_perm. apply forallb_forall. intros [g r] Hin.
  apply position_ok_spec. by apply Hvalid.
Qed.

Lemma every_valid_draw_possible_witness :
  exists rnd,
    createDerangement rnd ["Alice"; "Bob"; "Carol"] (Some {[ "alice|bob" ]})
    = Some (build_map ["Alice"; "Bob"; "Carol"] ["Carol"; "Alice"; "Bob"]).
Proof.
  apply every_valid_draw_possible.
  - simpl. lia.
  - apply (Permutation_cons_append ["Alice"; "Bob"] "Carol").
  - intros g r Hin. simpl in Hin.
    destruct Hin as [[= <- <-]|[[= <- <-]|[[= <- <-]|[]]]];
      (split; [discriminate|]); unfold forbidden; rewrite elem_of_singleton;
      vm_compute; discriminate.
Defined.

(** X22. The shuffle can give every rearrangement: for any rearrangement
    of an array there is a run of the random generator under which
    [shuffle] returns it. *)
Theorem shuffle_gives_every_rearrangement {A} (array p : list A) :
  Permutation p array ->
  exists rnd, shuffle rnd 0 array = (p, length array - 1).
Proof.
  intros [rnd Hrnd]%shuffle_reaches. exists rnd.
  pose proof (shuffle_counter rnd 0 array) as Hk.
  destruct (shuffle rnd 0 array) as [q k]. cbn [fst snd] in *. by subst.
Qed.

Lemma shuffle_gives_every_rearrangement_witness :
  exists rnd, shuffle rnd 0 ["Alice"; "Bob"; "Carol"] = (["Carol"; "Bob"; "Alice"], 2).
Proof.
  apply (shuffle_gives_every_rearrangement ["Alice"; "Bob"; "Carol"]
           ["Carol"; "Bob"; "Alice"]).
  symmetry. apply (Permutation_rev ["Alice"; "Bob"; "Carol"]).
Defined.

(** ** Who gets the observers' frames *)

Section ObserverFrames.
Context `{Collator}.

Lemma broadcast_to_masters st data sock out_data :
  In (Sent sock out_data) (broadcastToMasters st data) -> In sock (masters st).
Proof.
  unfold broadcastToMasters. intros (m & Hm & Hs)%in_flat_map.
  by apply send_only_to in Hs as [= -> _].
Qed.

Lemma send_error_not_observer st ws e sock data :
  In (Sent sock data) (send st ws (error e)) -> ~ observer_frame data.
Proof.
  intros [= _ ->]%send_only_to [?|(? & ? & ?)]; discriminate.
Qed.

Lemma handle_set_name_observer ws data0 st sock data :
  In (Sent sock data) (snd (fst (handle_set_name ws data0 st))) ->
  observer_frame data -> In sock (masters st).
Proof.
  unfold handle_set_name.
  destruct (Data.name data0) as [name|]; [|done].
  destruct (Data.email data0) as [email|]; [|done].
  destruct (has_type data0 "set_name"); [|done].
  destruct (negb (nonempty (trim name)));
    [intros Hin Hobs; by destruct (send_error_not_observer _ _ _ _ _ Hin)|].
  destruct (40 <? String.length (trim name));
    [intros Hin Hobs; by destruct (send_error_not_observer _ _ _ _ _ Hin)|].
  destruct (negb (nonempty (trim email)));
    [intros Hin Hobs; by destruct (send_error_not_observer _ _ _ _ _ Hin)|].
  destruct (negb (isValidEmail (trim email)));
    [intros Hin Hobs; by destruct (send_error_not_observer _ _ _ _ _ Hin)|].
  destruct (isNameTaken (trim name) st);
    [intros Hin Hobs; by destruct (send_error_not_observer _ _ _ _ _ Hin)|].
  destruct (Map_get ws (participants st)) as [info|];
    [|intros Hin Hobs; by destruct (send_error_not_observer _ _ _ _ _ Hin)].
  cbn [fst snd]. intros [Hin|Hin]%in_app_or Hobs.
  - apply send_only_to in Hin as [= _ ->].
    destruct Hobs as [?|(? & ? & ?)]; discriminate.
  - by apply broadcast_to_masters in Hin.
Qed.

Lemma handle_set_name_masters ws data0 st :
  masters (fst (fst (handle_set_name ws data0 st))) = masters st.
Proof.
  unfold handle_set_name.
  destruct (Data.name data0) as [name|]; [|done].
  destruct (Data.email data0) as [email|]; [|done].
  destruct (has_type data0 "set_name"); [|done].
  destruct (negb (nonempty (trim name))); [done|].
  destruct (40 <? String.length (trim name)); [done|].
  destruct (negb (nonempty (trim email))); [done|].
  destruct (negb (isValidEmail (trim email))); [done|].
  destruct (isNameTaken (trim name) st); [done|].
  by destruct (Map_get ws (participants st)).
Qed.

Lemma handle_remove_name_observer role data0 st sock data :
  In (Sent sock data) (snd (handle_remove_name role data0 st)) ->
  observer_frame data -> In sock (masters st).
Proof.
  unfold handle_remove_name. destruct role; [|done].
  destruct (Data.name data0) as [name|]; [|done].
  destruct (has_type data0 "remove_name"); [|done].
  cbn [snd]. intros [Hin|Hin]%in_app_or Hobs.
  - apply in_flat_map in Hin as ([sock' info] & _ & Hs).
    destruct (bound_to _ _); [|done]. apply send_only_to in Hs as [= _ ->].
    destruct Hobs as [?|(? & ? & ?)]; discriminate.
  - by apply broadcast_to_masters in Hin.
Qed.

Lemma handle_remove_name_masters role data0 st :
  masters (fst (handle_remove_name role data0 st)) = masters st.
Proof.
  unfold handle_remove_name. destruct role; [|done].
  destruct (Data.name data0) as [name|]; [|done].
  by destruct (has_type data0 "remove_name").
Qed.

Lemma handle_start_draw_observer role ws data0 file rnd st sock data :
  In (Sent sock data) (snd (handle_start_draw role ws data0 file rnd st)) ->
  observer_frame data -> In sock (masters st).
Proof.
  unfold handle_start_draw. destruct role; [|done].
  destruct (has_type data0 "start_draw"); [|done].
  destruct (length (getParticipantNames st) <? 2);
    [intros Hin Hobs; by destruct (send_error_not_observer _ _ _ _ _ Hin)|].
  destruct (createDerangement rnd (getParticipantNames st) _) as [mapping|];
    [|intros Hin Hobs; by destruct (send_error_not_observer _ _ _ _ _ Hin)].
  pose proof (draw_online_out st mapping (participants st) (sessions st) []) as H1.
  destruct (fold_left (draw_online st mapping) _ _) as [ss1 out1]. cbn [snd] in H1.
  pose proof (draw_offline_out mapping ss1 [] out1) as H2.
  destruct (fold_left (draw_offline mapping) _ _) as [ss2 out2]. cbn [snd] in H2.
  subst out1 out2. cbn [snd app]. rewrite !in_app_iff.
  intros [[Hin|Hin]|[Hin|Hin]] Hobs.
  - apply in_flat_map in Hin as ([sock' info] & _ & Heff).
    apply draw_online_In in Heff as (n & t & _ & _ & _ & [Hs|(e & _ & _ & [=])]).
    apply send_only_to in Hs as [= _ ->].
    destruct Hobs as [?|(? & ? & ?)]; discriminate.
  - apply in_flat_map in Hin as ([sid s] & _ & Heff).
    by apply draw_offline_In in Heff as (t & _ & _ & [=]).
  - discriminate Hin.
  - by apply broadcast_to_masters in Hin.
Qed.

(** X23. Whatever happens, a participant list or a completion signal is
    only ever written to a socket that is a master when the handler is
    done. *)
Theorem observer_frames_only_to_masters st ev sock data :
  In (Sent sock data) (snd (handle st ev)) -> observer_frame data ->
  In sock (masters (fst (handle st ev))).
Proof.
  destruct ev as [ws role cookie freshId|ws raw file rnd|ws|ws]; cbn [handle].
  - unfold on_connection. destruct role; cbn [fst snd].
    + intros [= -> _]%send_only_to _. cbn [masters with_masters mark_open with_opened].
      destruct (bool_decide_reflect (ws ∈ masters st)) as [Hm|Hm].
      * by apply list_elem_of_In.
      * apply in_or_app. right. by left.
    + destruct cookie as [sid|]; [|done]. destruct (nonempty sid); [|done].
      destruct (Map_get sid _) as [d|]; [|done].
      intros Hin Hobs. exfalso.
      destruct (Session.target d) as [t|]; [destruct (nonempty t)|];
        try destruct (nonempty (Session.name d) && nonempty (Session.email d));
        try done; apply send_only_to in Hin as [= _ ->];
        destruct Hobs as [?|(? & ? & ?)]; discriminate.
  - destruct (role_of st ws) as [role|]; [|done].
    destruct (on_message_containers role ws raw file rnd st) as [_ ->].
    unfold on_message. destruct raw as [data0|]; [|done].
    pose proof (handle_set_name_observer ws data0 st sock data) as H1.
    pose proof (handle_set_name_masters ws data0 st) as M1.
    destruct (handle_set_name ws data0 st) as [[st1 out1] returned]. cbn [fst snd] in *.
    destruct returned; [done|].
    pose proof (handle_remove_name_observer role data0 st1 sock data) as H2.
    pose proof (handle_remove_name_masters role data0 st1) as M2.
    destruct (handle_remove_name role data0 st1) as [st2 out2]. cbn [fst snd] in *.
    pose proof (handle_start_draw_observer role ws data0 file rnd st2 sock data) as H3.
    destruct (handle_start_draw role ws data0 file rnd st2) as [st3 out3]. cbn [fst snd] in *.
    rewrite !in_app_iff. rewrite <- M1, <- M2.
    intros [Hin|[Hin|Hin]] Hobs; [rewrite M2, M1 | rewrite M2 |]; auto.
  - done.
  - unfold on_close. cbn [masters mark_unready with_opened participants].
    destruct (bool_decide (ws ∈ masters st)); [done|].
    destruct (Map_get ws (participants st)) as [info|]; [|done]. cbn [fst snd].
    destruct (truthy (Participant.name info)); [|done].
    intros Hin _. by apply broadcast_to_masters in Hin.
Qed.
End ObserverFrames.

Lemma observer_frames_only_to_masters_witness :
  In 0 (masters (fst (@handle codeunit_collator claimed_state first_draw))).
Proof.
  apply (@observer_frames_only_to_masters codeunit_collator claimed_state first_draw
           0 draw_complete).
  - vm_compute. tauto.
  - by left.
Defined.

(** * The address check *)

Lemma append_is_empty (s1 s2 : string) :
  (s1 ++ s2)%string = EmptyString -> s1 = EmptyString /\ s2 = EmptyString.
Proof. by destruct s1. Qed.

Lemma nullable_matches r : nullable r = true <-> matches r EmptyString.
Proof.
  split.
  - induction r as [| |p|r1 IH1 r2 IH2|r1 IH1 r2 IH2|r IH]; simpl; try done.
    + intros _. constructor.
    + intros [H1 H2]%andb_true_iff. apply (matches_cat r1 r2 "" ""); auto.
    + intros [H1|H2]%orb_true_iff; [apply matches_alt_l | apply matches_alt_r]; auto.
    + intros _. constructor.
  - intros Hm. remember EmptyString as s eqn:Hs.
    induction Hm as [|p c Hp|r1 r2 s1 s2 _ IH1 _ IH2|r1 r2 s _ IH|r1 r2 s _ IH
                    |r|r s1 s2 _ _ _ _]; simpl; try done.
    + apply append_is_empty in Hs as [-> ->]. by rewrite IH1, IH2.
    + by rewrite IH.
    + rewrite IH by done. apply orb_true_r.
Qed.

Lemma deriv_matches c r s : matches (deriv c r) s <-> matches r (String c s).
Proof.
  split.
  - revert s. induction r as [| |p|r1 IH1 r2 IH2|r1 IH1 r2 IH2|r IH]; intros s; simpl.
    + inversion 1.
    + inversion 1.
    + destruct (p c) eqn:Hp; inversion 1; subst. by constructor.
    + assert (matches (re_cat (deriv c r1) r2) s -> matches (re_cat r1 r2) (String c s))
        as Hleft.
      { inversion 1 as [| |? ? s1 s2 H1 H2| | | |]; subst.
        apply (matches_cat r1 r2 (String c s1) s2); auto. }
      destruct (nullable r1) eqn:Hn; [|done].
      inversion 1 as [| | |? ? ? Hl|? ? ? Hr| |]; subst; [auto|].
      apply (matches_cat r1 r2 "" (String c s)); [by apply nullable_matches | auto].
    + inversion 1; subst; [apply matches_alt_l | apply matches_alt_r]; auto.
    + inversion 1 as [| |? ? s1 s2 H1 H2| | | |]; subst.
      apply (matches_star_cons r (String c s1) s2); auto.
  - intros Hm. remember (String c s) as t eqn:Ht. revert s Ht.
    induction Hm as [|p c' Hp|r1 r2 s1 s2 H1 IH1 H2 IH2|r1 r2 t _ IH|r1 r2 t _ IH
                    |r|r s1 s2 H1 IH1 H2 IH2]; intros s Ht; simpl; try done.
    + injection Ht as -> <-. rewrite Hp. constructor.
    + destruct s1 as [|c1 s1]; simpl in Ht.
      * apply nullable_matches in H1. rewrite H1. apply matches_alt_r. auto.
      * injection Ht as -> <-.
        assert (matches (re_cat (deriv c r1) r2) (s1 ++ s2)) as Hcat.
        { constructor; auto. }
        destruct (nullable r1); [by apply matches_alt_l | done].
    + apply matches_alt_l. auto.
    + apply matches_alt_r. auto.
    + destruct s1 as [|c1 s1]; simpl in Ht; [by apply IH2|].
      injection Ht as -> <-. constructor; auto.
Qed.

Lemma re_test_matches r s : re_test r s = true <-> matches r s.
Proof.
  revert r. induction s as [|c s IH]; intros r; simpl.
  - apply nullable_matches.
  - rewrite IH. apply deriv_matches.
Qed.

Lemma matches_class_star p s :
  matches (re_star (re_class p)) s <-> all_units p s = true.
Proof.
  split.
  - intros Hm. remember (re_star (re_class p)) as r eqn:Hr.
    induction Hm as [| | | | | |r s1 s2 H1 _ H2 IH2]; try done.
    injection Hr as ->. inversion H1; subst. simpl.
    apply andb_true_iff. auto.
  - induction s as [|c s IH]; simpl; [constructor|].
    intros [Hp Hs]%andb_true_iff.
    apply (matches_star_cons (re_class p) (String c "") s); [by constructor | auto].
Qed.

Lemma matches_class_plus p s :
  matches (re_plus (re_class p)) s <-> s <> EmptyString /\ all_units p s = true.
Proof.
  unfold re_plus. split.
  - inversion 1 as [| |? ? s1 s2 H1 H2| | | |]; subst. inversion H1; subst.
    apply matches_class_star in H2. simpl. split; [done|]. apply andb_true_iff. auto.
  - intros [Hne Hs]. destruct s as [|c s]; [done|]. simpl in Hs.
    apply andb_true_iff in Hs as [Hp Hs].
    apply (matches_cat (re_class p) _ (String c "") s); [by constructor|].
    by apply matches_class_star.
Qed.

(** X24. The address check accepts exactly the strings made of a first
    part, an at sign, a second part, a full stop and a third part, where a
    part is not empty and has no white space and no at sign. *)
Theorem isValidEmail_shape email :
  isValidEmail email = true
  <-> exists a b c,
        email = (a ++ "@" ++ b ++ "." ++ c)%string
        /\ address_part a /\ address_part b /\ address_part c.
Proof.
  unfold isValidEmail, address_part. rewrite re_test_matches. unfold email_re. split.
  - inversion 1 as [| |? ? a s1 Ha H1| | | |]; subst.
    inversion H1 as [| |? ? at_ s2 Hat H2| | | |]; subst.
    inversion H2 as [| |? ? b s3 Hb H3| | | |]; subst.
    inversion H3 as [| |? ? dot c Hdot Hc| | | |]; subst.
    inversion Hat as [|? ch Hch| | | | |]; subst.
    inversion Hdot as [|? ch' Hch'| | | | |]; subst.
    apply bool_decide_eq_true in Hch, Hch'. subst ch ch'.
    apply matches_class_plus in Ha, Hb, Hc. by exists a, b, c.
  - intros (a & b & c & -> & Ha & Hb & Hc).
    apply matches_class_plus in Ha, Hb, Hc.
    constructor; [done|].
    apply (matches_cat _ _ "@" (b ++ "." ++ c)); [constructor; by apply bool_decide_eq_true|].
    constructor; [done|].
    apply (matches_cat _ _ "." c); [constructor; by apply bool_decide_eq_true | done].
Qed.

(** * Offline participants in a draw *)

Lemma draw_offline_commits mapping ss acc out sessionId session target :
  undrawn session = true -> Map_get (Session.name session) mapping = Some target ->
  In (sessionId, session) ss ->
  In (sessionId, Session.mk (Session.name session) (Session.email session) (Some target))
     (fst (fold_left (draw_offline mapping) ss (acc, out))).
Proof.
  intros Hu Ht Hin.
  apply (fold_left_reaches
           (fun a => In (sessionId,
                         Session.mk (Session.name session) (Session.email session)
                           (Some target)) (fst a))
           _ _ _ (sessionId, session) Hin).
  - intros [acc' out']. unfold draw_offline. rewrite Hu, Ht. cbn [fst].
    apply in_or_app. right. by left.
  - intros [acc' out'] [sid s] Ha. cbn [fst] in Ha. unfold draw_offline.
    destruct (undrawn s), (Map_get (Session.name s) mapping);
      cbn [fst]; apply in_or_app; by left.
Qed.

Section OfflineDraw.
Context `{Collator}.

(** X25. When a draw succeeds, a session record without target whose
    session id no live connection carries, and for whose name the mapping
    has a target, holds that target afterwards, with name and address as
    before, and a mail with that target goes to its address. *)
Theorem draw_commits_offline ws file rnd st mapping sessionId session target :
  createDerangement rnd (getParticipantNames st) (Some (buildBannedSet file))
    = Some mapping ->
  In (sessionId, session) (sessions st) -> undrawn session = true ->
  (forall sock info, In (sock, info) (participants st) ->
                     Participant.sessionId info <> sessionId) ->
  Map_get (Session.name session) mapping = Some target ->
  In (sessionId, Session.mk (Session.name session) (Session.email session) (Some target))
     (sessions (fst (on_message master ws start_draw_frame file rnd st)))
  /\ In (Mail (Session.email session) (Session.name session) target)
        (snd (on_message master ws start_draw_frame file rnd st)).
Proof.
  intros Hm Hin Hu Hother Ht.
  rewrite on_message_start_draw. unfold handle_start_draw.
  change (has_type _ "start_draw") with true. cbv iota.
  assert ((length (getParticipantNames st) <? 2) = false) as ->.
  { unfold createDerangement in Hm. by destruct (length (getParticipantNames st) <? 2). }
  rewrite Hm.
  pose proof (draw_online_keeps st mapping _ _ _ _ Hother Hin) as H1.
  destruct (fold_left (draw_online st mapping) _ _) as [ss1 out1]. cbn [fst] in H1.
  pose proof (draw_offline_commits mapping ss1 [] out1 _ _ _ Hu Ht H1) as H2.
  pose proof (draw_offline_out mapping ss1 [] out1) as H3.
  destruct (fold_left (draw_offline mapping) _ _) as [ss2 out2]. cbn [fst snd] in *.
  split; [done|]. subst out2. rewrite !in_app_iff. left; right.
  apply in_flat_map. exists (sessionId, session). split; [done|].
  apply draw_offline_In. by exists target.
Qed.
End OfflineDraw.

Lemma draw_commits_offline_witness :
  In ("s1", Session.mk "Alice" "alice@example.org" (Some "Bob"))
     (sessions (fst (@on_message codeunit_collator master 0 start_draw_frame None
                       (fun _ => 0) alice_away)))
  /\ In (Mail "alice@example.org" "Alice" "Bob")
        (snd (@on_message codeunit_collator master 0 start_draw_frame None
                (fun _ => 0) alice_away)).
Proof.
  apply (@draw_commits_offline codeunit_collator 0 None (fun _ => 0) alice_away
           first_mapping "s1" (Session.mk "Alice" "alice@example.org" None) "Bob").
  - vm_compute. reflexivity.
  - vm_compute. tauto.
  - reflexivity.
  - intros sock info Hp. vm_compute in Hp.
    destruct Hp as [[= <- <-]|[[= <- <-]|[]]]; discriminate.
  - reflexivity.
Defined.
